(** * INGRES chatbot backend: the question-resolution pipeline of [server/server.js]

    A shallow embedding of [POST /api/answer] up to the rows it answers
    with: whitespace normalisation, year extraction, category and intent
    keywords, place resolution against the store, the SQL builder, the
    statement guard and the empty-result recovery, followed by the
    properties the specification states about them.  The payload built
    from the rows and the route [GET /api/state-cats] are modelled as well,
    with further properties of the code.

    Conventions of the model.
    - Strings are JavaScript strings: finite sequences of UTF-16 code units.
    - The regular expressions of the source are values of a small syntax
      tree, run by a backtracking matcher that follows the ECMAScript
      semantics of the constructs the source uses (priority of alternatives,
      greedy repetition, [\b], look-arounds, captures, leftmost match).
    - [toLowerCase] is a parameter of the functions that call it; the worked
      examples need only what it does on ASCII text.
    - One pattern is made at run time of a state name of the store as it
      stands.  A name of plain ASCII text, without characters of the pattern
      syntax, gives the syntax tree of that literal text; for any other name
      the constructor [new RegExp] of the language is a parameter, which may
      throw.
    - The store is a table (a list of rows) for the fixed queries of the
      source, the rows of its two DISTINCT queries in the order in which the
      store returns them, and a function from statements to rows for the
      statements built at run time.  The corrective service is the sequence
      of its answers within one request.
    - A place name or a category given by the corrective service is a text
      (on another value [esc] throws); a year bound is any JSON scalar, a
      number being an integer below 2^53 in absolute value.
    - Of what [/api/answer] derives from the rows, the narrative summary
      and the values of the chart, which are formatted floating-point
      numbers, are left out. *)

From Stdlib Require Import List String Ascii Bool Arith ZArith NArith Lia.
From Stdlib Require Import DecimalString.
Import ListNotations.

Set Implicit Arguments.

Local Open Scope N_scope.
Local Abbreviation length := List.length (only parsing).

(** ** JavaScript strings *)

Module JsString.

Definition cu := N.
Definition jsstring := list cu.

(** An ASCII literal of the source as a sequence of code units. *)
Definition js (s : string) : jsstring :=
  map N_of_ascii (list_ascii_of_string s).

Arguments js s%_string.

Fixpoint eqb (a b : jsstring) : bool :=
  match a, b with
  | [], [] => true
  | x :: a', y :: b' => (x =? y) && eqb a' b'
  | _, _ => false
  end.

Definition between (lo hi c : cu) : bool := (lo <=? c) && (c <=? hi).

Definition isDigit (c : cu) : bool := between 48 57 c.
Definition isUpper (c : cu) : bool := between 65 90 c.
Definition isLower (c : cu) : bool := between 97 122 c.
Definition isAlnum (c : cu) : bool := isDigit c || isUpper c || isLower c.
(** [\w] *)
Definition isWord (c : cu) : bool := isAlnum c || (c =? 95).

(** LineTerminator: LF, CR, U+2028, U+2029. *)
Definition isLineTerminator (c : cu) : bool :=
  (c =? 10) || (c =? 13) || (c =? 8232) || (c =? 8233).

(** [\s], also the set removed by [trim]: WhiteSpace and LineTerminator. *)
Definition isSpace (c : cu) : bool :=
  between 9 13 c || (c =? 32) || (c =? 160) || (c =? 5760)
  || between 8192 8202 c || (c =? 8232) || (c =? 8233) || (c =? 8239)
  || (c =? 8287) || (c =? 12288) || (c =? 65279).

Definition upperASCII (c : cu) : cu := if isLower c then c - 32 else c.
Definition lowerASCII1 (c : cu) : cu := if isUpper c then c + 32 else c.

(** [toLowerCase] restricted to the ASCII letters. *)
Definition lowerASCII (s : jsstring) : jsstring := map lowerASCII1 s.

Definition isASCII (c : cu) : bool := c <? 128.

(** [s.startsWith(p)] *)
Fixpoint startsWith (p s : jsstring) : bool :=
  match p, s with
  | [], _ => true
  | x :: p', y :: s' => (x =? y) && startsWith p' s'
  | _ :: _, [] => false
  end.

(** [s.includes(p)] *)
Fixpoint includes (s p : jsstring) : bool :=
  startsWith p s || match s with [] => false | _ :: s' => includes s' p end.

(** [s.trim()] *)
Fixpoint trimStart (s : jsstring) : jsstring :=
  match s with
  | c :: s' => if isSpace c then trimStart s' else s
  | [] => []
  end.

Definition trimEnd (s : jsstring) : jsstring := rev (trimStart (rev s)).
Definition trim (s : jsstring) : jsstring := trimEnd (trimStart s).

(** [String(n)] for an integer [n]. *)
Definition ofZ (z : Z) : jsstring := js (NilZero.string_of_int (Z.to_int z)).

Definition digitVal (c : cu) : Z := Z.of_N (c - 48).

Fixpoint digitsVal (acc : Z) (s : jsstring) : Z :=
  match s with
  | c :: s' => if isDigit c then digitsVal (10 * acc + digitVal c) s' else acc
  | [] => acc
  end.

(** [parseInt(s, 10)]: leading white space, an optional sign, the longest run
    of decimal digits; [None] stands for NaN. *)
Definition parseInt (s : jsstring) : option Z :=
  match trimStart s with
  | 45 :: ((d :: _) as ds) =>
      if isDigit d then Some (- digitsVal 0 ds)%Z else None
  | 43 :: ((d :: _) as ds) =>
      if isDigit d then Some (digitsVal 0 ds) else None
  | (d :: _) as ds => if isDigit d then Some (digitsVal 0 ds) else None
  | [] => None
  end.

End JsString.
Import JsString.

(** ** Regular expressions *)

Module Regex.

(** The pattern syntax used by the source.  A character class is a predicate
    on code units; with the [i] flag a letter of the pattern is the class of
    its two cases. *)
Inductive regex : Type :=
| Eps
| Cls (p : cu -> bool)
| Cat (r1 r2 : regex)
| Alt (r1 r2 : regex)
| Star (r : regex)
| Grp (i : nat) (r : regex)
| WordB
| Bos
| Eos
| NotBehind (p : cu -> bool)
| NotAhead (p : cu -> bool).

Definition Plus (r : regex) : regex := Cat r (Star r).
Definition Opt (r : regex) : regex := Alt r Eps.

Definition chr (c : cu) : regex := Cls (N.eqb c).
(** A pattern character under the [i] flag.  Canonicalisation maps no code
    unit above 127 to an ASCII letter, so an ASCII letter matches exactly its
    two cases and any other pattern character used here matches itself. *)
Definition chri (c : cu) : regex :=
  Cls (fun x => if isUpper c || isLower c then upperASCII x =? upperASCII c else x =? c).

Fixpoint seq (f : cu -> regex) (s : jsstring) : regex :=
  match s with
  | [] => Eps
  | [c] => f c
  | c :: s' => Cat (f c) (seq f s')
  end.

Definition lit (s : string) : regex := seq chr (js s).
Definition liti (s : string) : regex := seq chri (js s).

Fixpoint alts (rs : list regex) : regex :=
  match rs with
  | [] => Cls (fun _ => false)
  | [r] => r
  | r :: rs' => Alt r (alts rs')
  end.

Definition digit : regex := Cls isDigit.
Definition space : regex := Cls isSpace.
Definition nonspace : regex := Cls (fun c => negb (isSpace c)).
(** [.] without the [s] flag: any code unit but a line terminator. *)
Definition dot : regex := Cls (fun c => negb (isLineTerminator c)).

(** The matcher state: the code units before the current position (nearest
    first), those from the position on, and the captures made so far. *)
Record mstate : Type := MState {
  before : jsstring;
  rest : jsstring;
  caps : list (nat * jsstring)
}.

Definition wordBefore (st : mstate) : bool :=
  match before st with c :: _ => isWord c | [] => false end.
Definition wordAfter (st : mstate) : bool :=
  match rest st with c :: _ => isWord c | [] => false end.

(** The loop of a greedy [r*]: one more iteration of [r] first, then the
    rest of the pattern.  An iteration that consumes nothing is rejected, as
    RepeatMatcher does; [fuel] bounds the iterations by the length of the
    text left. *)
Fixpoint starLoop (A : Type)
         (m1 : mstate -> (mstate -> option A) -> option A)
         (k : mstate -> option A) (fuel : nat) (st : mstate) : option A :=
  match fuel with
  | O => k st
  | S fuel' =>
      match m1 st (fun st' =>
              if (length (rest st') <? length (rest st))%nat
              then starLoop m1 k fuel' st' else None) with
      | Some a => Some a
      | None => k st
      end
  end.

(** Backtracking matcher in continuation-passing style: [rmatch r st k] tries
    the ways [r] can match at [st] in priority order and returns the first
    for which the continuation [k] succeeds. *)
Fixpoint rmatch (A : Type) (r : regex) (st : mstate) (k : mstate -> option A)
  : option A :=
  match r with
  | Eps => k st
  | Cls p =>
      match rest st with
      | c :: tl => if p c then k (MState (c :: before st) tl (caps st)) else None
      | [] => None
      end
  | Cat r1 r2 => rmatch r1 st (fun st' => rmatch r2 st' k)
  | Alt r1 r2 =>
      match rmatch r1 st k with
      | Some a => Some a
      | None => rmatch r2 st k
      end
  | Star r1 => starLoop (rmatch r1) k (length (rest st)) st
  | Grp i r1 =>
      rmatch r1 st (fun st' =>
        k (MState (before st') (rest st')
             ((i, firstn (length (rest st) - length (rest st')) (rest st))
                :: caps st')))
  | WordB => if xorb (wordBefore st) (wordAfter st) then k st else None
  | Bos => match before st with [] => k st | _ => None end
  | Eos => match rest st with [] => k st | _ => None end
  | NotBehind p =>
      match before st with
      | c :: _ => if p c then None else k st
      | [] => k st
      end
  | NotAhead p =>
      match rest st with
      | c :: _ => if p c then None else k st
      | [] => k st
      end
  end.

(** One successful match: the text skipped before it, the matched text, the
    captures, and the state at its end. *)
Record found : Type := Found {
  gap : jsstring;
  text : jsstring;
  groups : list (nat * jsstring);
  stop : mstate
}.

(** Leftmost match at or after the position [(bef, s)]. *)
Fixpoint search (r : regex) (skipped bef s : jsstring) : option found :=
  match rmatch r (MState bef s []) (fun st => Some st) with
  | Some st =>
      Some (Found (rev skipped) (firstn (length s - length (rest st)) s)
                  (caps st) st)
  | None =>
      match s with
      | [] => None
      | c :: tl => search r (c :: skipped) (c :: bef) tl
      end
  end.

(** [s.match(r)] for a pattern without the [g] flag. *)
Definition exec (r : regex) (s : jsstring) : option found := search r [] [] s.

(** [r.test(s)] *)
Definition test (r : regex) (s : jsstring) : bool :=
  match exec r s with Some _ => true | None => false end.

(** [m[i]]: the last capture of group [i]. *)
Fixpoint group (i : nat) (gs : list (nat * jsstring)) : option jsstring :=
  match gs with
  | [] => None
  | (j, w) :: gs' => if Nat.eqb i j then Some w else group i gs'
  end.

(** The successive matches of a [g] pattern with the text between them, and
    the text after the last one.  After an empty match the scan moves one
    code unit on. *)
Fixpoint scan (fuel : nat) (r : regex) (bef s : jsstring)
  : list (jsstring * jsstring) * jsstring :=
  match fuel with
  | O => ([], s)
  | S fuel' =>
      match search r [] bef s with
      | None => ([], s)
      | Some m =>
          match text m, rest (stop m) with
          | [], [] => ([(gap m, [])], [])
          | [], c :: tl =>
              let (ms, tail) := scan fuel' r (c :: before (stop m)) tl in
              match ms with
              | [] => ([(gap m, [])], c :: tail)
              | (g, t) :: ms' => ((gap m, []) :: (c :: g, t) :: ms', tail)
              end
          | _ :: _, _ =>
              let (ms, tail) := scan fuel' r (before (stop m)) (rest (stop m)) in
              ((gap m, text m) :: ms, tail)
          end
      end
  end.

Definition scanAll (r : regex) (s : jsstring) := scan (S (length s)) r [] s.

(** [s.match(r)] for a pattern with the [g] flag ([[]] when there is none). *)
Definition matchAll (r : regex) (s : jsstring) : list jsstring :=
  map snd (fst (scanAll r s)).

(** [s.replace(r, by)] for a [g] pattern and a replacement without [$]. *)
Definition replaceAll (r : regex) (by_ : jsstring) (s : jsstring) : jsstring :=
  let (ms, tail) := scanAll r s in
  flat_map (fun gt => fst gt ++ by_) ms ++ tail.

(** [s.split(r)] for a pattern that matches no empty string. *)
Definition split (r : regex) (s : jsstring) : list jsstring :=
  let (ms, tail) := scanAll r s in
  map fst ms ++ [tail].

End Regex.
Import Regex.

Local Open Scope string_scope.
Local Open Scope list_scope.

(** ** Values, places, queries and the store *)

Module Data.

(** The JavaScript values a year bound can hold: the deterministic passes
    produce integers (or NaN), the corrective service may return any JSON
    scalar.  [JNum] holds integer numbers, printed in decimal. *)
Inductive jsval : Type :=
| JUndef
| JNull
| JNaN
| JNum (z : Z)
| JStr (s : jsstring).

Definition truthy (v : jsval) : bool :=
  match v with
  | JNum z => negb (z =? 0)%Z
  | JStr s => match s with [] => false | _ => true end
  | _ => false
  end.

(** Template-literal interpolation [`${v}`]. *)
Definition toString (v : jsval) : jsstring :=
  match v with
  | JUndef => js "undefined"
  | JNull => js "null"
  | JNaN => js "NaN"
  | JNum z => ofZ z
  | JStr s => s
  end.

Definition ofOptZ (o : option Z) : jsval :=
  match o with Some z => JNum z | None => JNaN end.

(** A year read from the store: an integer, or [null]. *)
Definition ofLatest (o : option Z) : jsval :=
  match o with Some z => JNum z | None => JNull end.

(** [Math.min] and [Math.max] on two numbers, NaN-propagating. *)
Definition jsMin (a b : option Z) : jsval :=
  match a, b with Some x, Some y => JNum (Z.min x y) | _, _ => JNaN end.
Definition jsMax (a b : option Z) : jsval :=
  match a, b with Some x, Some y => JNum (Z.max x y) | _, _ => JNaN end.

(** [Math.min(...ys)] and [Math.max(...ys)] on a list of at least one. *)
Fixpoint minOf (x : option Z) (ys : list (option Z)) : option Z :=
  match ys with
  | [] => x
  | y :: ys' =>
      match x, minOf y ys' with
      | Some a, Some b => Some (Z.min a b)
      | _, _ => None
      end
  end.
Fixpoint maxOf (x : option Z) (ys : list (option Z)) : option Z :=
  match ys with
  | [] => x
  | y :: ys' =>
      match x, maxOf y ys' with
      | Some a, Some b => Some (Z.max a b)
      | _, _ => None
      end
  end.

(** The [years] object; [{}] has both bounds undefined. *)
Record Years : Type := mkYears { y1 : jsval; y2 : jsval }.
Definition noYears : Years := mkYears JUndef JUndef.

(** [place.level]: the three values the code tests, "national" of the
    service's schema, and [LOther] for any other value or none. *)
Inductive Level : Type := LUnknown | LNational | LState | LDistrict | LOther.

Record Place : Type := mkPlace {
  level : Level;
  state : option jsstring;
  district : option jsstring
}.

Definition unknownPlace : Place := mkPlace LUnknown None None.
Definition statePlace (s : jsstring) : Place := mkPlace LState (Some s) None.
Definition districtPlace (s d : jsstring) : Place :=
  mkPlace LDistrict (Some s) (Some d).

Record Parsed : Type := mkParsed {
  intent : jsstring;
  years : Years;
  place : Place;
  category : option jsstring;
  engine : jsstring
}.

Definition setYears (p : Parsed) (ys : Years) : Parsed :=
  mkParsed (intent p) ys (place p) (category p) (engine p).

(** A row of [gw_assessment_core]; the measurement columns play no part in
    the resolution and are left out. *)
Record Row : Type := mkRow {
  r_state : jsstring;
  r_district : jsstring;
  r_year : Z;
  r_category : jsstring
}.

Definition Table := list Row.

(** A truthy string argument: neither undefined nor empty. *)
Definition nonEmpty (o : option jsstring) : option jsstring :=
  match o with
  | Some [] => None
  | Some s => Some s
  | None => None
  end.

Fixpoint dedup (A : Type) (eq : A -> A -> bool) (seen l : list A) : list A :=
  match l with
  | [] => []
  | x :: l' =>
      if existsb (eq x) seen then dedup eq seen l'
      else x :: dedup eq (x :: seen) l'
  end.

Definition pairEqb (a b : jsstring * jsstring) : bool :=
  JsString.eqb (fst a) (fst b) && JsString.eqb (snd a) (snd b).

(** [SELECT DISTINCT state,district FROM gw_assessment_core] and
    [SELECT DISTINCT state FROM gw_assessment_core] return every pair, every
    state, of the table once, in an order that SQL leaves to the store.  The
    functions that read them take the rows as the store returned them;
    [Distinct] is all they can rely on. *)
Definition Distinct (db : Table) (districts : list (jsstring * jsstring))
           (states : list jsstring) : Prop :=
  NoDup districts /\ NoDup states
  /\ (forall s d, In (s, d) districts
                  <-> exists r, In r db /\ r_state r = s /\ r_district r = d)
  /\ (forall s, In s states <-> exists r, In r db /\ r_state r = s).

(** One such answer, the one of the worked examples: the rows in the order
    in which the table first has them. *)
Definition selectDistricts (db : Table) : list (jsstring * jsstring) :=
  dedup pairEqb [] (map (fun r => (r_state r, r_district r)) db).

Definition selectStates (db : Table) : list jsstring :=
  dedup JsString.eqb [] (map r_state db).

(** [SELECT MAX(year)]: [None] is the NULL of an empty selection. *)
Definition maxYear (rows : Table) : option Z :=
  fold_right (fun r acc =>
                match acc with
                | Some m => Some (Z.max (r_year r) m)
                | None => Some (r_year r)
                end) None rows.

Definition whereState (s : jsstring) (db : Table) : Table :=
  filter (fun r => JsString.eqb (r_state r) s) db.

Definition whereStateDistrict (s d : jsstring) (db : Table) : Table :=
  filter (fun r => JsString.eqb (r_state r) s && JsString.eqb (r_district r) d) db.

(** [SELECT 1 FROM gw_assessment_core WHERE state=? LIMIT 1]; binding an
    undefined parameter throws inside the caller's [try], which the caller
    treats like a miss. *)
Definition probeState (db : Table) (s : option jsstring) : bool :=
  match s with
  | Some s => match whereState s db with [] => false | _ => true end
  | None => false
  end.

Definition probeDistrict (db : Table) (s d : option jsstring) : bool :=
  match s, d with
  | Some s, Some d =>
      match whereStateDistrict s d db with [] => false | _ => true end
  | _, _ => false
  end.

End Data.
Import Data.

(** ** The functions of [server.js] *)

Module Server.

Definition cats (rs : list regex) : regex := fold_right Cat Eps rs.

Definition quote : cu := 39.
Definition nl : jsstring := [10].
Definition indent (n : nat) : jsstring := repeat 32 n.

(** Devanagari keywords of the source, by code unit. *)
Definition hi_ati : jsstring := [0x905; 0x924; 0x93f].
Definition hi_gambhir : jsstring := [0x917; 0x902; 0x92d; 0x940; 0x930].
Definition hi_ardh : jsstring := [0x905; 0x930; 0x94d; 0x927].
Definition hi_surakshit : jsstring :=
  [0x938; 0x941; 0x930; 0x915; 0x94d; 0x937; 0x93f; 0x924].
Definition hi_ke_mukable : jsstring :=
  [0x915; 0x947; 0x20; 0x92e; 0x941; 0x915; 0x93e; 0x92c; 0x932; 0x947].
Definition hi_se : jsstring := [0x938; 0x947].
Definition hi_tak : jsstring := [0x924; 0x915].
Definition hi_dikhao : jsstring := [0x926; 0x93f; 0x916; 0x93e; 0x913].
Definition enDash : cu := 0x2013.

(** [esc]: the argument, or the empty string when it is falsy, with every
    occurrence of the quote replaced by two quotes ([replaceAll] of a
    one-unit pattern, left to right). *)
Definition esc (s : option jsstring) : jsstring :=
  flat_map (fun c => if N.eqb c quote then [quote; quote] else [c])
           (match s with Some s => s | None => [] end).

(** [collapseWs]: [replace(/\s+/g, " ")], then [trim()]. *)
Definition collapseWs (s : jsstring) : jsstring :=
  trim (replaceAll (Plus space) (js " ") s).

Definition STATE_SYNONYM : list (string * string) :=
  [ ("TN", "TAMIL NADU"); ("TAMILNADU", "TAMIL NADU");
    ("UP", "UTTAR PRADESH"); ("MP", "MADHYA PRADESH");
    ("MH", "MAHARASHTRA"); ("TS", "TELANGANA"); ("AP", "ANDHRA PRADESH") ].

Definition nonAlnum (c : cu) : bool := negb (isAlnum c).

(** The pattern that [RegExp] reads from
    [cleaned.replace(/[^A-Za-z0-9]+/g, "\\s+")]: the alphanumeric runs of the
    name as literals, every other run as [\s+]. *)
Definition wordish (cleaned : jsstring) : regex :=
  let (ms, tail) := scanAll (Plus (Cls nonAlnum)) cleaned in
  fold_right (fun gt r => Cat (seq chri (fst gt)) (Cat (Plus space) r))
             (seq chri tail) ms.

(** [nameRegex]: [None] is the [null] returned for a blank name. *)
Definition nameRegex (name : jsstring) : option (regex * regex) :=
  let cleaned := trim name in
  match cleaned with
  | [] => None
  | _ =>
      let spaced := cats [WordB; wordish cleaned; WordB] in
      let nospace :=
        cats [NotBehind isAlnum; seq chri (filter isAlnum cleaned);
              NotAhead isAlnum] in
      Some (spaced, nospace)
  end.

Definition containsName (text name : jsstring) : bool :=
  if (length (filter isAlnum name) <? 4)%nat then false
  else match nameRegex name with
       | Some (spaced, nospace) =>
           test spaced text || test nospace (replaceAll (Plus space) [] text)
       | None => false
       end.

Definition year4 : regex :=
  cats [Grp 1 (Alt (lit "19") (lit "20")); digit; digit].
Definition sepRe : regex := alts [liti "-"; liti "to"; chri enDash].
(** [/(19|20)\d{2}\s*(?:-|to|\u2013)\s*(19|20)\d{2}/i], the third
    separator being the en dash. *)
Definition rangeRe : regex :=
  cats [Grp 1 (Alt (liti "19") (liti "20")); digit; digit; Star space; sepRe;
        Star space; Grp 2 (Alt (liti "19") (liti "20")); digit; digit].

Definition parseYearsAbsolute (t : jsstring) : Years :=
  match exec rangeRe t with
  | Some range =>
      let parts := map (fun s => parseInt (trim s)) (split sepRe (text range)) in
      let a := nth 0 parts None in
      let b := nth 1 parts None in
      mkYears (jsMin a b) (jsMax a b)
  | None =>
      let ys := map parseInt (matchAll year4 t) in
      match ys with
      | [] => noYears
      | [y] => mkYears (ofOptZ y) (ofOptZ y)
      | y :: ys' => mkYears (ofOptZ (minOf y ys')) (ofOptZ (maxOf y ys'))
      end
  end.

(** [/\b(last|past|previous|recent)\s+(\d+|one|...|ten)\s+years?\b/] *)
Definition relativeRe : regex :=
  cats [WordB;
        Grp 1 (alts [lit "last"; lit "past"; lit "previous"; lit "recent"]);
        Plus space;
        Grp 2 (alts [Plus digit; lit "one"; lit "two"; lit "three"; lit "four";
                     lit "five"; lit "six"; lit "seven"; lit "eight";
                     lit "nine"; lit "ten"]);
        Plus space; lit "year"; Opt (lit "s"); WordB].

Definition numberWords : list (string * Z) :=
  [ ("one", 1); ("two", 2); ("three", 3); ("four", 4); ("five", 5);
    ("six", 6); ("seven", 7); ("eight", 8); ("nine", 9); ("ten", 10);
    ("1", 1); ("2", 2); ("3", 3); ("4", 4); ("5", 5);
    ("6", 6); ("7", 7); ("8", 8); ("9", 9); ("10", 10) ]%Z.

Fixpoint lookup (A : Type) (k : jsstring) (m : list (string * A)) : option A :=
  match m with
  | [] => None
  | (k', v) :: m' => if JsString.eqb k (js k') then Some v else lookup k m'
  end.

(** [/;.*\S/], the statement guard of [/api/answer]. *)
Definition guardRe : regex := cats [lit ";"; Star dot; nonspace].

Definition selectMax : jsstring := js "(SELECT MAX(year) FROM gw_assessment_core)".

(** What the corrective service returned, once [JSON.parse] has read it:
    each key present or not.  An unreadable answer is the object without
    keys. *)
Record LlmJson : Type := mkLlmJson {
  j_intent : option jsstring;
  j_place : option Place;
  j_years : option Years;
  j_category : option jsstring
}.

(** The outcome of one call of the service: [Fails] when [geminiGenerate]
    throws (no key, timeout, status, empty text) or the answer is the JSON
    [null]. *)
Inductive reply : Type :=
| Fails
| Json (o : LlmJson).

(** SyntaxCharacter of the pattern grammar: the circumflex, the dollar
    sign, the backslash, the full stop, the asterisk, the plus sign, the
    question mark, the round, square and curly brackets, the vertical bar. *)
Definition isSyntaxCharacter (c : cu) : bool :=
  existsb (N.eqb c) [94; 36; 92; 46; 42; 43; 63; 40; 41; 91; 93; 123; 125; 124].

(** What [/api/answer] comes to: status 400 with an error text, status 500
    (an exception caught at the boundary), or the query, statement and rows
    from which the answer is then written. *)
Inductive response : Type :=
| BadRequest (error : jsstring)
| ServerError
| Answer (parsed : Parsed) (sql : jsstring) (rows : Table).

Section WithEnvironment.

(** [String.prototype.toLowerCase], whose case tables are those of the
    language, not of this program. *)
Variable toLowerCase : jsstring -> jsstring.

(** [new RegExp(source, "i")] for a source that this model does not read
    itself, the pattern grammar being that of the language: [None] when the
    constructor throws a SyntaxError, else the [test] of the expression. *)
Variable newRegExp : jsstring -> option (jsstring -> bool).

(** The table behind [db]; the rows of its two DISTINCT queries, as the
    store returned them; and [db.prepare(sql).all()] for a statement built at
    run time: [None] when the call throws. *)
Variable db : Table.
Variable distinctDistricts : list (jsstring * jsstring).
Variable distinctStates : list jsstring.
Variable prepareAll : jsstring -> option Table.

(** The successive answers of the corrective service within one request. *)
Variable gemini : nat -> reply.

(** [process.env.GEMINI_KEY] *)
Variable envGeminiKey : option jsstring.

(** [process.env.GEMINI_KEY || "..."]: the source falls back to a literal key,
    of which only the fact that it is not empty matters here. *)
Definition GEMINI_KEY : jsstring :=
  match nonEmpty envGeminiKey with
  | Some k => k
  | None => js "AIza"
  end.

Definition haveKey : bool := match GEMINI_KEY with [] => false | _ => true end.

Definition wordsToNum (w : jsstring) : option Z :=
  lookup (toLowerCase w) numberWords.

Definition parseYearsRelative (t : jsstring) (latestYear : option Z)
  : option Years :=
  let s := toLowerCase t in
  match exec relativeRe s, latestYear with
  | Some m, Some latest =>
      if (latest =? 0)%Z then None
      else
        match group 2 (groups m) with
        | Some w =>
            match wordsToNum w with
            | Some n =>
                if (n =? 0)%Z then None
                else Some (mkYears (JNum (latest - (n - 1))) (JNum latest))
            | None => None
            end
        | None => None
        end
  | _, _ => None
  end.

(** [intentOf] *)
Definition compareRe : regex :=
  cats [Grp 1 (Alt Bos WordB);
        Grp 2 (alts [lit "vs"; lit "compare"; seq chr hi_ke_mukable]);
        Grp 3 (Alt WordB Eos)].
Definition trendRe : regex :=
  cats [WordB;
        Grp 1 (alts [lit "since"; lit "between"; lit "trend"; lit "from";
                     lit "to"; seq chr hi_se; seq chr hi_tak; lit "trend of";
                     Cat (lit "trend") (Opt (lit "s")); lit "change"]);
        WordB].
Definition severityRe : regex :=
  cats [WordB;
        Grp 1 (alts [lit "over"; lit "critical"; lit "semi"; lit "safe";
                     seq chr hi_ati; seq chr hi_gambhir; seq chr hi_surakshit]);
        WordB].
Definition listRe : regex :=
  cats [WordB; Grp 1 (alts [lit "list"; lit "show"; seq chr hi_dikhao]); WordB].

Definition intentOf (t : jsstring) : jsstring :=
  let s := toLowerCase t in
  if test compareRe s then js "COMPARE"
  else if test trendRe s then js "TREND"
  else if test severityRe s && test listRe s then js "LIST"
  else js "DATA".

(** The category extractor, the function expression called in place inside
    the [/api/answer] handler. *)
Definition extractCategory (question : jsstring) : option jsstring :=
  let s := toLowerCase question in
  if includes s (js "over-exploited") || includes s (js "overexploited")
     || includes s hi_ati then Some (js "Over-Exploited")
  else if includes s (js "critical") || includes s hi_gambhir
  then Some (js "Critical")
  else if includes s (js "semi") || includes s hi_ardh
  then Some (js "Semi-Critical")
  else if includes s (js "safe") || includes s hi_surakshit
  then Some (js "Safe")
  else None.

(** The first abbreviation of [STATE_SYNONYM], in key order, that occurs in
    the text as a whole word. *)
Definition synonymOf (text : jsstring) : option jsstring :=
  match find (fun kv => test (cats [WordB; liti (fst kv); WordB]) text)
             STATE_SYNONYM with
  | Some kv => Some (js (snd kv))
  | None => None
  end.

(** The loops [for (const r of ...) if (containsName(...)) if (!best || longer) best = r]. *)
Definition longest (A : Type) (name : A -> jsstring) (text : jsstring)
           (l : list A) : option A :=
  fold_left (fun best r =>
               if containsName text (name r) then
                 match best with
                 | None => Some r
                 | Some b =>
                     if (length (name b) <? length (name r))%nat then Some r
                     else best
                 end
               else best) l None.

(** A name that the pattern grammar reads as literal text, one character
    after the other: ASCII code units, none of them a SyntaxCharacter. *)
Definition plainName (ns : jsstring) : bool :=
  forallb (fun c => isASCII c && negb (isSyntaxCharacter c)) ns.

(** The last-resort pattern
    [(?<![A-Za-z0-9])${ns}(?![A-Za-z0-9])] with the [i] flag, for a plain
    [ns]. *)
Definition noSpaceRe (ns : jsstring) : regex :=
  cats [NotBehind isAlnum; seq chri ns; NotAhead isAlnum].

(** The expression that [new RegExp] makes of that pattern for the state
    name [s], as its [test]: [None] when the constructor throws.  The name
    goes into the pattern as it is, white space removed; one that is not
    plain is read by the language. *)
Definition noSpaceTest (s : jsstring) : option (jsstring -> bool) :=
  let ns := replaceAll (Plus space) [] s in
  if plainName ns then Some (test (noSpaceRe ns))
  else newRegExp (js "(?<![A-Za-z0-9])" ++ ns ++ js "(?![A-Za-z0-9])").

(** The last loop of [resolvePlaceSmart]: the first state whose expression
    matches.  [None] when an expression reached before a match cannot be
    made. *)
Fixpoint lastResort (textNoSpace : jsstring) (states : list jsstring)
  : option Place :=
  match states with
  | [] => Some unknownPlace
  | s :: states' =>
      match noSpaceTest s with
      | Some matches =>
          if matches textNoSpace then Some (statePlace s)
          else lastResort textNoSpace states'
      | None => None
      end
  end.

(** [resolvePlaceSmart]: [None] when it throws. *)
Definition resolvePlaceSmart (question : jsstring) : option Place :=
  let text := collapseWs question in
  let textNoSpace := replaceAll (Plus space) [] text in
  match synonymOf text with
  | Some st => Some (statePlace st)
  | None =>
      match longest snd text distinctDistricts with
      | Some bestD => Some (districtPlace (fst bestD) (snd bestD))
      | None =>
          let states := distinctStates in
          match longest (fun s => s) text states with
          | Some bestS => Some (statePlace bestS)
          | None => lastResort textNoSpace states
          end
      end
  end.

Definition latestYearForState (st : option jsstring) : option Z :=
  match nonEmpty st with
  | None => maxYear db
  | Some s => maxYear (whereState s db)
  end.

(** [`${v}`] for a year read from the store: [null] when there is none. *)
Definition showYear (o : option Z) : jsstring :=
  match o with Some z => ofZ z | None => js "null" end.

Definition byYear (p : Parsed) : jsstring :=
  if truthy (y1 (years p)) && truthy (y2 (years p))
  then js "AND year BETWEEN " ++ toString (y1 (years p)) ++ js " AND "
       ++ toString (y2 (years p))
  else js "AND year = "
       ++ match latestYearForState (state (place p)) with
          | Some z => ofZ z
          | None => selectMax
          end.

Definition buildSQL (p : Parsed) : jsstring :=
  match level (place p) with
  | LDistrict =>
      let where_ := js "state='" ++ esc (state (place p))
                    ++ js "' AND district='" ++ esc (district (place p))
                    ++ js "'" in
      js "SELECT year, recharge_mcm, extractable_mcm, extraction_mcm, stage_pct, category"
      ++ nl ++ indent 12 ++ js "FROM gw_assessment_core WHERE " ++ where_
      ++ js " " ++ byYear p ++ js " ORDER BY year;"
  | LState =>
      let where_ := js "state='" ++ esc (state (place p)) ++ js "'" in
      if JsString.eqb (intent p) (js "LIST") then
        js "SELECT state, district, year, extractable_mcm, extraction_mcm, stage_pct, category"
        ++ nl ++ indent 14 ++ js "FROM gw_assessment_core WHERE " ++ where_
        ++ js " "
        ++ match nonEmpty (category p) with
           | Some c => js "AND category='" ++ esc (Some c) ++ js "'"
           | None => []
           end
        ++ js " " ++ byYear p
        ++ nl ++ indent 14 ++ js "ORDER BY stage_pct DESC LIMIT 500;"
      else
        js "SELECT state, district, year, stage_pct, category"
        ++ nl ++ indent 12 ++ js "FROM gw_assessment_core WHERE " ++ where_
        ++ js " " ++ byYear p
        ++ nl ++ indent 12 ++ js "ORDER BY stage_pct DESC LIMIT 500;"
  | _ =>
      let ly := latestYearForState None in
      js "SELECT state, district, year, stage_pct, category"
      ++ nl ++ indent 10 ++ js "FROM gw_assessment_core WHERE year="
      ++ showYear ly ++ js " ORDER BY stage_pct DESC LIMIT 50;"
  end.

(** [geminiParse]: [None] when the call throws. *)
Definition geminiParse (r : reply) : option Parsed :=
  match r with
  | Fails => None
  | Json out =>
      Some (mkParsed
              (match nonEmpty (j_intent out) with Some i => i | None => js "DATA" end)
              (match j_years out with Some ys => ys | None => noYears end)
              (match j_place out with Some pl => pl | None => unknownPlace end)
              (nonEmpty (j_category out))
              (js "gemini"))
  end.

(** [{ ...parsed, ...llm, engine: "gemini" }]: the four keys of [llm] are
    all own properties, so each replaces the one of [parsed]. *)
Definition merge (parsed llm : Parsed) : Parsed :=
  mkParsed (intent llm) (years llm) (place llm) (category llm) (js "gemini").

(** [if (!parsed.years?.y1 && rel) parsed.years = rel] *)
Definition applyRelative (parsed : Parsed) (rel : option Years) : Parsed :=
  if negb (truthy (y1 (years parsed))) then
    match rel with
    | Some r => setYears parsed r
    | None => parsed
    end
  else parsed.

(** The injection guard: [/;.*\S/.test(sql)]. *)
Definition rejected (sql : jsstring) : bool := test guardRe sql.

(** The request state of [/api/answer] from step 4 on: the query, the
    statement and rows in hand, and the statements handed to the store so
    far (latest first). *)
Record Run : Type := mkRun {
  parsed : Parsed;
  sql : jsstring;
  rows : Table;
  executed : list jsstring
}.

(** One accepted correction inside the [try] of step 5: merge, relative
    pass against the new anchor, rebuild, execute.  A throwing store call
    leaves the rows as they were. *)
Definition recover (question : jsstring) (r : Run) (llm : Parsed) : Run :=
  let p := merge (parsed r) llm in
  let latest3 := latestYearForState (state (place p)) in
  let rel3 := parseYearsRelative question latest3 in
  let p := applyRelative p rel3 in
  let sql' := buildSQL p in
  match prepareAll sql' with
  | Some rows' => mkRun p sql' rows' (sql' :: executed r)
  | None => mkRun p sql' (rows r) (sql' :: executed r)
  end.

(** The [try { ... } catch {}] of step 5. *)
Definition correctiveStep (question : jsstring) (call : nat) (r : Run) : Run :=
  if haveKey then
    match geminiParse (gemini call) with
    | Some llm =>
        match level (place llm) with
        | LState =>
            if probeState db (state (place llm)) then recover question r llm
            else r
        | LDistrict =>
            if probeDistrict db (state (place llm)) (district (place llm))
            then recover question r llm
            else r
        | _ => r
        end
    | None => r
    end
  else r.

(** Steps 1 to 3 of [/api/answer], from the place that [resolvePlaceSmart]
    returned: the deterministic parse, the relative pass, and the corrective
    parse for an unresolved place.  The result is the query, the [rel] of
    step 2, and whether the service was asked. *)
Definition parseQuestion (question : jsstring) (place0 : Place)
  : Parsed * option Years * bool :=
  (* 1) deterministic parse *)
  let parsed0 :=
    mkParsed (intentOf question) (parseYearsAbsolute question)
             place0 (extractCategory question) (js "deterministic") in
  (* 2) relative year handling *)
  let latestForRel := latestYearForState (state (place parsed0)) in
  let rel := parseYearsRelative question latestForRel in
  let parsed1 := applyRelative parsed0 rel in
  (* 3) if place unknown, try the corrective parse *)
  let asked :=
    match level (place parsed1) with LUnknown => haveKey | _ => false end in
  let parsed2 :=
    if asked then
      match geminiParse (gemini 0) with
      | Some llm =>
          let p := merge parsed1 llm in
          let latest2 := latestYearForState (state (place p)) in
          applyRelative p (parseYearsRelative question latest2)
      | None => parsed1
      end
    else parsed1 in
  (parsed2, rel, asked).

(** Step 5 of [/api/answer], entered with no rows: the corrective step, then
    the reset of the years to the latest year when a relative expression
    had been read and there are still no rows.  The result carries the
    statements handed to the store, in order. *)
Definition fallbacks (question : jsstring) (rel : option Years) (call : nat)
           (r0 : Run) : response * list jsstring :=
  let r1 := correctiveStep question call r0 in
  match rows r1, rel with
  | [], Some _ =>
      let latest := latestYearForState (state (place (parsed r1))) in
      let p := setYears (parsed r1) (mkYears (ofLatest latest) (ofLatest latest)) in
      let sql2 := buildSQL p in
      match prepareAll sql2 with
      | Some rows2 => (Answer p sql2 rows2, rev (sql2 :: executed r1))
      | None => (ServerError, rev (sql2 :: executed r1))
      end
  | _, _ => (Answer (parsed r1) (sql r1) (rows r1), rev (executed r1))
  end.

(** [POST /api/answer] up to the rows it answers with, together with the
    statements it handed to the store, in order.  An exception of the place
    resolver reaches the [catch] of the handler before any statement is
    built. *)
Definition apiAnswer (text : jsstring) : response * list jsstring :=
  let question := collapseWs text in
  match question with
  | [] => (BadRequest (js "Missing text"), [])
  | _ =>
      match resolvePlaceSmart question with
      | None => (ServerError, [])
      | Some place0 =>
          let '(parsed2, rel, asked) := parseQuestion question place0 in
          (* 4) build and run *)
          let sql0 := buildSQL parsed2 in
          if rejected sql0 then (BadRequest (js "Invalid SQL"), [])
          else
            match prepareAll sql0 with
            | None => (ServerError, [sql0])
            | Some [] =>
                (* 5) fallbacks if no rows *)
                fallbacks question rel (if asked then 1 else 0)%nat
                          (mkRun parsed2 sql0 [] [sql0])
            | Some rows0 => (Answer parsed2 sql0 rows0, [sql0])
            end
      end
  end.

End WithEnvironment.

End Server.
Import Server.

(** ** Notions the statements below are phrased with *)

Module Notions.

(** A string literal as the store reads it, from just after its opening
    quote: a doubled quote stands for one quote character, a single one
    closes the literal.  The result is the text denoted and what follows the
    closing quote. *)
Fixpoint readLiteral (s : jsstring) : option (jsstring * jsstring) :=
  match s with
  | [] => None
  | c :: s' =>
      if N.eqb c quote then
        match s' with
        | c' :: s'' =>
            if N.eqb c' quote then
              match readLiteral s'' with
              | Some (v, r) => Some (quote :: v, r)
              | None => None
              end
            else Some ([], s')
        | [] => Some ([], [])
        end
      else
        match readLiteral s' with
        | Some (v, r) => Some (c :: v, r)
        | None => None
        end
  end.

Definition textOf (s : option jsstring) : jsstring :=
  match s with Some s => s | None => [] end.

(** [q] starts with the escaped form of [s] and its closing quote, every
    quote of [s] doubled, and reads back as exactly [s], leaving [post]. *)
Definition Literal (s : option jsstring) (q post : jsstring) : Prop :=
  q = esc s ++ quote :: post /\ readLiteral q = Some (textOf s, post).

(** Every quote character of the string is one of a pair. *)
Inductive QuotesDoubled : jsstring -> Prop :=
| QD_nil : QuotesDoubled []
| QD_pair s : QuotesDoubled s -> QuotesDoubled (quote :: quote :: s)
| QD_other c s : c <> quote -> QuotesDoubled s -> QuotesDoubled (c :: s).

(** A lower-casing function that does on ASCII text what [toLowerCase]
    does. *)
Definition AsciiLowering (lc : jsstring -> jsstring) : Prop :=
  forall s, forallb isASCII s = true -> lc s = lowerASCII s.

(** The texts a pattern can match, read as a language: an assertion ([\b],
    [^], [$], a look-around) consumes nothing and is not looked into. *)
Inductive Matches : regex -> jsstring -> Prop :=
| M_Eps : Matches Eps []
| M_Cls p c : p c = true -> Matches (Cls p) [c]
| M_Cat r1 r2 w1 w2 :
    Matches r1 w1 -> Matches r2 w2 -> Matches (Cat r1 r2) (w1 ++ w2)
| M_AltL r1 r2 w : Matches r1 w -> Matches (Alt r1 r2) w
| M_AltR r1 r2 w : Matches r2 w -> Matches (Alt r1 r2) w
| M_StarNil r : Matches (Star r) []
| M_StarCons r w1 w2 :
    Matches r w1 -> Matches (Star r) w2 -> Matches (Star r) (w1 ++ w2)
| M_Grp i r w : Matches r w -> Matches (Grp i r) w
| M_WordB : Matches WordB []
| M_Bos : Matches Bos []
| M_Eos : Matches Eos []
| M_NotBehind p : Matches (NotBehind p) []
| M_NotAhead p : Matches (NotAhead p) [].

(** A text of four decimal digits that begins with 19 or 20, and the
    number it writes. *)
Definition YearText (w : jsstring) (v : Z) : Prop :=
  exists d1 d2,
    isDigit d1 = true /\ isDigit d2 = true
    /\ ((w = [49; 57; d1; d2]
         /\ v = (1900 + 10 * digitVal d1 + digitVal d2)%Z)
        \/ (w = [50; 48; d1; d2]
            /\ v = (2000 + 10 * digitVal d1 + digitVal d2)%Z)).

(** The separators of a year range: a hyphen, an en dash, or "to" in either
    case. *)
Definition Separator (sep : jsstring) : Prop :=
  sep = [45] \/ sep = [enDash]
  \/ exists a b, sep = [a; b] /\ (a = 116 \/ a = 84) /\ (b = 111 \/ b = 79).

(** *** The absolute years of a text, read directly

    What the absolute pass is to find, as functions of the text that use
    no pattern: they are compared with [parseYearsAbsolute] below. *)

(** The year that the text begins with: four digits, the first two being
    19 or 20. *)
Definition yearAt (s : jsstring) : option Z :=
  match s with
  | a :: b :: d1 :: d2 :: _ =>
      if isDigit d1 && isDigit d2 then
        if N.eqb a 49 && N.eqb b 57
        then Some (1900 + 10 * digitVal d1 + digitVal d2)%Z
        else if N.eqb a 50 && N.eqb b 48
             then Some (2000 + 10 * digitVal d1 + digitVal d2)%Z
             else None
      else None
  | _ => None
  end.

(** The successive occurrences of a year, left to right, none overlapping
    the one before: [skip] code units are passed over first. *)
Fixpoint yearsFrom (skip : nat) (s : jsstring) : list Z :=
  match s with
  | [] => []
  | _ :: s' =>
      match skip with
      | S k => yearsFrom k s'
      | O =>
          match yearAt s with
          | Some y => y :: yearsFrom 3 s'
          | None => yearsFrom 0 s'
          end
      end
  end.

Definition yearsIn (t : jsstring) : list Z := yearsFrom 0 t.

(** The text after a separator that the text begins with. *)
Definition afterSeparator (s : jsstring) : option jsstring :=
  match s with
  | a :: s' =>
      if N.eqb a 45 || N.eqb a enDash then Some s'
      else
        match s' with
        | b :: s'' =>
            if (N.eqb a 116 || N.eqb a 84) && (N.eqb b 111 || N.eqb b 79)
            then Some s'' else None
        | [] => None
        end
  | [] => None
  end.

(** The two years of a range that the text begins with: a year, white
    space or none, a separator, white space or none, a year. *)
Definition rangeAt (s : jsstring) : option (Z * Z) :=
  match yearAt s with
  | Some a =>
      match afterSeparator (trimStart (skipn 4 s)) with
      | Some s' =>
          match yearAt (trimStart s') with
          | Some b => Some (a, b)
          | None => None
          end
      | None => None
      end
  | None => None
  end.

(** The range that begins leftmost in the text. *)
Fixpoint firstRange (s : jsstring) : option (Z * Z) :=
  match rangeAt s with
  | Some ab => Some ab
  | None =>
      match s with
      | [] => None
      | _ :: s' => firstRange s'
      end
  end.

Fixpoint least (y : Z) (ys : list Z) : Z :=
  match ys with
  | [] => y
  | y' :: ys' => Z.min y (least y' ys')
  end.

Fixpoint greatest (y : Z) (ys : list Z) : Z :=
  match ys with
  | [] => y
  | y' :: ys' => Z.max y (greatest y' ys')
  end.

(** The years of the leftmost range, the smaller first; without a range,
    the least and the greatest of the years that occur. *)
Definition absoluteYears (t : jsstring) : Years :=
  match firstRange t with
  | Some (a, b) => mkYears (JNum (Z.min a b)) (JNum (Z.max a b))
  | None =>
      match yearsIn t with
      | [] => noYears
      | y :: ys => mkYears (JNum (least y ys)) (JNum (greatest y ys))
      end
  end.

(** The maximal runs of decimal digits of a text, in order. *)
Fixpoint digitRuns (cur s : jsstring) : list jsstring :=
  match s with
  | [] => match cur with [] => [] | _ => [rev cur] end
  | c :: s' =>
      if isDigit c then digitRuns (c :: cur) s'
      else match cur with
           | [] => digitRuns [] s'
           | _ => rev cur :: digitRuns [] s'
           end
  end.

(** The years that stand alone in a text, in the words of the
    specification: the numbers written with exactly four digits, the first
    two being 19 or 20. *)
Definition standaloneYears (t : jsstring) : list jsstring :=
  filter (fun w => Nat.eqb (length w) 4
                   && (startsWith (js "19") w || startsWith (js "20") w))
         (digitRuns [] t).

(** A statement terminator with something other than white space after
    it, anywhere later in the text. *)
Fixpoint afterTerminator (s : jsstring) : bool :=
  match s with
  | [] => false
  | c :: s' =>
      (N.eqb c 59 && existsb (fun x => negb (isSpace x)) s')
      || afterTerminator s'
  end.

(** Something other than white space before the next line break. *)
Fixpoint contentOnLine (s : jsstring) : bool :=
  match s with
  | [] => false
  | c :: s' =>
      if isLineTerminator c then false
      else negb (isSpace c) || contentOnLine s'
  end.

(** A statement terminator with something other than white space after it
    on the same line. *)
Fixpoint terminatorOnLine (s : jsstring) : bool :=
  match s with
  | [] => false
  | c :: s' => (N.eqb c 59 && contentOnLine s') || terminatorOnLine s'
  end.

(** The invariant of the year bounds: when both are numbers, the first is
    not greater than the second. *)
Definition Ordered (ys : Years) : Prop :=
  match y1 ys, y2 ys with
  | JNum a, JNum b => (a <= b)%Z
  | _, _ => True
  end.

(** The rows whose latest year stands for "latest" in a statement built for
    the query: those of the state of its place when one is named, else all
    rows. *)
Definition scopeRows (db : Table) (p : Parsed) : Table :=
  match nonEmpty (state (place p)) with
  | Some s => whereState s db
  | None => db
  end.

(** A place returned by the service is accepted when the probe that goes
    with its level finds a row. *)
Definition accepted (db : Table) (llm : Parsed) : bool :=
  match level (place llm) with
  | LState => probeState db (state (place llm))
  | LDistrict => probeDistrict db (state (place llm)) (district (place llm))
  | _ => false
  end.

(** The query after an accepted correction: the answer of the service, its
    years replaced by the relative window at the new anchor when it names
    no first bound. *)
Definition corrected (lc : jsstring -> jsstring) (db : Table)
           (question : jsstring) (llm : Parsed) : Parsed :=
  applyRelative (merge llm llm)
    (parseYearsRelative lc question
       (latestYearForState db (state (place llm)))).

(** The query of the last fallback: the years reset to the latest year of
    the rows of the state of its place, a district's as well, or of all rows
    when the place names no state. *)
Definition latestOnly (db : Table) (p : Parsed) : Parsed :=
  let latest := latestYearForState db (state (place p)) in
  setYears p (mkYears (ofLatest latest) (ofLatest latest)).

(** Every answer of the service that names years names them in order. *)
Definition ServiceOrdered (gemini : nat -> reply) : Prop :=
  forall n out ys, gemini n = Json out -> j_years out = Some ys -> Ordered ys.

End Notions.
Import Notions.


(** ** A small table for the worked examples *)

Module Samples.

Definition sampleDb : Table :=
  [ mkRow (js "Maharashtra") (js "Pune") 2020 (js "Safe");
    mkRow (js "Maharashtra") (js "Pune Rural") 2020 (js "Critical");
    mkRow (js "Gujarat") (js "Mehsana") 2020 (js "Safe");
    mkRow (js "Gujarat") (js "Surat") 2022 (js "Safe") ].

(** The rows of its two DISTINCT queries, in order of first occurrence. *)
Definition sampleDistricts : list (jsstring * jsstring) :=
  selectDistricts sampleDb.
Definition sampleStates : list jsstring := selectStates sampleDb.

(** A constructor that throws on every source handed to it.  The state
    names of [sampleDb] are plain, so it is handed none. *)
Definition syntaxError : jsstring -> option (jsstring -> bool) :=
  fun _ => None.

(** A query for the whole country that names both year bounds. *)
Definition nationalRange : Parsed :=
  mkParsed (js "DATA") (mkYears (JNum 2019) (JNum 2020)) unknownPlace None
           (js "deterministic").

(** A district query without years. *)
Definition mehsanaLatest : Parsed :=
  mkParsed (js "DATA") noYears (districtPlace (js "Gujarat") (js "Mehsana"))
           None (js "deterministic").

(** The test case of the specification: Mehsana in Gujarat, 2019 to 2020. *)
Definition mehsanaRange : Parsed :=
  mkParsed (js "TREND") (mkYears (JNum 2019) (JNum 2020))
           (districtPlace (js "Gujarat") (js "Mehsana")) None
           (js "deterministic").

(** A question whose state is known and whose relative window finds no
    critical district. *)
Definition criticalQuestion : jsstring :=
  js "list critical districts in Gujarat over the last 3 years".

(** The service narrows the place to a district that exists, with a window
    in which the district has no row. *)
Definition mehsanaReply : reply :=
  Json (mkLlmJson (Some (js "LIST"))
                  (Some (districtPlace (js "Gujarat") (js "Mehsana")))
                  (Some (mkYears (JNum 2021) (JNum 2022)))
                  (Some (js "Critical"))).

Definition criticalGujaratStmt : jsstring :=
  js "SELECT state, district, year, extractable_mcm, extraction_mcm, stage_pct, category"
  ++ nl ++ indent 14
  ++ js "FROM gw_assessment_core WHERE state='Gujarat' AND category='Critical' AND year BETWEEN 2020 AND 2022"
  ++ nl ++ indent 14 ++ js "ORDER BY stage_pct DESC LIMIT 500;".

Definition mehsanaStmt (from to : string) : jsstring :=
  js "SELECT year, recharge_mcm, extractable_mcm, extraction_mcm, stage_pct, category"
  ++ nl ++ indent 12
  ++ js "FROM gw_assessment_core WHERE state='Gujarat' AND district='Mehsana' AND year BETWEEN "
  ++ js from ++ js " AND " ++ js to ++ js " ORDER BY year;".

(** What the store answers on [sampleDb] to the statements of the example:
    Gujarat has no critical district, and Mehsana no row after 2020.  Other
    statements are not part of the example. *)
Definition sampleStore (sql : jsstring) : option Table :=
  if JsString.eqb sql criticalGujaratStmt
     || JsString.eqb sql (mehsanaStmt "2021" "2022")
     || JsString.eqb sql (mehsanaStmt "2022" "2022")
  then Some [] else None.

(** A question whose place the deterministic passes do not resolve. *)
Definition gujratQuestion : jsstring := js "groundwater in Gujrat 2019 to 2020".

(** The service answers with the second bound written as text, a
    terminator at its end. *)
Definition terminatorReply : reply :=
  Json (mkLlmJson (Some (js "DATA")) (Some (statePlace (js "Gujarat")))
                  (Some (mkYears (JStr (js "2019")) (JStr (js "2020;"))))
                  None).

Definition terminatorStmt : jsstring :=
  js "SELECT state, district, year, stage_pct, category"
  ++ nl ++ indent 12
  ++ js "FROM gw_assessment_core WHERE state='Gujarat' AND year BETWEEN 2019 AND 2020;"
  ++ nl ++ indent 12 ++ js "ORDER BY stage_pct DESC LIMIT 500;".

(** The service answers with the two bounds the wrong way round. *)
Definition swappedReply : reply :=
  Json (mkLlmJson (Some (js "TREND")) (Some (statePlace (js "Gujarat")))
                  (Some (mkYears (JNum 2020) (JNum 2019))) None).

(** The service puts a second statement into the second bound. *)
Definition injectionReply : reply :=
  Json (mkLlmJson (Some (js "LIST"))
                  (Some (districtPlace (js "Gujarat") (js "Mehsana")))
                  (Some (mkYears (JNum 2021)
                                 (JStr (js "2022; DROP TABLE gw_assessment_core; --"))))
                  (Some (js "Critical"))).

Definition injectionStmt : jsstring :=
  js "SELECT year, recharge_mcm, extractable_mcm, extraction_mcm, stage_pct, category"
  ++ nl ++ indent 12
  ++ js "FROM gw_assessment_core WHERE state='Gujarat' AND district='Mehsana' AND year BETWEEN 2021 AND 2022; DROP TABLE gw_assessment_core; -- ORDER BY year;".

End Samples.
Import Samples.
(** ** The payload of an answer, and the category counts of a state *)

Module Payload.

(** [meta.yearUsed] of [/api/answer]: the least and the greatest year of the
    rows answered, [None] (null) when there is no row. *)
Definition yearUsed (rows : Table) : option (Z * Z) :=
  match map r_year rows with
  | [] => None
  | y :: ys => Some (fold_left Z.min ys y, fold_left Z.max ys y)
  end.

Record Meta : Type := mkMeta {
  m_sql : jsstring;
  m_yearUsed : option (Z * Z)
}.

(** The names that every object inherits from [Object.prototype]. *)
Definition objectPrototype : list string :=
  [ "constructor"; "__defineGetter__"; "__defineSetter__"; "hasOwnProperty";
    "__lookupGetter__"; "__lookupSetter__"; "isPrototypeOf";
    "propertyIsEnumerable"; "toString"; "valueOf"; "__proto__";
    "toLocaleString" ].

Definition inherited (k : jsstring) : bool :=
  existsb (fun n => JsString.eqb k (js n)) objectPrototype.

(** The own properties of an object with string keys, in insertion order. *)
Definition object (V : Type) : Type := list (jsstring * V).

Fixpoint own (V : Type) (k : jsstring) (o : object V) : option V :=
  match o with
  | [] => None
  | (k', v) :: o' => if JsString.eqb k' k then Some v else own k o'
  end.

(** [o[k] = v] for a key that is no setter: an own property keeps its
    place, a new one goes to the end. *)
Fixpoint assign (V : Type) (k : jsstring) (v : V) (o : object V) : object V :=
  match o with
  | [] => [(k, v)]
  | (k', v') :: o' =>
      if JsString.eqb k' k then (k', v) :: o' else (k', v') :: assign k v o'
  end.

(** A value of the tally of [buildPayload]: a number, or the text that
    [+ 1] makes of a member inherited from [Object.prototype] (its wording
    is the engine's) or of such a text. *)
Inductive cell : Type :=
| Count (n : Z)
| Text.

(** One step of [rows.reduce((acc, r) => { const k = r.category || "Unknown";
    acc[k] = (acc[k] || 0) + 1; return acc; }, {})].  Assigning to
    [__proto__] a value that is no object changes nothing. *)
Definition tally (acc : object cell) (r : Row) : object cell :=
  let k := match r_category r with [] => js "Unknown" | c => c end in
  match own k acc with
  | Some (Count n) => assign k (Count ((if (n =? 0)%Z then 0 else n) + 1)) acc
  | Some Text => assign k Text acc
  | None =>
      if inherited k then
        if JsString.eqb k (js "__proto__") then acc else assign k Text acc
      else assign k (Count 1) acc
  end.

(** [byCat[label] || 0] *)
Definition orZero (v : option cell) : cell :=
  match v with
  | Some (Count n) => Count n
  | Some Text => Text
  | None => Count 0
  end.

(** [new Set(rows.map(r => r.year).filter(Boolean))]: the distinct years that
    are not 0, in order of first occurrence.  The [sort()] that follows in
    the source is not modelled: the code uses the length of the result and,
    when that is 1, its element. *)
Definition distinctYears (rows : Table) : list Z :=
  dedup Z.eqb [] (filter (fun y => negb (y =? 0)%Z) (map r_year rows)).

Definition singleYear (rows : Table) : option Z :=
  match distinctYears rows with
  | [y] => Some y
  | _ => None
  end.

(** The payload; of the chart the labels only (its values are formatted
    floating-point numbers). *)
Record payload : Type := mkPayload {
  p_place : Place;
  p_yearUsed : option (Z * Z);
  p_kpis : option (list (jsstring * cell));
  p_catBreakdown : option (object cell);
  p_chartLabels : option (list Z);
  p_source : jsstring
}.

Definition buildPayload (parsed : Parsed) (rows : Table) (meta : Meta)
  : payload :=
  let single := singleYear rows in
  let stateKpis :=
    match level (place parsed), single with
    | LState, Some y =>
        let total := Z.of_nat (length rows) in
        let byCat := fold_left tally rows [] in
        Some ([ (js "Districts (" ++ ofZ y ++ js ")", Count total);
                (js "Over-Exploited", orZero (own (js "Over-Exploited") byCat));
                (js "Critical", orZero (own (js "Critical") byCat));
                (js "Semi-Critical", orZero (own (js "Semi-Critical") byCat)) ],
              byCat)
    | _, _ => None
    end in
  mkPayload
    (place parsed)
    (match m_yearUsed meta with
     | Some used => Some used
     | None => match single with Some y => Some (y, y) | None => None end
     end)
    (option_map fst stateKpis)
    (option_map snd stateKpis)
    (match level (place parsed) with
     | LDistrict =>
         if (2 <=? length rows)%nat then Some (map r_year rows) else None
     | _ => None
     end)
    (match single with
     | Some y => js "INGRES/CGWB (year " ++ ofZ y ++ js ")"
     | None => js "INGRES/CGWB (latest available)"
     end).

(** The payload that [/api/answer] sends with an answer. *)
Definition payloadOf (r : response) : option payload :=
  match r with
  | Answer parsed sql rows =>
      Some (buildPayload parsed rows (mkMeta sql (yearUsed rows)))
  | _ => None
  end.

End Payload.
Import Payload.

Module Routes.

(** What a GET route comes to: a status with an error text, or the body
    sent with status 200. *)
Inductive result (A : Type) : Type :=
| Status (code : Z) (error : jsstring)
| Body (body : A).

Arguments Status {A} code error.
Arguments Body {A} body.

(** [String(req.query.name || empty).trim()], [empty] being the empty
    string, for a parameter that is absent or given once. *)
Definition param (q : option jsstring) : jsstring := trim (textOf q).

(** [req.query.year ? parseInt(req.query.year, 10) : latestYearForState(state)],
    then the test [!year]: a year that is NaN, null or 0 is none.  The number
    read by [parseInt] is exact below 2^53. *)
Definition yearFor (db : Table) (state : jsstring) (year : option jsstring)
  : option Z :=
  let y := match nonEmpty year with
           | Some text => parseInt text
           | None => latestYearForState db (Some state)
           end in
  match y with
  | Some n => if (n =? 0)%Z then None else Some n
  | None => None
  end.

Definition whereStateYear (s : jsstring) (y : Z) (db : Table) : Table :=
  filter (fun r => JsString.eqb (r_state r) s && (r_year r =? y)%Z) db.

(** The query of the route, which selects each category with the number of
    its rows ([GROUP BY category]), on the rows selected: one row for each
    category.  The groups are listed in order of first
    occurrence; the loop over them gives the same for any order. *)
Definition countByCategory (rows : Table) : list (jsstring * Z) :=
  map (fun c => (c, Z.of_nat (length (filter (fun r => JsString.eqb (r_category r) c) rows))))
      (dedup JsString.eqb [] (map r_category rows)).

Definition noCounts : object Z :=
  [ (js "Safe", 0%Z); (js "Semi-Critical", 0%Z); (js "Critical", 0%Z);
    (js "Over-Exploited", 0%Z) ].

(** [if (out.counts[r.category] != null) out.counts[r.category] = r.c]: the
    test holds for an own property and for a name inherited from
    [Object.prototype]. *)
Definition count (counts : object Z) (r : jsstring * Z) : object Z :=
  let (category, c) := r in
  match own category counts with
  | Some _ => assign category c counts
  | None =>
      if inherited category then
        if JsString.eqb category (js "__proto__") then counts
        else assign category c counts
      else counts
  end.

Record StateCats : Type := mkStateCats {
  sc_state : jsstring;
  sc_year : Z;
  sc_counts : object Z
}.

(** [GET /api/state-cats] *)
Definition stateCats (db : Table) (state year : option jsstring)
  : result StateCats :=
  let state := param state in
  match state with
  | [] => Status 400 (js "Missing state")
  | _ =>
      match yearFor db state year with
      | None => Status 404 (js "No year found for state")
      | Some year =>
          let rows := countByCategory (whereStateYear state year db) in
          Body (mkStateCats state year (fold_left count rows noCounts))
      end
  end.

End Routes.
Import Routes.

(** * Properties *)

Local Close Scope string_scope.

(** ** Strings *)

Lemma eqb_spec (a b : jsstring) : JsString.eqb a b = true <-> a = b.
Proof.
  revert b; induction a as [|x a IH]; intros [|y b]; simpl;
    try (split; [discriminate | congruence]); [tauto|].
  rewrite andb_true_iff, N.eqb_eq, IH.
  split; [intros [-> ->]; reflexivity | intros H; injection H; auto].
Qed.

Lemma eqb_refl (a : jsstring) : JsString.eqb a a = true.
Proof. apply eqb_spec; reflexivity. Qed.

Lemma trimStart_split (t : jsstring) :
  exists pre, t = pre ++ trimStart t /\ forallb isSpace pre = true.
Proof.
  induction t as [|c t [pre [IH Hpre]]]; [now exists []|].
  cbn [trimStart]. destruct (isSpace c) eqn:Hc.
  - exists (c :: pre). cbn [app forallb]. rewrite Hc, Hpre. now rewrite <- IH.
  - now exists [].
Qed.

Lemma app_js_assoc (a b c : jsstring) : (a ++ b) ++ c = a ++ b ++ c.
Proof. symmetry; apply app_assoc. Qed.

Lemma lowerASCII_is_AsciiLowering : AsciiLowering lowerASCII.
Proof. intros s _; reflexivity. Qed.

(** ** Escaping *)

Lemma esc_cons (c : cu) (s : jsstring) :
  esc (Some (c :: s))
  = (if N.eqb c quote then [quote; quote] else [c]) ++ esc (Some s).
Proof. reflexivity. Qed.

Lemma esc_QuotesDoubled (s : option jsstring) : QuotesDoubled (esc s).
Proof.
  destruct s as [s|]; [|constructor].
  induction s as [|c s IH]; [constructor|].
  rewrite esc_cons. destruct (N.eqb_spec c quote) as [->|Hc]; simpl.
  - now constructor.
  - now constructor.
Qed.

Lemma readLiteral_pair (t : jsstring) :
  readLiteral (quote :: quote :: t)
  = match readLiteral t with
    | Some (v, r) => Some (quote :: v, r)
    | None => None
    end.
Proof. reflexivity. Qed.

Lemma readLiteral_other (c : cu) (t : jsstring) :
  c <> quote ->
  readLiteral (c :: t)
  = match readLiteral t with
    | Some (v, r) => Some (c :: v, r)
    | None => None
    end.
Proof.
  intros Hc. cbn [readLiteral].
  destruct (N.eqb_spec c quote) as [E|_]; [contradiction | reflexivity].
Qed.

Lemma readLiteral_close (post : jsstring) :
  hd_error post <> Some quote -> readLiteral (quote :: post) = Some ([], post).
Proof.
  intros Hpost. destruct post as [|d post]; [reflexivity|].
  cbn [readLiteral]. rewrite N.eqb_refl.
  destruct (N.eqb_spec d quote) as [->|_]; [now elim Hpost | reflexivity].
Qed.

Lemma readLiteral_esc (s : option jsstring) (post : jsstring) :
  hd_error post <> Some quote ->
  readLiteral (esc s ++ quote :: post) = Some (textOf s, post).
Proof.
  intros Hpost. destruct s as [s|]; [|now apply readLiteral_close].
  cbn [textOf]. induction s as [|c s IH]; [now apply readLiteral_close|].
  rewrite esc_cons. destruct (N.eqb_spec c quote) as [->|Hc].
  - cbn [app]. now rewrite readLiteral_pair, IH.
  - cbn [app]. now rewrite readLiteral_other, IH.
Qed.

Lemma Literal_esc (s : option jsstring) (post : jsstring) :
  hd_error post <> Some quote -> Literal s (esc s ++ quote :: post) post.
Proof. intros H; split; [reflexivity | now apply readLiteral_esc]. Qed.


(** ** The matcher *)

Section Matcher.

Variable A : Type.

(** What a successful run of the matcher went through: some text [w] of the
    language of the pattern, consumed from the position, after which the
    continuation succeeded. *)
Definition Ran (r : regex) (st : mstate) (k : mstate -> option A) (a : A)
  : Prop :=
  exists w st',
    Matches r w /\ rest st = w ++ rest st'
    /\ before st' = rev w ++ before st /\ k st' = Some a.

Lemma starLoop_sound (r : regex)
      (IH : forall st k a, rmatch r st k = Some a -> Ran r st k a)
      (k : mstate -> option A) (a : A) (fuel : nat) :
  forall st, starLoop (rmatch r) k fuel st = Some a -> Ran (Star r) st k a.
Proof.
  induction fuel as [|fuel IHf]; intros st H; cbn [starLoop] in H.
  - exists [], st. split; [constructor | auto].
  - destruct (rmatch r st _) as [a'|] eqn:E.
    + injection H as ->. apply IH in E.
      destruct E as [w1 [st1 [Hw1 [Hr1 [Hb1 Hk1]]]]].
      destruct (length (rest st1) <? length (rest st))%nat; [|discriminate].
      apply IHf in Hk1. destruct Hk1 as [w2 [st2 [Hw2 [Hr2 [Hb2 Hk2]]]]].
      exists (w1 ++ w2), st2. split; [now constructor|]. split; [|split].
      * now rewrite Hr1, Hr2, app_assoc.
      * now rewrite Hb2, Hb1, rev_app_distr, app_assoc.
      * exact Hk2.
    + exists [], st. split; [constructor | auto].
Qed.

Lemma rmatch_sound (r : regex) :
  forall st (k : mstate -> option A) a, rmatch r st k = Some a -> Ran r st k a.
Proof.
  induction r as [|p|r1 IH1 r2 IH2|r1 IH1 r2 IH2|r IH|i r IH| | | |p|p];
    intros st k a H; cbn [rmatch] in H.
  - exists [], st. split; [constructor | auto].
  - destruct (rest st) as [|c tl] eqn:Hrest; [discriminate|].
    destruct (p c) eqn:Hp; [|discriminate].
    exists [c], (MState (c :: before st) tl (caps st)).
    split; [now apply M_Cls|]. cbn [rest before app rev]. auto.
  - apply IH1 in H. destruct H as [w1 [st1 [Hw1 [Hr1 [Hb1 H]]]]].
    apply IH2 in H. destruct H as [w2 [st2 [Hw2 [Hr2 [Hb2 H]]]]].
    exists (w1 ++ w2), st2. split; [now constructor|]. split; [|split].
    + now rewrite Hr1, Hr2, app_assoc.
    + now rewrite Hb2, Hb1, rev_app_distr, app_assoc.
    + exact H.
  - destruct (rmatch r1 st k) as [a'|] eqn:E.
    + injection H as ->. apply IH1 in E.
      destruct E as [w [st' [Hw Hrest]]]. exists w, st'.
      split; [now apply M_AltL | exact Hrest].
    + apply IH2 in H. destruct H as [w [st' [Hw Hrest]]]. exists w, st'.
      split; [now apply M_AltR | exact Hrest].
  - now apply (starLoop_sound IH) in H.
  - apply IH in H. destruct H as [w [st' [Hw [Hr [Hb H]]]]].
    exists w, (MState (before st') (rest st')
                 ((i, firstn (length (rest st) - length (rest st')) (rest st))
                    :: caps st')).
    split; [now constructor|]. cbn [rest before]. auto.
  - destruct (xorb (wordBefore st) (wordAfter st)); [|discriminate].
    exists [], st. split; [constructor | auto].
  - destruct (before st); [|discriminate].
    exists [], st. split; [constructor | auto].
  - destruct (rest st); [|discriminate].
    exists [], st. split; [constructor | auto].
  - exists [], st. split; [constructor|]. do 2 (split; [reflexivity|]).
    destruct (before st) as [|c ?]; [exact H|].
    destruct (p c); [discriminate | exact H].
  - exists [], st. split; [constructor|]. do 2 (split; [reflexivity|]).
    destruct (rest st) as [|c ?]; [exact H|].
    destruct (p c); [discriminate | exact H].
Qed.

End Matcher.

Lemma firstn_consumed (w x : jsstring) :
  firstn (length (w ++ x) - length x) (w ++ x) = w.
Proof.
  rewrite length_app.
  replace (length w + length x - length x)%nat with (length w) by lia.
  rewrite firstn_app, Nat.sub_diag, firstn_all. cbn [firstn].
  now rewrite app_nil_r.
Qed.

Lemma rmatch_here (r : regex) (bef s : jsstring) (st : mstate) :
  rmatch r (MState bef s []) (fun st => Some st) = Some st ->
  exists w,
    s = w ++ rest st
    /\ firstn (length s - length (rest st)) s = w
    /\ Matches r w
    /\ before st = rev w ++ bef.
Proof.
  intros E. apply rmatch_sound in E. destruct E as [w [st' [Hw [Hr [Hb Hk]]]]].
  injection Hk as <-. cbn [rest before] in Hr, Hb. exists w.
  subst s. rewrite firstn_consumed. auto.
Qed.

(** A match found by [search] splits the text into what was skipped, a text
    of the language of the pattern, and the rest. *)
Lemma search_sound (r : regex) :
  forall s skipped bef f,
    search r skipped bef s = Some f ->
    exists pre,
      s = pre ++ text f ++ rest (stop f)
      /\ gap f = rev skipped ++ pre
      /\ Matches r (text f)
      /\ before (stop f) = rev (text f) ++ rev pre ++ bef.
Proof.
  assert (Hhere : forall s skipped bef st,
             rmatch r (MState bef s []) (fun st => Some st) = Some st ->
             let f := Found (rev skipped)
                            (firstn (length s - length (rest st)) s)
                            (caps st) st in
             exists pre,
               s = pre ++ text f ++ rest (stop f)
               /\ gap f = rev skipped ++ pre
               /\ Matches r (text f)
               /\ before (stop f) = rev (text f) ++ rev pre ++ bef).
  { intros s skipped bef st E f. subst f. cbn [text gap stop].
    apply rmatch_here in E. destruct E as [w [Hs [-> [Hw Hb]]]].
    exists []. cbn [app rev]. rewrite app_nil_r. auto. }
  induction s as [|c s IH]; intros skipped bef f H; cbn [search] in H.
  - destruct (rmatch r (MState bef [] []) (fun st => Some st)) as [st|] eqn:E;
      [|discriminate].
    injection H as <-. exact (Hhere [] skipped bef st E).
  - destruct (rmatch r (MState bef (c :: s) []) (fun st => Some st))
      as [st|] eqn:E.
    + injection H as <-. exact (Hhere (c :: s) skipped bef st E).
    + apply IH in H. destruct H as [pre [Hs [Hg [Hm Hb]]]].
      exists (c :: pre). cbn [app rev]. rewrite <- Hs.
      split; [reflexivity|]. split; [|split; [exact Hm|]].
      * rewrite Hg. cbn [rev]. now rewrite <- app_assoc.
      * rewrite Hb. now rewrite <- !app_assoc.
Qed.

Lemma exec_sound (r : regex) (s : jsstring) (f : found) :
  exec r s = Some f ->
  s = gap f ++ text f ++ rest (stop f) /\ Matches r (text f).
Proof.
  intros H. apply search_sound in H. destruct H as [pre [Hs [Hg [Hm _]]]].
  cbn [rev app] in Hg. subst pre. auto.
Qed.

(** Every text returned by a global match is in the language of the
    pattern. *)
Lemma scan_sound (r : regex) (fuel : nat) :
  forall bef s, Forall (fun gt => Matches r (snd gt)) (fst (scan fuel r bef s)).
Proof.
  induction fuel as [|fuel IH]; intros bef s; cbn [scan]; [constructor|].
  destruct (search r [] bef s) as [m|] eqn:E; [|constructor].
  apply search_sound in E. destruct E as [pre [Hs [Hg [Hm Hb]]]].
  destruct (text m) as [|c0 w] eqn:Ht.
  - destruct (rest (stop m)) as [|c tl]; [repeat constructor; exact Hm|].
    specialize (IH (c :: before (stop m)) tl).
    destruct (scan fuel r (c :: before (stop m)) tl) as [ms tail].
    cbn [fst] in IH. destruct ms as [|[g t] ms']; cbn [fst].
    + repeat constructor. exact Hm.
    + inversion IH; subst. repeat constructor; auto.
  - specialize (IH (before (stop m)) (rest (stop m))).
    destruct (scan fuel r (before (stop m)) (rest (stop m))) as [ms tail].
    cbn [fst] in *. constructor; auto.
Qed.

Lemma matchAll_sound (r : regex) (s : jsstring) :
  Forall (Matches r) (matchAll r s).
Proof.
  unfold matchAll, scanAll.
  generalize (scan_sound r (S (length s)) [] s).
  generalize (fst (scan (S (length s)) r [] s)).
  induction l as [|gt l IH]; intros H; [constructor|].
  inversion H; subst. constructor; auto.
Qed.

Ltac norm_app :=
  repeat (rewrite <- app_assoc || rewrite <- app_comm_cons
          || rewrite app_nil_r || rewrite app_nil_l).

(** The matches of a global scan and the text between them make up the
    text, in order. *)
Lemma scan_pieces (r : regex) (fuel : nat) :
  forall bef s,
    s = flat_map (fun gt => fst gt ++ snd gt) (fst (scan fuel r bef s))
        ++ snd (scan fuel r bef s).
Proof.
  induction fuel as [|fuel IH]; intros bef s; cbn [scan]; [reflexivity|].
  destruct (search r [] bef s) as [m|] eqn:E; [|reflexivity].
  apply search_sound in E. destruct E as [pre [Hs [Hg _]]].
  cbn [rev app] in Hg.
  destruct (text m) as [|c0 w] eqn:Ht.
  - destruct (rest (stop m)) as [|c tl] eqn:Hr.
    + cbn [fst snd flat_map]. rewrite Hg, Hs. now norm_app.
    + specialize (IH (c :: before (stop m)) tl).
      destruct (scan fuel r (c :: before (stop m)) tl) as [ms tail].
      cbn [fst snd] in IH. rewrite Hs.
      destruct ms as [|[g t] ms']; cbn [fst snd flat_map] in *;
        rewrite Hg; norm_app; do 2 f_equal; revert IH; norm_app; auto.
  - specialize (IH (before (stop m)) (rest (stop m))).
    destruct (scan fuel r (before (stop m)) (rest (stop m))) as [ms tail].
    cbn [fst snd flat_map] in *. rewrite Hg. rewrite Hs at 1.
    norm_app. do 3 f_equal. revert IH. norm_app. auto.
Qed.

Lemma matchAll_pieces (r : regex) (s : jsstring) :
  exists pieces tail,
    matchAll r s = map snd pieces
    /\ s = flat_map (fun gt => fst gt ++ snd gt) pieces ++ tail.
Proof.
  exists (fst (scanAll r s)), (snd (scanAll r s)).
  split; [reflexivity | apply scan_pieces].
Qed.

(** *** The fuel of the loops is enough *)

Section Fuel.

Variable A : Type.

Lemma starLoop_ext (m1 : mstate -> (mstate -> option A) -> option A)
      (Hm1 : forall st k k', (forall st', k st' = k' st') -> m1 st k = m1 st k')
      (k k' : mstate -> option A) (fuel : nat) :
  (forall st, k st = k' st) ->
  forall st, starLoop m1 k fuel st = starLoop m1 k' fuel st.
Proof.
  intros Hk. induction fuel as [|fuel IH]; intros st; cbn [starLoop];
    [apply Hk|].
  rewrite (Hm1 st _ (fun st' =>
             if (length (rest st') <? length (rest st))%nat
             then starLoop m1 k' fuel st' else None)).
  - now rewrite Hk.
  - intros st'. now rewrite IH.
Qed.

Lemma rmatch_ext (r : regex) :
  forall st (k k' : mstate -> option A),
    (forall st', k st' = k' st') -> rmatch r st k = rmatch r st k'.
Proof.
  induction r as [|p|r1 IH1 r2 IH2|r1 IH1 r2 IH2|r IH|i r IH| | | |p|p];
    intros st k k' Hk; cbn [rmatch].
  - apply Hk.
  - destruct (rest st) as [|c tl]; [reflexivity|].
    destruct (p c); [apply Hk | reflexivity].
  - apply IH1. intros st'. now apply IH2.
  - now rewrite (IH1 st k k' Hk), (IH2 st k k' Hk).
  - now apply starLoop_ext.
  - apply IH. intros st'. apply Hk.
  - destruct (xorb (wordBefore st) (wordAfter st)); [apply Hk | reflexivity].
  - destruct (before st); [apply Hk | reflexivity].
  - destruct (rest st); [apply Hk | reflexivity].
  - destruct (before st) as [|c ?]; [apply Hk|].
    destruct (p c); [reflexivity | apply Hk].
  - destruct (rest st) as [|c ?]; [apply Hk|].
    destruct (p c); [reflexivity | apply Hk].
Qed.

Lemma starLoop_fail (m1 : mstate -> (mstate -> option A) -> option A)
      (Hm1 : forall st k, (forall st', k st' = None) -> m1 st k = None)
      (k : mstate -> option A) (fuel : nat) :
  (forall st, k st = None) -> forall st, starLoop m1 k fuel st = None.
Proof.
  intros Hk. induction fuel as [|fuel IH]; intros st; cbn [starLoop];
    [apply Hk|].
  rewrite Hm1; [apply Hk|].
  intros st'. destruct (length (rest st') <? length (rest st))%nat;
    [apply IH | reflexivity].
Qed.

Lemma rmatch_fail (r : regex) :
  forall st (k : mstate -> option A),
    (forall st', k st' = None) -> rmatch r st k = None.
Proof.
  induction r as [|p|r1 IH1 r2 IH2|r1 IH1 r2 IH2|r IH|i r IH| | | |p|p];
    intros st k Hk; cbn [rmatch].
  - apply Hk.
  - destruct (rest st) as [|c tl]; [reflexivity|].
    destruct (p c); [apply Hk | reflexivity].
  - apply IH1. intros st'. now apply IH2.
  - now rewrite (IH1 st k Hk), (IH2 st k Hk).
  - now apply starLoop_fail.
  - apply IH. intros st'. apply Hk.
  - destruct (xorb (wordBefore st) (wordAfter st)); [apply Hk | reflexivity].
  - destruct (before st); [apply Hk | reflexivity].
  - destruct (rest st); [apply Hk | reflexivity].
  - destruct (before st) as [|c ?]; [apply Hk|].
    destruct (p c); [reflexivity | apply Hk].
  - destruct (rest st) as [|c ?]; [apply Hk|].
    destruct (p c); [reflexivity | apply Hk].
Qed.

(** More fuel than the length of the text left does not change the result
    of a [r*] loop: every iteration consumes at least one code unit. *)
Lemma starLoop_fuel (r : regex) (k : mstate -> option A) :
  forall n m st,
    (length (rest st) <= n)%nat -> (length (rest st) <= m)%nat ->
    starLoop (rmatch r) k n st = starLoop (rmatch r) k m st.
Proof.
  assert (Hzero : forall m st,
             length (rest st) = 0%nat ->
             starLoop (rmatch r) k m st = k st).
  { intros [|m] st Hst; cbn [starLoop]; [reflexivity|].
    rewrite rmatch_fail; [reflexivity|].
    intros st'. rewrite Hst.
    now destruct (Nat.ltb_spec (length (rest st')) 0); [lia|]. }
  induction n as [|n IH]; intros m st Hn Hm.
  - rewrite (Hzero m st) by lia. reflexivity.
  - destruct m as [|m]; [rewrite (Hzero (S n) st) by lia; reflexivity|].
    cbn [starLoop].
    rewrite (rmatch_ext r st _ (fun st' =>
               if (length (rest st') <? length (rest st))%nat
               then starLoop (rmatch r) k m st' else None)); [reflexivity|].
    intros st'.
    destruct (Nat.ltb_spec (length (rest st')) (length (rest st)));
      [|reflexivity].
    apply IH; lia.
Qed.

End Fuel.

Lemma search_rest_shorter (r : regex) (s bef : jsstring) (m : found) :
  search r [] bef s = Some m ->
  (length (rest (stop m)) + length (text m) <= length s)%nat.
Proof.
  intros H. apply search_sound in H. destruct H as [pre [-> _]].
  rewrite !length_app. lia.
Qed.

(** More fuel than the length of the text does not change the result of a
    global scan: every round moves on by at least one code unit. *)
Lemma scan_fuel (r : regex) :
  forall n m bef s,
    (length s < n)%nat -> (length s < m)%nat ->
    scan n r bef s = scan m r bef s.
Proof.
  induction n as [|n IH]; intros m bef s Hn Hm; [lia|].
  destruct m as [|m]; [lia|]. cbn [scan].
  destruct (search r [] bef s) as [f|] eqn:E; [|reflexivity].
  apply search_rest_shorter in E.
  destruct (text f) as [|c0 w]; cbn [length] in E.
  - destruct (rest (stop f)) as [|c tl]; [reflexivity|]. cbn [length] in E.
    rewrite (IH m (c :: before (stop f)) tl) by lia. reflexivity.
  - rewrite (IH m (before (stop f)) (rest (stop f))) by lia. reflexivity.
Qed.

Lemma starLoop_S (A : Type)
      (m1 : mstate -> (mstate -> option A) -> option A)
      (k : mstate -> option A) (fuel : nat) (st : mstate) :
  starLoop m1 k (S fuel) st
  = match m1 st (fun st' =>
             if (length (rest st') <? length (rest st))%nat
             then starLoop m1 k fuel st' else None) with
    | Some a => Some a
    | None => k st
    end.
Proof. reflexivity. Qed.

(** *** The leftmost match *)

Lemma search_eq (r : regex) (skipped bef s : jsstring) :
  search r skipped bef s
  = match rmatch r (MState bef s []) (fun st => Some st) with
    | Some st =>
        Some (Found (rev skipped) (firstn (length s - length (rest st)) s)
                    (caps st) st)
    | None =>
        match s with
        | [] => None
        | c :: tl => search r (c :: skipped) (c :: bef) tl
        end
    end.
Proof. destruct s; reflexivity. Qed.

(** A position at which the pattern matches is not passed over. *)
Lemma search_hit (r : regex) (pre x : jsstring) :
  forall skipped bef,
    rmatch r (MState (rev pre ++ bef) x []) (fun st => Some st) <> None ->
    search r skipped bef (pre ++ x) <> None.
Proof.
  induction pre as [|c pre IH]; intros skipped bef H; rewrite search_eq.
  - cbn [rev app] in *.
    destruct (rmatch r (MState bef x []) (fun st => Some st));
      [discriminate | now elim H].
  - cbn [app].
    destruct (rmatch r (MState bef (c :: pre ++ x) []) (fun st => Some st));
      [discriminate|].
    apply IH. cbn [rev] in H. now rewrite <- app_assoc in H.
Qed.

(** *** Completeness *)

(** Patterns that consume text only: no assertion in them. *)
Fixpoint assertionFree (r : regex) : bool :=
  match r with
  | Eps | Cls _ => true
  | Cat r1 r2 | Alt r1 r2 => assertionFree r1 && assertionFree r2
  | Star r1 | Grp _ r1 => assertionFree r1
  | WordB | Bos | Eos | NotBehind _ | NotAhead _ => false
  end.

Lemma starLoop_none (A : Type)
      (m1 : mstate -> (mstate -> option A) -> option A)
      (k : mstate -> option A) (fuel : nat) (st : mstate) :
  starLoop m1 k fuel st = None -> k st = None.
Proof.
  destruct fuel as [|fuel]; cbn [starLoop]; [auto|].
  now destruct (m1 st _).
Qed.

(** The matcher is complete for these patterns: where a text of the
    language stands and the continuation accepts what follows it, whatever
    was captured, the matcher does not fail. *)
Lemma rmatch_complete (A : Type) (r : regex) (w : jsstring) :
  Matches r w -> assertionFree r = true ->
  forall bef post cps (k : mstate -> option A),
    (forall cps', k (MState (rev w ++ bef) post cps') <> None) ->
    rmatch r (MState bef (w ++ post) cps) k <> None.
Proof.
  induction 1 as [|p c Hp|r1 r2 w1 w2 _ IH1 _ IH2|r1 r2 w _ IH|r1 r2 w _ IH
                 |r|r w1 w2 _ IH1 _ IH2|i r w _ IH| | | |p|p];
    intros Hfree bef post cps k Hk; cbn [assertionFree] in Hfree;
    try discriminate.
  - apply Hk.
  - cbn [rmatch rest app before caps]. rewrite Hp. apply Hk.
  - apply andb_true_iff in Hfree. destruct Hfree as [F1 F2].
    cbn [rmatch]. rewrite <- app_assoc. apply (IH1 F1). intros cps1.
    apply (IH2 F2). intros cps2.
    rewrite app_assoc, <- rev_app_distr. apply Hk.
  - apply andb_true_iff in Hfree. destruct Hfree as [F1 F2].
    cbn [rmatch].
    destruct (rmatch r1 (MState bef (w ++ post) cps) k) eqn:E;
      [discriminate|].
    exfalso. revert E. now apply IH.
  - apply andb_true_iff in Hfree. destruct Hfree as [F1 F2].
    cbn [rmatch].
    destruct (rmatch r1 (MState bef (w ++ post) cps) k);
      [discriminate | now apply IH].
  - cbn [rmatch app]. intros E. apply starLoop_none in E.
    now apply (Hk cps).
  - destruct w1 as [|c w1]; [now apply IH2|].
    cbn [rmatch rest app length]. rewrite starLoop_S.
    match goal with
    | |- match ?m with Some _ => _ | None => _ end <> None =>
        destruct m eqn:E; [discriminate|]
    end.
    exfalso. revert E.
    change (c :: (w1 ++ w2) ++ post) with (((c :: w1) ++ w2) ++ post).
    rewrite <- app_assoc. apply (IH1 Hfree). intros cps1.
    cbn [rest].
    replace (length (w2 ++ post) <? length ((c :: w1) ++ w2 ++ post))%nat
      with true
      by (symmetry; apply Nat.ltb_lt; cbn [app length];
          rewrite !length_app; lia).
    rewrite (starLoop_fuel r k (n := length ((w1 ++ w2) ++ post))
               (m := length (w2 ++ post)));
      [|cbn [rest]; rewrite !length_app; lia | cbn [rest]; lia].
    apply (IH2 Hfree). intros cps2.
    rewrite app_assoc, <- rev_app_distr. apply Hk.
  - cbn [rmatch]. apply (IH Hfree). intros cps1. cbn [before rest]. apply Hk.
Qed.

Lemma rmatch_occurrence (r : regex) (bef w post : jsstring) :
  assertionFree r = true -> Matches r w ->
  rmatch r (MState bef (w ++ post) []) (fun st => Some st) <> None.
Proof.
  intros Hfree Hw. apply (rmatch_complete Hw Hfree). discriminate.
Qed.

(** ** The SQL builder *)

Section Builder.

Variable db : Table.

Ltac literal := apply Literal_esc; discriminate.

(** C1. Every place or category literal that [buildSQL] writes into a
    statement is the escaped form of the value, each embedded quote doubled:
    at district level the state and the district, at state level the state
    and, for a LIST with a category, the category.  The store reads each
    literal back as exactly the value and goes on with the text of the
    template, so no quote of a value closes its literal. *)
Theorem buildSQL_literals_escaped (p : Parsed) :
  match level (place p) with
  | LDistrict =>
      exists pre q1 q2 post,
        buildSQL db p = pre ++ js "state='" ++ q1
        /\ Literal (state (place p)) q1 (js " AND district='" ++ q2)
        /\ Literal (district (place p)) q2 (js " " ++ post)
        /\ QuotesDoubled (esc (state (place p)))
        /\ QuotesDoubled (esc (district (place p)))
  | LState =>
      exists pre q1 post,
        buildSQL db p = pre ++ js "state='" ++ q1
        /\ Literal (state (place p)) q1 (js " " ++ post)
        /\ QuotesDoubled (esc (state (place p)))
        /\ (JsString.eqb (intent p) (js "LIST") = true ->
            forall c, nonEmpty (category p) = Some c ->
            exists q2 post',
              post = js "AND category='" ++ q2
              /\ Literal (Some c) q2 (js " " ++ post')
              /\ QuotesDoubled (esc (Some c)))
  | _ => True
  end.
Proof.
  unfold buildSQL. destruct (level (place p)); try exact I.
  - destruct (JsString.eqb (intent p) (js "LIST")).
    + exists (js "SELECT state, district, year, extractable_mcm, extraction_mcm, stage_pct, category"
              ++ nl ++ indent 14 ++ js "FROM gw_assessment_core WHERE ").
      eexists; eexists; split; [|split; [|split]].
      * repeat rewrite <- app_assoc.
        change (js "'" ++ ?x) with (quote :: x). reflexivity.
      * literal.
      * apply esc_QuotesDoubled.
      * intros _ c Hc. rewrite Hc.
        eexists; eexists; split; [|split].
        -- repeat rewrite <- app_assoc.
           change (js "'" ++ ?x) with (quote :: x). reflexivity.
        -- literal.
        -- apply esc_QuotesDoubled.
    + exists (js "SELECT state, district, year, stage_pct, category"
              ++ nl ++ indent 12 ++ js "FROM gw_assessment_core WHERE ").
      eexists; eexists; split; [|split; [|split]].
      * repeat rewrite <- app_assoc.
        change (js "'" ++ ?x) with (quote :: x). reflexivity.
      * literal.
      * apply esc_QuotesDoubled.
      * discriminate.
  - exists (js "SELECT year, recharge_mcm, extractable_mcm, extraction_mcm, stage_pct, category"
            ++ nl ++ indent 12 ++ js "FROM gw_assessment_core WHERE ").
    eexists; eexists; eexists; split; [|split; [|split; [|split]]].
    + repeat rewrite <- app_assoc.
      change (js "' AND district='" ++ ?x)
        with (quote :: js " AND district='" ++ x).
      reflexivity.
    + change (js "'" ++ ?x) with (quote :: x). literal.
    + literal.
    + apply esc_QuotesDoubled.
    + apply esc_QuotesDoubled.
Qed.


Lemma maxYear_none (t : Table) : maxYear t = None -> t = [].
Proof.
  destruct t as [|r t]; [reflexivity|].
  simpl. destruct (maxYear t); discriminate.
Qed.

Lemma maxYear_upper (t : Table) (m : Z) :
  maxYear t = Some m -> forall r, In r t -> (r_year r <= m)%Z.
Proof.
  revert m; induction t as [|r0 t IH]; intros m Hm r Hr; [easy|].
  simpl in Hm. destruct (maxYear t) as [m'|] eqn:E.
  - injection Hm as <-. destruct Hr as [->|Hr]; [lia|].
    specialize (IH m' eq_refl r Hr). lia.
  - injection Hm as <-. destruct Hr as [->|Hr]; [lia|].
    apply maxYear_none in E. subst t. easy.
Qed.

Lemma maxYear_attained (t : Table) (m : Z) :
  maxYear t = Some m -> exists r, In r t /\ r_year r = m.
Proof.
  revert m; induction t as [|r0 t IH]; intros m Hm; [discriminate|].
  simpl in Hm. destruct (maxYear t) as [m'|] eqn:E.
  - injection Hm as <-. destruct (IH m' eq_refl) as [r [Hr Hy]].
    destruct (Z.max_spec (r_year r0) m') as [[_ ->]|[_ ->]].
    + exists r; simpl; auto.
    + exists r0; simpl; auto.
  - injection Hm as <-. exists r0; simpl; auto.
Qed.

Lemma latestYearForState_scope (p : Parsed) :
  latestYearForState db (state (place p)) = maxYear (scopeRows db p).
Proof.
  unfold latestYearForState, scopeRows.
  now destruct (nonEmpty (state (place p))).
Qed.

(** The year clause of a district or state statement is [byYear], one
    blank after the place and category filters; a district statement ends
    in [ORDER BY year]. *)
Lemma buildSQL_byYear (p : Parsed) :
  level (place p) = LDistrict \/ level (place p) = LState ->
  exists pre post,
    buildSQL db p = pre ++ js " " ++ byYear db p ++ post
    /\ (level (place p) = LDistrict -> post = js " ORDER BY year;").
Proof.
  unfold buildSQL. intros [Hl|Hl]; rewrite Hl.
  - exists (js "SELECT year, recharge_mcm, extractable_mcm, extraction_mcm, stage_pct, category"
            ++ nl ++ indent 12 ++ js "FROM gw_assessment_core WHERE "
            ++ (js "state='" ++ esc (state (place p))
                ++ js "' AND district='" ++ esc (district (place p))
                ++ js "'")).
    exists (js " ORDER BY year;").
    split; [|reflexivity].
    repeat rewrite <- app_assoc. reflexivity.
  - destruct (JsString.eqb (intent p) (js "LIST")).
    + exists (js "SELECT state, district, year, extractable_mcm, extraction_mcm, stage_pct, category"
              ++ nl ++ indent 14 ++ js "FROM gw_assessment_core WHERE "
              ++ (js "state='" ++ esc (state (place p)) ++ js "'") ++ js " "
              ++ match nonEmpty (category p) with
                 | Some c => js "AND category='" ++ esc (Some c) ++ js "'"
                 | None => []
                 end).
      exists (nl ++ indent 14 ++ js "ORDER BY stage_pct DESC LIMIT 500;").
      split; [|discriminate].
      repeat rewrite <- app_assoc. reflexivity.
    + exists (js "SELECT state, district, year, stage_pct, category"
              ++ nl ++ indent 12 ++ js "FROM gw_assessment_core WHERE "
              ++ (js "state='" ++ esc (state (place p)) ++ js "'")).
      exists (nl ++ indent 12 ++ js "ORDER BY stage_pct DESC LIMIT 500;").
      split; [|discriminate].
      repeat rewrite <- app_assoc. reflexivity.
Qed.

(** C6, as the code has it.  At district and at state level the statement
    carries one year clause: [year BETWEEN y1 AND y2] when both bounds are
    given, else [year = L] with [L] the greatest year of any row of the
    place's state (of the whole table when no state is named), and the
    sub-select of the overall maximum when there is no such row.  A district
    statement ends in [ORDER BY year].  At any other level the bounds are
    not used: the statement selects the single latest year of the table. *)
Theorem buildSQL_year_scope (p : Parsed) :
  match level (place p) with
  | LDistrict | LState =>
      exists pre clause post,
        buildSQL db p = pre ++ js " " ++ clause ++ post
        /\ (if truthy (y1 (years p)) && truthy (y2 (years p))
            then clause = js "AND year BETWEEN " ++ toString (y1 (years p))
                          ++ js " AND " ++ toString (y2 (years p))
            else match maxYear (scopeRows db p) with
                 | Some l =>
                     clause = js "AND year = " ++ ofZ l
                     /\ (exists r, In r (scopeRows db p) /\ r_year r = l)
                     /\ (forall r, In r (scopeRows db p) -> (r_year r <= l)%Z)
                 | None =>
                     clause = js "AND year = " ++ selectMax
                     /\ scopeRows db p = []
                 end)
        /\ (level (place p) = LDistrict -> post = js " ORDER BY year;")
  | _ =>
      buildSQL db p
      = js "SELECT state, district, year, stage_pct, category"
        ++ nl ++ indent 10 ++ js "FROM gw_assessment_core WHERE year="
        ++ showYear (maxYear db) ++ js " ORDER BY stage_pct DESC LIMIT 50;"
  end.
Proof.
  assert (Hclause :
    if truthy (y1 (years p)) && truthy (y2 (years p))
    then byYear db p = js "AND year BETWEEN " ++ toString (y1 (years p))
                       ++ js " AND " ++ toString (y2 (years p))
    else match maxYear (scopeRows db p) with
         | Some l =>
             byYear db p = js "AND year = " ++ ofZ l
             /\ (exists r, In r (scopeRows db p) /\ r_year r = l)
             /\ (forall r, In r (scopeRows db p) -> (r_year r <= l)%Z)
         | None =>
             byYear db p = js "AND year = " ++ selectMax
             /\ scopeRows db p = []
         end).
  { unfold byYear. rewrite latestYearForState_scope.
    destruct (truthy (y1 (years p)) && truthy (y2 (years p))); [reflexivity|].
    destruct (maxYear (scopeRows db p)) as [l|] eqn:E.
    - split; [reflexivity|]. split.
      + now apply maxYear_attained.
      + now apply maxYear_upper.
    - split; [reflexivity | now apply maxYear_none]. }
  destruct (level (place p)) eqn:Hl; try (unfold buildSQL; rewrite Hl; reflexivity).
  - destruct (buildSQL_byYear p) as [pre [post [E Hpost]]]; [now right|].
    exists pre, (byYear db p), post. rewrite Hl in Hpost. auto.
  - destruct (buildSQL_byYear p) as [pre [post [E Hpost]]]; [now left|].
    exists pre, (byYear db p), post. rewrite Hl in Hpost. auto.
Qed.

(** C10. The year bounds go into the statement as they are: whatever the
    two values, provided both are truthy, a district or state statement
    contains their string forms unchanged and unescaped; a string is its own
    string form.  [geminiParse] hands on the [years] object of the service
    untouched. *)
Theorem years_interpolated_verbatim (p : Parsed) :
  truthy (y1 (years p)) = true ->
  truthy (y2 (years p)) = true ->
  level (place p) = LDistrict \/ level (place p) = LState ->
  (exists pre post,
     buildSQL db p
     = pre ++ js "AND year BETWEEN " ++ toString (y1 (years p)) ++ js " AND "
       ++ toString (y2 (years p)) ++ post)
  /\ (forall s, toString (JStr s) = s)
  /\ (forall out ys, j_years out = Some ys ->
      option_map years (geminiParse (Json out)) = Some ys).
Proof.
  intros H1 H2 Hl. split; [|split].
  - destruct (buildSQL_byYear p Hl) as [pre [post [E _]]].
    exists (pre ++ js " "), post. rewrite E. unfold byYear.
    rewrite H1, H2. cbn [andb]. repeat rewrite <- app_assoc. reflexivity.
  - reflexivity.
  - intros out ys Hys. cbn. now rewrite Hys.
Qed.

End Builder.

(** C6 fails as stated at the national level: with both bounds given, the
    statement built for an unresolved place selects the latest year of the
    table and has no range.  Nor is "latest" that of the place itself at
    district level: Mehsana has no row after 2020, yet its statement asks
    for 2022, the latest year of Gujarat. *)
Lemma buildSQL_national_ignores_range :
  truthy (y1 (years nationalRange)) && truthy (y2 (years nationalRange)) = true
  /\ buildSQL sampleDb nationalRange
     = js "SELECT state, district, year, stage_pct, category" ++ nl ++ indent 10
       ++ js "FROM gw_assessment_core WHERE year=2022 ORDER BY stage_pct DESC LIMIT 50;"
  /\ includes (buildSQL sampleDb nationalRange) (js "BETWEEN") = false
  /\ maxYear (whereStateDistrict (js "Gujarat") (js "Mehsana") sampleDb)
     = Some 2020%Z
  /\ includes (buildSQL sampleDb mehsanaLatest) (js "AND year = 2022") = true.
Proof. repeat split; vm_compute; reflexivity. Qed.

Lemma years_interpolated_verbatim_witness :
  exists pre post,
    buildSQL sampleDb mehsanaRange
    = pre ++ js "AND year BETWEEN " ++ js "2019" ++ js " AND " ++ js "2020"
      ++ post.
Proof.
  destruct (@years_interpolated_verbatim sampleDb mehsanaRange)
    as [[pre [post E]] _];
    [reflexivity | reflexivity | left; reflexivity |].
  exists pre, post. exact E.
Defined.

(** A quote inside a year bound reaches the statement as it is, not
    doubled. *)
Lemma year_quote_not_escaped :
  let bound := js "0' OR '1'='1" in
  let p := mkParsed (js "DATA") (mkYears (JStr bound) (JNum 2020))
                    (statePlace (js "Gujarat")) None (js "gemini") in
  includes (buildSQL sampleDb p)
           (js "AND year BETWEEN 0' OR '1'='1 AND 2020") = true
  /\ ~ QuotesDoubled bound.
Proof.
  split; [vm_compute; reflexivity|].
  intros H. cbv zeta in H. vm_compute in H.
  inversion H as [| |c s Hc Hs]; subst.
  inversion Hs as [| |c s Hc' Hs']; subst.
  now apply Hc'.
Qed.

(** ** Place resolution *)

Section Place.

Variable newRegExp : jsstring -> option (jsstring -> bool).
Variable distinctDistricts : list (jsstring * jsstring).
Variable distinctStates : list jsstring.

Local Abbreviation resolvePlaceSmart' :=
  (resolvePlaceSmart newRegExp distinctDistricts distinctStates).

Section Longest.

Variable A : Type.
Variable name : A -> jsstring.
Variable text : jsstring.

Let fires (r : A) : bool := containsName text (name r).

(** What the loop holds after the elements [seen]. *)
Definition Best (best : option A) (seen : list A) : Prop :=
  match best with
  | Some b =>
      In b seen /\ fires b = true
      /\ forall r, In r seen -> fires r = true ->
                   (length (name r) <= length (name b))%nat
  | None => forall r, In r seen -> fires r = false
  end.

Lemma Best_step (best : option A) (seen : list A) (r : A) :
  Best best seen ->
  Best (if fires r then
          match best with
          | None => Some r
          | Some b =>
              if (length (name b) <? length (name r))%nat then Some r else best
          end
        else best) (seen ++ [r]).
Proof.
  intros HB. destruct (fires r) eqn:Hr.
  - destruct best as [b|].
    + destruct HB as [Hin [Hb Hmax]].
      destruct (Nat.ltb_spec (length (name b)) (length (name r))) as [Hlt|Hge].
      * split; [apply in_or_app; right; now left|]. split; [exact Hr|].
        intros r' Hr' Hf. apply in_app_or in Hr'. destruct Hr' as [Hr'|[<-|[]]].
        -- specialize (Hmax r' Hr' Hf). lia.
        -- lia.
      * split; [apply in_or_app; now left|]. split; [exact Hb|].
        intros r' Hr' Hf. apply in_app_or in Hr'. destruct Hr' as [Hr'|[<-|[]]].
        -- now apply Hmax.
        -- exact Hge.
    + split; [apply in_or_app; right; now left|]. split; [exact Hr|].
      intros r' Hr' Hf. apply in_app_or in Hr'. destruct Hr' as [Hr'|[<-|[]]].
      * rewrite (HB r' Hr') in Hf. discriminate.
      * lia.
  - destruct best as [b|].
    + destruct HB as [Hin [Hb Hmax]].
      split; [apply in_or_app; now left|]. split; [exact Hb|].
      intros r' Hr' Hf. apply in_app_or in Hr'. destruct Hr' as [Hr'|[<-|[]]].
      * now apply Hmax.
      * rewrite Hr in Hf. discriminate.
    + intros r' Hr'. apply in_app_or in Hr'. destruct Hr' as [Hr'|[<-|[]]].
      * now apply HB.
      * exact Hr.
Qed.

Lemma longest_from (l seen : list A) (best : option A) :
  Best best seen ->
  Best (fold_left (fun best r =>
                     if containsName text (name r) then
                       match best with
                       | None => Some r
                       | Some b =>
                           if (length (name b) <? length (name r))%nat
                           then Some r else best
                       end
                     else best) l best) (seen ++ l).
Proof.
  revert seen best. induction l as [|r l IH]; intros seen best HB.
  - now rewrite app_nil_r.
  - cbn [fold_left].
    replace (seen ++ r :: l) with ((seen ++ [r]) ++ l)
      by (now rewrite <- app_assoc).
    apply IH. now apply Best_step.
Qed.

Lemma longest_Best (l : list A) : Best (longest name text l) l.
Proof. apply (longest_from l [] None). intros r []. Qed.

End Longest.

(** The last loop returns a state of the list or no place. *)
Lemma lastResort_cases (textNoSpace : jsstring) (l : list jsstring)
      (pl : Place) :
  lastResort newRegExp textNoSpace l = Some pl ->
  (exists s, In s l /\ pl = statePlace s) \/ pl = unknownPlace.
Proof.
  induction l as [|s l IH]; cbn [lastResort].
  - intros [= <-]. now right.
  - destruct (noSpaceTest newRegExp s) as [matches|]; [|discriminate].
    destruct (matches textNoSpace).
    + intros [= <-]. left. exists s. split; [now left | reflexivity].
    + intros H. destruct (IH H) as [[s' [Hs' ->]]| ->]; [left | now right].
      exists s'. split; [now right | reflexivity].
Qed.

(** The last loop comes to its end only when an expression could be made
    of every state. *)
Lemma lastResort_unknown (textNoSpace : jsstring) (l : list jsstring) :
  lastResort newRegExp textNoSpace l = Some unknownPlace ->
  forall s, In s l -> noSpaceTest newRegExp s <> None.
Proof.
  induction l as [|s l IH]; cbn [lastResort]; [intros _ s []|].
  destruct (noSpaceTest newRegExp s) as [matches|] eqn:E; [|discriminate].
  destruct (matches textNoSpace); [discriminate|].
  intros H s' [<-|Hs']; [now rewrite E | now apply IH].
Qed.

Lemma lastResort_level (textNoSpace : jsstring) (l : list jsstring)
      (pl : Place) :
  lastResort newRegExp textNoSpace l = Some pl ->
  level pl = LState \/ level pl = LUnknown.
Proof.
  intros H. destruct (lastResort_cases _ _ H) as [[s [_ ->]]| ->];
    [now left | now right].
Qed.

(** What the resolver returns is a state, a district with its state, or
    no place. *)
Lemma resolvePlaceSmart_shape (question : jsstring) (pl : Place) :
  resolvePlaceSmart' question = Some pl ->
  (exists st, pl = statePlace st)
  \/ (exists st d, pl = districtPlace st d)
  \/ pl = unknownPlace.
Proof.
  unfold resolvePlaceSmart.
  destruct (synonymOf _) as [st|]; [intros [= <-]; left; now exists st|].
  destruct (longest snd _ _) as [b|];
    [intros [= <-]; right; left; now exists (fst b), (snd b)|].
  destruct (longest (fun s => s) _ _) as [s|];
    [intros [= <-]; left; now exists s|].
  intros H. apply lastResort_cases in H.
  destruct H as [[s [_ ->]]| ->]; [left; now exists s | now right; right].
Qed.

Lemma resolvePlaceSmart_unknown (question : jsstring) :
  resolvePlaceSmart' question = Some unknownPlace ->
  forall s, In s distinctStates -> noSpaceTest newRegExp s <> None.
Proof.
  unfold resolvePlaceSmart.
  destruct (synonymOf _); [discriminate|].
  destruct (longest snd _ _); [discriminate|].
  destruct (longest (fun s => s) _ _); [discriminate|].
  apply lastResort_unknown.
Qed.

(** C2, as the code has it.  The synonym table comes first: when one of its
    abbreviations stands in the text as a whole word, the place is that
    state, whatever districts the text names.  Otherwise districts are tried
    before state names, and of all known districts (the rows that the store
    returns for the DISTINCT query, in whatever order) whose matcher fires
    the one resolved has a name at least as long as any other; states are
    considered only when no district matcher fires, and the place returned
    then, if the resolver returns, is no district. *)
Theorem resolvePlaceSmart_order (question : jsstring) :
  let text := collapseWs question in
  let ds := distinctDistricts in
  match synonymOf text with
  | Some st => resolvePlaceSmart' question = Some (statePlace st)
  | None =>
      (exists b,
         In b ds /\ containsName text (snd b) = true
         /\ resolvePlaceSmart' question = Some (districtPlace (fst b) (snd b))
         /\ forall r, In r ds -> containsName text (snd r) = true ->
                      (length (snd r) <= length (snd b))%nat)
      \/ ((forall r, In r ds -> containsName text (snd r) = false)
          /\ match resolvePlaceSmart' question with
             | Some pl => level pl <> LDistrict
             | None => True
             end)
  end.
Proof.
  intros text ds. unfold resolvePlaceSmart. fold text.
  destruct (synonymOf text) as [st|]; [reflexivity|].
  fold ds. generalize (longest_Best snd text ds).
  destruct (longest snd text ds) as [b|]; cbn [Best].
  - intros [Hin [Hb Hmax]]. left. exists b. auto.
  - intros Hnone. right. split; [exact Hnone|].
    destruct (longest (fun s => s) text distinctStates); [discriminate|].
    destruct (lastResort newRegExp _ distinctStates) as [pl|] eqn:E; [|exact I].
    apply lastResort_level in E. destruct E as [-> | ->]; discriminate.
Qed.

(** With no synonym in the text, the place is never a district with a
    shorter name than a known district whose matcher fires: when the
    matcher of "Pune Rural" fires, the district resolved is not "Pune". *)
Lemma resolve_not_shorter (question : jsstring) (s d : jsstring) :
  let text := collapseWs question in
  synonymOf text = None ->
  In (s, d) distinctDistricts ->
  containsName text d = true ->
  exists b,
    resolvePlaceSmart' question = Some (districtPlace (fst b) (snd b))
    /\ (length d <= length (snd b))%nat.
Proof.
  intros text Hsyn Hin Hd. unfold resolvePlaceSmart. fold text.
  rewrite Hsyn. generalize (longest_Best snd text distinctDistricts).
  destruct (longest snd text distinctDistricts) as [b|]; cbn [Best].
  - intros [_ [_ Hmax]]. exists b. split; [reflexivity|].
    exact (Hmax (s, d) Hin Hd).
  - intros Hnone. specialize (Hnone (s, d) Hin). cbn [snd] in Hnone.
    rewrite Hd in Hnone. discriminate.
Qed.

End Place.

(** The test case of the specification: with "Pune" and "Pune Rural" both
    known, a question that mentions Pune Rural, and no abbreviation of the
    synonym table, resolves to the district Pune Rural. *)
Lemma resolve_pune_rural :
  resolvePlaceSmart syntaxError sampleDistricts sampleStates
                    (js "groundwater level in Pune Rural")
  = Some (districtPlace (js "Maharashtra") (js "Pune Rural"))
  /\ containsName (js "groundwater level in Pune Rural") (js "Pune") = true.
Proof. split; vm_compute; reflexivity. Qed.

(** C2 fails as stated: the word "up" is an abbreviation of the synonym
    table, so this question, which mentions Pune Rural and on which the
    matcher of the district Pune Rural fires, resolves to a state. *)
Lemma resolve_synonym_before_district :
  let question := js "groundwater in Pune Rural up to 2020" in
  In (js "Maharashtra", js "Pune Rural") sampleDistricts
  /\ containsName (collapseWs question) (js "Pune Rural") = true
  /\ resolvePlaceSmart syntaxError sampleDistricts sampleStates question
     = Some (statePlace (js "UTTAR PRADESH")).
Proof.
  repeat split; [vm_compute; tauto | vm_compute; reflexivity ..].
Qed.

(** ** Category *)

Lemma lookup_numberWords_range (k : jsstring) (n : Z) :
  lookup k numberWords = Some n -> (1 <= n <= 10)%Z.
Proof.
  unfold numberWords. cbn [lookup].
  repeat match goal with
         | |- context [if ?b then _ else _] => destruct b
         end;
    intros H; try discriminate; injection H as <-; lia.
Qed.

Section Keywords.

Variable toLowerCase : jsstring -> jsstring.

(** The first tier of the category extractor wins over all others: a
    question whose lower-cased text contains an over-exploited trigger is
    "Over-Exploited", whatever else it contains. *)
Lemma extractCategory_over_exploited (question : jsstring) :
  let s := toLowerCase question in
  includes s (js "over-exploited") || includes s (js "overexploited")
  || includes s hi_ati = true ->
  extractCategory toLowerCase question = Some (js "Over-Exploited").
Proof. intros s H. unfold extractCategory. fold s. now rewrite H. Qed.

(** The tiers are tried in the order of the source and the first that fires
    decides; when none fires there is no category. *)
Lemma extractCategory_tiers (question : jsstring) :
  let s := toLowerCase question in
  let t1 := includes s (js "over-exploited") || includes s (js "overexploited")
            || includes s hi_ati in
  let t2 := includes s (js "critical") || includes s hi_gambhir in
  let t3 := includes s (js "semi") || includes s hi_ardh in
  let t4 := includes s (js "safe") || includes s hi_surakshit in
  (t1 = true -> extractCategory toLowerCase question = Some (js "Over-Exploited"))
  /\ (t1 = false -> t2 = true ->
      extractCategory toLowerCase question = Some (js "Critical"))
  /\ (t1 = false -> t2 = false -> t3 = true ->
      extractCategory toLowerCase question = Some (js "Semi-Critical"))
  /\ (t1 = false -> t2 = false -> t3 = false -> t4 = true ->
      extractCategory toLowerCase question = Some (js "Safe"))
  /\ (t1 = false -> t2 = false -> t3 = false -> t4 = false ->
      extractCategory toLowerCase question = None).
Proof.
  intros s t1 t2 t3 t4. unfold extractCategory. fold s. fold t1 t2 t3 t4.
  repeat split; intros; repeat match goal with H : _ = _ |- _ => rewrite H end;
    reflexivity.
Qed.

Hypothesis lc_ascii : AsciiLowering toLowerCase.

(** C3, the failing input.  "semi-critical" contains the trigger "critical"
    of the second tier, which is tried before the third: the question asks
    for semi-critical districts and is given the category "Critical". *)
Theorem extractCategory_semi_critical :
  extractCategory toLowerCase (js "list semi-critical districts in Punjab")
  = Some (js "Critical").
Proof.
  unfold extractCategory. rewrite lc_ascii by reflexivity. reflexivity.
Qed.

End Keywords.

Lemma extractCategory_semi_critical_witness :
  extractCategory lowerASCII (js "list semi-critical districts in Punjab")
  = Some (js "Critical").
Proof.
  exact (extractCategory_semi_critical lowerASCII_is_AsciiLowering).
Defined.

(** ** Absolute years *)

Lemma Matches_eps (w : jsstring) : Matches Eps w -> w = [].
Proof. now inversion 1. Qed.

Lemma Matches_cls (p : cu -> bool) (w : jsstring) :
  Matches (Cls p) w -> exists c, w = [c] /\ p c = true.
Proof. inversion 1; subst. eauto. Qed.

Lemma Matches_cat (r1 r2 : regex) (w : jsstring) :
  Matches (Cat r1 r2) w ->
  exists w1 w2, w = w1 ++ w2 /\ Matches r1 w1 /\ Matches r2 w2.
Proof. inversion 1; subst. eauto. Qed.

Lemma Matches_alt (r1 r2 : regex) (w : jsstring) :
  Matches (Alt r1 r2) w -> Matches r1 w \/ Matches r2 w.
Proof. inversion 1; subst; auto. Qed.

Lemma Matches_grp (i : nat) (r : regex) (w : jsstring) :
  Matches (Grp i r) w -> Matches r w.
Proof. now inversion 1. Qed.

Lemma Matches_star_cls (p : cu -> bool) (w : jsstring) :
  Matches (Star (Cls p)) w -> forallb p w = true.
Proof.
  intros H. remember (Star (Cls p)) as r eqn:Er.
  induction H; try discriminate; [reflexivity|].
  injection Er as ->. apply Matches_cls in H. destruct H as [c [-> Hc]].
  cbn [app forallb]. rewrite Hc. now apply IHMatches2.
Qed.

Lemma Matches_chr (c : cu) (w : jsstring) : Matches (chr c) w -> w = [c].
Proof.
  intros H. apply Matches_cls in H. destruct H as [x [-> Hx]].
  apply N.eqb_eq in Hx. now subst.
Qed.

Lemma Matches_chri_plain (c : cu) (w : jsstring) :
  isUpper c || isLower c = false -> Matches (chri c) w -> w = [c].
Proof.
  intros Hc H. apply Matches_cls in H. destruct H as [x [-> Hx]].
  rewrite Hc in Hx. apply N.eqb_eq in Hx. now subst.
Qed.

Lemma upperASCII_inv (x u : cu) :
  upperASCII x = u -> isUpper u = true -> x = u \/ x = u + 32.
Proof.
  unfold upperASCII, isLower, isUpper, between.
  destruct (97 <=? x) eqn:E1; destruct (x <=? 122) eqn:E2; cbn [andb];
    intros <-; auto.
  apply N.leb_le in E1. intros _. right. lia.
Qed.

Lemma Matches_chri_letter (c : cu) (w : jsstring) :
  isLower c = true -> Matches (chri c) w -> w = [c] \/ w = [c - 32].
Proof.
  intros Hc H. apply Matches_cls in H. destruct H as [x [-> Hx]].
  rewrite Hc, orb_true_r in Hx. apply N.eqb_eq in Hx.
  unfold upperASCII at 2 in Hx. rewrite Hc in Hx.
  apply upperASCII_inv in Hx.
  - unfold isLower, between in Hc. apply andb_true_iff in Hc.
    destruct Hc as [H1 H2]. apply N.leb_le in H1.
    destruct Hx as [->| ->]; [now right|]. left. f_equal. lia.
  - unfold isLower, isUpper, between in *. apply andb_true_iff in Hc.
    destruct Hc as [H1 H2]. apply N.leb_le in H1, H2.
    apply andb_true_iff. split; apply N.leb_le; lia.
Qed.

(** The language of the four-digit year pattern, with or without the [i]
    flag. *)
Lemma year_shape (i : nat) (f : cu -> regex) (w : jsstring) :
  (forall c x, isDigit c = true -> Matches (f c) x -> x = [c]) ->
  Matches (Cat (Grp i (Alt (seq f (js "19")) (seq f (js "20"))))
               (Cat digit (Cat digit Eps))) w ->
  exists v, YearText w v.
Proof.
  intros Hf H.
  apply Matches_cat in H. destruct H as [w1 [wa [-> [H1 H]]]].
  apply Matches_cat in H. destruct H as [w2 [wb [-> [H2 H]]]].
  apply Matches_cat in H. destruct H as [w3 [wc [-> [H3 H]]]].
  apply Matches_eps in H. subst wc.
  apply Matches_cls in H2. destruct H2 as [d1 [-> Hd1]].
  apply Matches_cls in H3. destruct H3 as [d2 [-> Hd2]].
  apply Matches_grp, Matches_alt in H1.
  destruct H1 as [H1|H1]; cbn [seq js list_ascii_of_string map] in H1;
    apply Matches_cat in H1; destruct H1 as [a [b [-> [Ha Hb]]]];
    apply Hf in Ha; [|reflexivity| |reflexivity];
    apply Hf in Hb; try reflexivity; subst a b; cbn [app];
    eexists; exists d1, d2; (split; [exact Hd1|]); (split; [exact Hd2|]).
  - left. split; reflexivity.
  - right. split; reflexivity.
Qed.

Lemma year4_shape (w : jsstring) : Matches year4 w -> exists v, YearText w v.
Proof.
  apply year_shape. intros c x _. apply Matches_chr.
Qed.

Lemma digit_not_letter (c : cu) :
  isDigit c = true -> isUpper c || isLower c = false.
Proof.
  unfold isDigit, isUpper, isLower, between. intros H.
  apply andb_true_iff in H. destruct H as [H1 H2]. apply N.leb_le in H1, H2.
  apply orb_false_iff; split; apply andb_false_iff; left; apply N.leb_gt; lia.
Qed.

Lemma Matches_sepRe (w : jsstring) : Matches sepRe w -> Separator w.
Proof.
  unfold sepRe, alts, liti. cbn [seq js list_ascii_of_string map].
  intros H. apply Matches_alt in H. destruct H as [H|H].
  - apply Matches_chri_plain in H; [|reflexivity]. left. exact H.
  - apply Matches_alt in H. destruct H as [H|H].
    + apply Matches_cat in H. destruct H as [a [b [-> [Ha Hb]]]].
      apply Matches_chri_letter in Ha; [|reflexivity].
      apply Matches_chri_letter in Hb; [|reflexivity].
      right; right.
      destruct Ha as [-> | ->]; destruct Hb as [-> | ->]; cbn [app];
        eexists; eexists; (split; [reflexivity|]); split; auto.
    + apply Matches_chri_plain in H; [|reflexivity]. right; left. exact H.
Qed.

(** The language of the range pattern: two years with a separator between
    them, white space allowed on either side of the separator. *)
Lemma rangeRe_shape (w : jsstring) :
  Matches rangeRe w ->
  exists ya a ws1 sep ws2 yb b,
    w = ya ++ ws1 ++ sep ++ ws2 ++ yb
    /\ YearText ya a /\ YearText yb b
    /\ forallb isSpace ws1 = true /\ forallb isSpace ws2 = true
    /\ Separator sep.
Proof.
  unfold rangeRe, cats. cbn [fold_right]. intros H.
  apply Matches_cat in H. destruct H as [g1 [wa [-> [Hg1 H]]]].
  apply Matches_cat in H. destruct H as [d1 [wb [-> [Hd1 H]]]].
  apply Matches_cat in H. destruct H as [d2 [wc [-> [Hd2 H]]]].
  apply Matches_cat in H. destruct H as [ws1 [wd [-> [Hws1 H]]]].
  apply Matches_cat in H. destruct H as [sep [we [-> [Hsep H]]]].
  apply Matches_cat in H. destruct H as [ws2 [w' [-> [Hws2 H]]]].
  assert (Hya : exists a, YearText (g1 ++ d1 ++ d2 ++ []) a).
  { apply (@year_shape 1%nat chri).
    - intros c x Hc. apply Matches_chri_plain. now apply digit_not_letter.
    - repeat (apply M_Cat; [assumption|]). constructor. }
  assert (Hyb : exists b, YearText w' b).
  { apply (@year_shape 2%nat chri); [|exact H].
    intros c x Hc. apply Matches_chri_plain. now apply digit_not_letter. }
  destruct Hya as [a Hya]. destruct Hyb as [b Hyb].
  exists (g1 ++ d1 ++ d2 ++ []), a, ws1, sep, ws2, w', b.
  split; [now rewrite <- !app_assoc|].
  repeat split; auto using Matches_star_cls, Matches_sepRe.
Qed.

(** *** Splitting a matched range at its separator *)

Definition sepStart (c : cu) : bool :=
  (c =? 45) || (c =? 116) || (c =? 84) || (c =? enDash).

Lemma upperASCII_not_T (c : cu) :
  (c =? 116) = false -> (c =? 84) = false -> (upperASCII c =? 84) = false.
Proof.
  intros H1 H2. apply N.eqb_neq in H1, H2. apply N.eqb_neq. intros E.
  apply upperASCII_inv in E; [|reflexivity]. destruct E; contradiction.
Qed.

Lemma sepRe_fail (A : Type) (c : cu) (bef s : jsstring)
      (cps : list (nat * jsstring)) (k : mstate -> option A) :
  sepStart c = false -> rmatch sepRe (MState bef (c :: s) cps) k = None.
Proof.
  unfold sepStart. intros H.
  apply orb_false_iff in H. destruct H as [H H4].
  apply orb_false_iff in H. destruct H as [H H3].
  apply orb_false_iff in H. destruct H as [H1 H2].
  unfold sepRe, alts, liti, chri.
  cbn [seq js list_ascii_of_string map rmatch rest].
  change (isUpper (N_of_ascii "-") || isLower (N_of_ascii "-")) with false.
  change (isUpper (N_of_ascii "t") || isLower (N_of_ascii "t")) with true.
  change (isUpper enDash || isLower enDash) with false.
  change (upperASCII (N_of_ascii "t")) with 84.
  change (N_of_ascii "-") with 45. cbv beta iota.
  now rewrite H1, H4, (upperASCII_not_T _ H2 H3).
Qed.

Lemma digit_not_sepStart (c : cu) : isDigit c = true -> sepStart c = false.
Proof.
  unfold isDigit, between, sepStart, enDash. intros H.
  apply andb_true_iff in H. destruct H as [H1 H2]. apply N.leb_le in H1, H2.
  repeat (apply orb_false_iff; split); apply N.eqb_neq; lia.
Qed.

Lemma space_not_sepStart (c : cu) : isSpace c = true -> sepStart c = false.
Proof.
  unfold isSpace, between, sepStart, enDash. intros H.
  repeat (apply orb_false_iff; split); apply N.eqb_neq; intros ->;
    discriminate H.
Qed.

Section Skipping.

Variable r : regex.

Definition FailsAt (c : cu) : Prop :=
  forall bef s, rmatch r (MState bef (c :: s) []) (fun st => Some st) = None.

Lemma search_skip (pre : jsstring) :
  Forall FailsAt pre ->
  forall s skipped bef,
    search r skipped bef (pre ++ s)
    = search r (rev pre ++ skipped) (rev pre ++ bef) s.
Proof.
  induction 1 as [|c pre Hc _ IH]; intros s skipped bef; [reflexivity|].
  cbn [app search]. rewrite Hc, IH. cbn [rev]. now rewrite <- !app_assoc.
Qed.

Lemma search_none (s : jsstring) :
  Forall FailsAt s ->
  (forall bef, rmatch r (MState bef [] []) (fun st => Some st) = None) ->
  forall skipped bef, search r skipped bef s = None.
Proof.
  intros Hs Hnil. induction Hs as [|c s Hc _ IH]; intros skipped bef;
    cbn [search].
  - now rewrite Hnil.
  - now rewrite Hc, IH.
Qed.

End Skipping.

Lemma sep_FailsAt (w : jsstring) :
  forallb (fun c => isDigit c || isSpace c) w = true ->
  Forall (FailsAt sepRe) w.
Proof.
  induction w as [|c w IH]; cbn [forallb]; intros H; constructor.
  - apply andb_true_iff in H. destruct H as [H _].
    intros bef s. apply sepRe_fail.
    apply orb_true_iff in H.
    destruct H; [now apply digit_not_sepStart | now apply space_not_sepStart].
  - apply IH. apply andb_true_iff in H. tauto.
Qed.

Lemma search_sep (sep s skipped bef : jsstring) :
  Separator sep ->
  search sepRe skipped bef (sep ++ s)
  = Some (Found (rev skipped) sep [] (MState (rev sep ++ bef) s [])).
Proof.
  intros [->|[->|[a [b [-> [Ha Hb]]]]]].
  - cbn [app search].
    replace (rmatch sepRe (MState bef (45 :: s) []) (fun st => Some st))
      with (Some (MState (45 :: bef) s [])) by reflexivity.
    cbn [rest caps].
    exact (f_equal (fun t => Some (Found (rev skipped) t []
                                     (MState (45 :: bef) s [])))
                   (firstn_consumed [45] s)).
  - cbn [app search].
    replace (rmatch sepRe (MState bef (enDash :: s) []) (fun st => Some st))
      with (Some (MState (enDash :: bef) s [])) by reflexivity.
    cbn [rest caps].
    exact (f_equal (fun t => Some (Found (rev skipped) t []
                                     (MState (enDash :: bef) s [])))
                   (firstn_consumed [enDash] s)).
  - cbn [app search].
    replace (rmatch sepRe (MState bef (a :: b :: s) []) (fun st => Some st))
      with (Some (MState (b :: a :: bef) s []))
      by (destruct Ha as [->| ->]; destruct Hb as [->| ->]; reflexivity).
    cbn [rest caps].
    exact (f_equal (fun t => Some (Found (rev skipped) t []
                                     (MState (b :: a :: bef) s [])))
                   (firstn_consumed [a; b] s)).
Qed.

Lemma split_range (pre sep post : jsstring) :
  forallb (fun c => isDigit c || isSpace c) pre = true ->
  forallb (fun c => isDigit c || isSpace c) post = true ->
  Separator sep ->
  split sepRe (pre ++ sep ++ post) = [pre; post].
Proof.
  intros Hpre Hpost Hsep. unfold split, scanAll. cbn [scan].
  rewrite (search_skip (sep_FailsAt _ Hpre)), (search_sep _ _ _ Hsep).
  cbn [text stop rest before gap].
  destruct (length (pre ++ sep ++ post)) as [|n] eqn:Hlen.
  { exfalso. rewrite !length_app in Hlen.
    destruct Hsep as [->|[->|[a [b [-> _]]]]]; cbn [length] in Hlen; lia. }
  cbn [scan].
  rewrite (search_none (sep_FailsAt _ Hpost)) by reflexivity.
  rewrite app_nil_r, rev_involutive.
  destruct Hsep as [->|[->|[a [b [-> _]]]]]; reflexivity.
Qed.

(** *** Reading the years *)

Lemma digit_not_space (c : cu) : isDigit c = true -> isSpace c = false.
Proof.
  intros H. destruct (isSpace c) eqn:E; [|reflexivity].
  unfold isDigit, between in H. apply andb_true_iff in H.
  destruct H as [H1 H2]. apply N.leb_le in H1, H2.
  unfold isSpace, between in E.
  repeat (apply orb_true_iff in E; destruct E as [E|E]);
    try (apply N.eqb_eq in E; lia).
  apply andb_true_iff in E. destruct E as [_ E]. apply N.leb_le in E. lia.
  apply andb_true_iff in E. destruct E as [E _]. apply N.leb_le in E. lia.
Qed.

Lemma digitVal_range (c : cu) : isDigit c = true -> (0 <= digitVal c <= 9)%Z.
Proof.
  unfold isDigit, between, digitVal. intros H.
  apply andb_true_iff in H. destruct H as [H1 H2]. apply N.leb_le in H1, H2.
  lia.
Qed.

Lemma trimStart_spaces (ws x : jsstring) :
  forallb isSpace ws = true -> trimStart (ws ++ x) = trimStart x.
Proof.
  induction ws as [|c ws IH]; cbn [forallb app]; intros H; [reflexivity|].
  apply andb_true_iff in H. destruct H as [Hc H].
  cbn [trimStart]. rewrite Hc. now apply IH.
Qed.

Lemma forallb_rev (p : cu -> bool) (l : jsstring) :
  forallb p l = true -> forallb p (rev l) = true.
Proof.
  rewrite !forallb_forall. intros H x Hx. apply H. now apply in_rev.
Qed.

Lemma YearText_range (y : jsstring) (v : Z) :
  YearText y v -> (1900 <= v <= 2099)%Z.
Proof.
  intros [d1 [d2 [H1 [H2 [[_ ->]|[_ ->]]]]]];
    apply digitVal_range in H1, H2; lia.
Qed.

Lemma YearText_digits (y : jsstring) (v : Z) :
  YearText y v -> forallb isDigit y = true.
Proof.
  intros [d1 [d2 [H1 [H2 [[-> _]|[-> _]]]]]]; cbn [forallb];
    now rewrite H1, H2.
Qed.

Lemma YearText_parseInt (y : jsstring) (v : Z) :
  YearText y v -> parseInt y = Some v.
Proof.
  intros [d1 [d2 [H1 [H2 [[-> ->]|[-> ->]]]]]];
    unfold parseInt; cbn [trimStart];
    [change (isSpace 49) with false | change (isSpace 50) with false];
    cbv beta iota;
    [change (isDigit 49) with true | change (isDigit 50) with true];
    cbv beta iota; cbn [digitsVal];
    [change (isDigit 49) with true; change (isDigit 57) with true
    |change (isDigit 50) with true; change (isDigit 48) with true];
    rewrite H1, H2; cbv beta iota; f_equal;
    [change (digitVal 49) with 1%Z; change (digitVal 57) with 9%Z
    |change (digitVal 50) with 2%Z; change (digitVal 48) with 0%Z]; lia.
Qed.

Lemma YearText_trimStart (y x : jsstring) (v : Z) :
  YearText y v -> trimStart (y ++ x) = y ++ x.
Proof. intros [d1 [d2 [_ [_ [[-> _]|[-> _]]]]]]; reflexivity. Qed.

Lemma YearText_trimEnd (y : jsstring) (v : Z) :
  YearText y v -> trimEnd y = y.
Proof.
  intros [d1 [d2 [_ [H2 Hy]]]]. apply digit_not_space in H2.
  unfold trimEnd.
  destruct Hy as [[-> _]|[-> _]]; cbn [rev app trimStart]; now rewrite H2.
Qed.

Lemma YearText_trim_left (y ws : jsstring) (v : Z) :
  YearText y v -> forallb isSpace ws = true -> trim (y ++ ws) = y.
Proof.
  intros Hy Hws. unfold trim. rewrite (YearText_trimStart _ Hy).
  rewrite <- (YearText_trimEnd Hy) at 2. unfold trimEnd.
  rewrite rev_app_distr, trimStart_spaces by now apply forallb_rev.
  reflexivity.
Qed.

Lemma YearText_trim_right (y ws : jsstring) (v : Z) :
  YearText y v -> forallb isSpace ws = true -> trim (ws ++ y) = y.
Proof.
  intros Hy Hws. unfold trim. rewrite trimStart_spaces by exact Hws.
  generalize (YearText_trimStart [] Hy). rewrite app_nil_r. intros ->.
  now apply (YearText_trimEnd Hy).
Qed.

Lemma forallb_app_true (p : cu -> bool) (a b : jsstring) :
  forallb p a = true -> forallb p b = true -> forallb p (a ++ b) = true.
Proof. intros Ha Hb. rewrite forallb_app, Ha, Hb. reflexivity. Qed.

Lemma forallb_weaken (p q : cu -> bool) (l : jsstring) :
  (forall c, p c = true -> q c = true) ->
  forallb p l = true -> forallb q l = true.
Proof.
  intros Hpq. rewrite !forallb_forall. intros H x Hx. apply Hpq, H, Hx.
Qed.

(** The range branch of [parseYearsAbsolute] on a text of the language of
    the range pattern. *)
Lemma range_years (ya ws1 sep ws2 yb : jsstring) (a b : Z) :
  YearText ya a -> YearText yb b ->
  forallb isSpace ws1 = true -> forallb isSpace ws2 = true ->
  Separator sep ->
  map (fun s => parseInt (trim s)) (split sepRe (ya ++ ws1 ++ sep ++ ws2 ++ yb))
  = [Some a; Some b].
Proof.
  intros Hya Hyb H1 H2 Hsep.
  assert (Hd : forall y v, YearText y v ->
                 forallb (fun c => isDigit c || isSpace c) y = true).
  { intros y v Hy. apply (forallb_weaken isDigit).
    - intros c ->. reflexivity.
    - now apply (YearText_digits Hy). }
  assert (Hs : forall ws, forallb isSpace ws = true ->
                 forallb (fun c => isDigit c || isSpace c) ws = true).
  { intros ws. apply forallb_weaken. intros c ->. apply orb_true_r. }
  replace (ya ++ ws1 ++ sep ++ ws2 ++ yb)
    with ((ya ++ ws1) ++ sep ++ (ws2 ++ yb)) by now rewrite <- !app_assoc.
  rewrite split_range; eauto using forallb_app_true.
  cbn [map].
  rewrite (YearText_trim_left ws1 Hya H1), (YearText_trim_right ws2 Hyb H2).
  now rewrite (YearText_parseInt Hya), (YearText_parseInt Hyb).
Qed.

Lemma minOf_somes (x : Z) (l : list Z) :
  exists lo, minOf (Some x) (map Some l) = Some lo
             /\ In lo (x :: l) /\ Forall (fun v => lo <= v)%Z (x :: l).
Proof.
  revert x. induction l as [|y l IH]; intros x; cbn [map minOf].
  - exists x. repeat split; [now left | repeat constructor; lia].
  - destruct (IH y) as [lo [-> [Hin Hall]]].
    exists (Z.min x lo). split; [reflexivity|].
    destruct (Z.min_spec x lo) as [[Hlt ->]|[Hle ->]].
    + split; [now left|]. constructor; [lia|].
      eapply Forall_impl; [|exact Hall]. cbv beta. intros; lia.
    + split; [now right|]. constructor; [lia | exact Hall].
Qed.

Lemma maxOf_somes (x : Z) (l : list Z) :
  exists hi, maxOf (Some x) (map Some l) = Some hi
             /\ In hi (x :: l) /\ Forall (fun v => v <= hi)%Z (x :: l).
Proof.
  revert x. induction l as [|y l IH]; intros x; cbn [map maxOf].
  - exists x. repeat split; [now left | repeat constructor; lia].
  - destruct (IH y) as [hi [-> [Hin Hall]]].
    exists (Z.max x hi). split; [reflexivity|].
    destruct (Z.max_spec x hi) as [[Hlt ->]|[Hle ->]].
    + split; [now right|]. constructor; [lia | exact Hall].
    + split; [now left|]. constructor; [lia|].
      eapply Forall_impl; [|exact Hall]. cbv beta. intros; lia.
Qed.

Lemma years_of_matches (ws : list jsstring) :
  Forall (Matches year4) ws ->
  exists vs, Forall2 YearText ws vs /\ map parseInt ws = map Some vs.
Proof.
  induction 1 as [|w ws Hw _ [vs [Hvs E]]].
  - exists []. split; [constructor | reflexivity].
  - apply year4_shape in Hw. destruct Hw as [v Hv].
    exists (v :: vs). split; [now constructor|].
    cbn [map]. now rewrite E, (YearText_parseInt Hv).
Qed.

(** The range branch: the leftmost match of the range pattern is two years
    around a separator, and the result is the smaller and the larger. *)
Lemma absolute_range (t : jsstring) (m : found) :
  exec rangeRe t = Some m ->
  exists ya a ws1 sep ws2 yb b,
    t = gap m ++ text m ++ rest (stop m)
    /\ text m = ya ++ ws1 ++ sep ++ ws2 ++ yb
    /\ YearText ya a /\ YearText yb b
    /\ forallb isSpace ws1 = true /\ forallb isSpace ws2 = true
    /\ Separator sep
    /\ parseYearsAbsolute t = mkYears (JNum (Z.min a b)) (JNum (Z.max a b)).
Proof.
  intros E. unfold parseYearsAbsolute. rewrite E.
  apply exec_sound in E. destruct E as [Ht Hm].
  apply rangeRe_shape in Hm.
  destruct Hm as [ya [a [ws1 [sep [ws2 [yb [b [Hw [Hya [Hyb [H1 [H2 Hsep]]]]]]]]]]]].
  exists ya, a, ws1, sep, ws2, yb, b.
  repeat (split; [assumption|]).
  rewrite Hw, (@range_years ya ws1 sep ws2 yb a b Hya Hyb H1 H2 Hsep).
  reflexivity.
Qed.

(** The other branch: the successive matches of the four-digit pattern. *)
Lemma absolute_list (t : jsstring) :
  exec rangeRe t = None ->
  exists pieces tail vs,
    matchAll year4 t = map snd pieces
    /\ t = flat_map (fun gt => fst gt ++ snd gt) pieces ++ tail
    /\ Forall2 YearText (matchAll year4 t) vs
    /\ match vs with
       | [] => parseYearsAbsolute t = noYears
       | [y] => parseYearsAbsolute t = mkYears (JNum y) (JNum y)
       | _ =>
           exists lo hi,
             parseYearsAbsolute t = mkYears (JNum lo) (JNum hi)
             /\ In lo vs /\ In hi vs
             /\ Forall (fun v => lo <= v <= hi)%Z vs
       end.
Proof.
  intros E. unfold parseYearsAbsolute. rewrite E.
  destruct (years_of_matches (matchAll_sound year4 t)) as [vs [Hvs Hmap]].
  destruct (matchAll_pieces year4 t) as [pieces [tail [Hp Ht]]].
  exists pieces, tail, vs.
  split; [exact Hp|]. split; [exact Ht|]. split; [exact Hvs|].
  rewrite Hmap.
  destruct vs as [|x [|y l]]; [reflexivity | reflexivity |].
  change (map Some (x :: y :: l)) with (Some x :: map Some (y :: l)).
  cbv beta iota.
  destruct (minOf_somes x (y :: l)) as [lo [-> [Hlo Hmin]]].
  destruct (maxOf_somes x (y :: l)) as [hi [-> [Hhi Hmax]]].
  exists lo, hi. split; [reflexivity|]. split; [exact Hlo|].
  split; [exact Hhi|].
  rewrite Forall_forall in *. intros v Hv.
  specialize (Hmin v Hv). specialize (Hmax v Hv). cbv beta in *. lia.
Qed.

Lemma Forall2_YearText_range (ws : list jsstring) (vs : list Z) :
  Forall2 YearText ws vs -> Forall (fun v => 1900 <= v <= 2099)%Z vs.
Proof.
  induction 1 as [|w v ws vs Hv _ IH]; constructor; [|exact IH].
  exact (YearText_range Hv).
Qed.

(** The absolute pass finds nothing, or two numbers from 1900 to 2099 in
    order. *)
Lemma absolute_found_or_nothing (t : jsstring) :
  parseYearsAbsolute t = noYears
  \/ exists a b,
       parseYearsAbsolute t = mkYears (JNum a) (JNum b)
       /\ (1900 <= a <= b)%Z /\ (b <= 2099)%Z.
Proof.
  destruct (exec rangeRe t) as [m|] eqn:Ex.
  - destruct (@absolute_range t m Ex)
      as [ya [a [ws1 [sep [ws2 [yb [b [_ [_ [Ha [Hb [_ [_ [_ E]]]]]]]]]]]]]].
    apply YearText_range in Ha, Hb. right.
    exists (Z.min a b), (Z.max a b). split; [exact E | lia].
  - destruct (@absolute_list t Ex) as [pieces [tail [vs [_ [_ [Hvs H]]]]]].
    apply Forall2_YearText_range in Hvs.
    destruct vs as [|x [|y l]]; [now left | |].
    + right. exists x, x. inversion Hvs; subst. split; [exact H | lia].
    + destruct H as [lo [hi [E [Hlo [Hhi Hall]]]]]. right. exists lo, hi.
      split; [exact E|]. rewrite Forall_forall in Hvs, Hall.
      generalize (Hvs lo Hlo) (Hvs hi Hhi) (Hall lo Hlo). cbv beta. lia.
Qed.

Lemma absolute_nothing (t : jsstring) :
  truthy (y1 (parseYearsAbsolute t)) = false -> parseYearsAbsolute t = noYears.
Proof.
  destruct (absolute_found_or_nothing t) as [E|[a [b [E [Ha Hb]]]]];
    [intros _; exact E|].
  rewrite E. cbn [y1 truthy]. destruct (Z.eqb_spec a 0); [lia | discriminate].
Qed.

(** *** The years and ranges of a text, read with and without patterns *)

Lemma yearAt_YearText (w post : jsstring) (v : Z) :
  YearText w v -> yearAt (w ++ post) = Some v.
Proof.
  intros [d1 [d2 [H1 [H2 [[-> ->]|[-> ->]]]]]]; cbn [app yearAt];
    rewrite H1, H2; reflexivity.
Qed.

Lemma yearAt_inv (s : jsstring) (v : Z) :
  yearAt s = Some v ->
  exists w post, s = w ++ post /\ YearText w v /\ skipn 4 s = post.
Proof.
  destruct s as [|a [|b [|d1 [|d2 post]]]]; try discriminate. cbn [yearAt].
  destruct (isDigit d1) eqn:H1; [|discriminate].
  destruct (isDigit d2) eqn:H2; [|discriminate]. cbn [andb].
  destruct (N.eqb a 49 && N.eqb b 57) eqn:E1.
  - apply andb_true_iff in E1. destruct E1 as [Ea Eb].
    apply N.eqb_eq in Ea, Eb. subst a b. intros [= <-].
    exists [49; 57; d1; d2], post. split; [reflexivity|].
    split; [|reflexivity]. exists d1, d2. auto.
  - destruct (N.eqb a 50 && N.eqb b 48) eqn:E2; [|discriminate].
    apply andb_true_iff in E2. destruct E2 as [Ea Eb].
    apply N.eqb_eq in Ea, Eb. subst a b. intros [= <-].
    exists [50; 48; d1; d2], post. split; [reflexivity|].
    split; [|reflexivity]. exists d1, d2. auto.
Qed.

Lemma YearText_length (w : jsstring) (v : Z) : YearText w v -> length w = 4%nat.
Proof. intros [d1 [d2 [_ [_ [[-> _]|[-> _]]]]]]; reflexivity. Qed.

Lemma chri_self (c : cu) : Matches (chri c) [c].
Proof.
  apply M_Cls. destruct (isUpper c || isLower c); apply N.eqb_refl.
Qed.

Lemma chr_self (c : cu) : Matches (chr c) [c].
Proof. apply M_Cls. apply N.eqb_refl. Qed.

Lemma year_Matches (i : nat) (f : cu -> regex) (w : jsstring) (v : Z) :
  (forall c, Matches (f c) [c]) ->
  YearText w v ->
  Matches (Cat (Grp i (Alt (seq f (js "19")) (seq f (js "20"))))
               (Cat digit (Cat digit Eps))) w.
Proof.
  intros Hf [d1 [d2 [H1 [H2 [[-> _]|[-> _]]]]]].
  - change [49; 57; d1; d2] with (([49] ++ [57]) ++ [d1] ++ [d2] ++ []).
    apply M_Cat; [apply M_Grp, M_AltL; apply M_Cat; apply Hf|].
    apply M_Cat; [now apply M_Cls|]. apply M_Cat; [now apply M_Cls|].
    apply M_Eps.
  - change [50; 48; d1; d2] with (([50] ++ [48]) ++ [d1] ++ [d2] ++ []).
    apply M_Cat; [apply M_Grp, M_AltR; apply M_Cat; apply Hf|].
    apply M_Cat; [now apply M_Cls|]. apply M_Cat; [now apply M_Cls|].
    apply M_Eps.
Qed.

Lemma YearText_year4 (w : jsstring) (v : Z) : YearText w v -> Matches year4 w.
Proof. apply year_Matches. apply chr_self. Qed.

Lemma Matches_star_cls_intro (p : cu -> bool) (w : jsstring) :
  forallb p w = true -> Matches (Star (Cls p)) w.
Proof.
  induction w as [|c w IH]; cbn [forallb]; intros H; [apply M_StarNil|].
  apply andb_true_iff in H. destruct H as [Hc H].
  change (c :: w) with ([c] ++ w).
  apply M_StarCons; [now apply M_Cls | now apply IH].
Qed.

Lemma Separator_sepRe (sep : jsstring) : Separator sep -> Matches sepRe sep.
Proof.
  unfold sepRe, alts, liti. cbn [seq js list_ascii_of_string map].
  intros [->|[->|[a [b [-> [Ha Hb]]]]]].
  - apply M_AltL. apply chri_self.
  - apply M_AltR, M_AltR. apply chri_self.
  - apply M_AltR, M_AltL. change [a; b] with ([a] ++ [b]).
    apply M_Cat; apply M_Cls;
      [destruct Ha as [->| ->] | destruct Hb as [->| ->]]; reflexivity.
Qed.

Lemma range_Matches (ya ws1 sep ws2 yb : jsstring) (a b : Z) :
  YearText ya a -> YearText yb b ->
  forallb isSpace ws1 = true -> forallb isSpace ws2 = true ->
  Separator sep ->
  Matches rangeRe (ya ++ ws1 ++ sep ++ ws2 ++ yb).
Proof.
  intros Hya Hyb H1 H2 Hsep.
  apply (@year_Matches 1%nat chri ya a chri_self) in Hya.
  apply (@year_Matches 2%nat chri yb b chri_self) in Hyb.
  apply Matches_cat in Hya. destruct Hya as [g [x1 [-> [Hg Hx]]]].
  apply Matches_cat in Hx. destruct Hx as [d1 [x2 [-> [Hd1 Hx]]]].
  apply Matches_cat in Hx. destruct Hx as [d2 [x3 [-> [Hd2 Hx]]]].
  apply Matches_eps in Hx. subst x3.
  unfold rangeRe, cats. cbn [fold_right].
  rewrite <- !app_assoc. cbn [app].
  apply M_Cat; [exact Hg|]. apply M_Cat; [exact Hd1|].
  apply M_Cat; [exact Hd2|].
  apply M_Cat; [now apply Matches_star_cls_intro|].
  apply M_Cat; [now apply Separator_sepRe|].
  apply M_Cat; [now apply Matches_star_cls_intro|].
  exact Hyb.
Qed.

Lemma Separator_head (sep : jsstring) :
  Separator sep -> exists c tl, sep = c :: tl /\ isSpace c = false.
Proof.
  intros [->|[->|[a [b [-> [Ha Hb]]]]]]; eexists; eexists;
    (split; [reflexivity|]); [reflexivity | reflexivity|].
  destruct Ha as [->| ->]; reflexivity.
Qed.

Lemma afterSeparator_Separator (sep post : jsstring) :
  Separator sep -> afterSeparator (sep ++ post) = Some post.
Proof.
  intros [->|[->|[a [b [-> [Ha Hb]]]]]]; [reflexivity | reflexivity|].
  destruct Ha as [->| ->]; destruct Hb as [->| ->]; reflexivity.
Qed.

Lemma afterSeparator_inv (s post : jsstring) :
  afterSeparator s = Some post ->
  exists sep, s = sep ++ post /\ Separator sep.
Proof.
  destruct s as [|a s]; [discriminate|]. cbn [afterSeparator].
  destruct (N.eqb a 45 || N.eqb a enDash) eqn:E.
  - intros [= <-]. exists [a]. split; [reflexivity|].
    apply orb_true_iff in E. destruct E as [E|E]; apply N.eqb_eq in E;
      subst a; [now left | now right; left].
  - destruct s as [|b s]; [discriminate|].
    destruct ((N.eqb a 116 || N.eqb a 84) && (N.eqb b 111 || N.eqb b 79))
      eqn:E2; [|discriminate].
    intros [= <-]. exists [a; b]. split; [reflexivity|].
    right; right. exists a, b. split; [reflexivity|].
    apply andb_true_iff in E2. destruct E2 as [Ea Eb].
    apply orb_true_iff in Ea, Eb.
    split; [destruct Ea as [Ea|Ea] | destruct Eb as [Eb|Eb]];
      apply N.eqb_eq in Ea || apply N.eqb_eq in Eb; auto.
Qed.

Lemma trimStart_nonspace (c : cu) (s : jsstring) :
  isSpace c = false -> trimStart (c :: s) = c :: s.
Proof. intros H. cbn [trimStart]. now rewrite H. Qed.

(** A text begins with a range exactly when [rangeAt] reads one. *)
Lemma rangeAt_shape (ya ws1 sep ws2 yb post : jsstring) (a b : Z) :
  YearText ya a -> YearText yb b ->
  forallb isSpace ws1 = true -> forallb isSpace ws2 = true ->
  Separator sep ->
  rangeAt (ya ++ ws1 ++ sep ++ ws2 ++ yb ++ post) = Some (a, b).
Proof.
  intros Hya Hyb H1 H2 Hsep. unfold rangeAt.
  rewrite (yearAt_YearText _ Hya).
  replace (skipn 4 (ya ++ ws1 ++ sep ++ ws2 ++ yb ++ post))
    with (ws1 ++ sep ++ ws2 ++ yb ++ post)
    by (rewrite <- (YearText_length Hya), skipn_app, skipn_all,
          Nat.sub_diag; reflexivity).
  rewrite trimStart_spaces by exact H1.
  destruct (Separator_head Hsep) as [c [tl [E Hc]]].
  rewrite E. cbn [app]. rewrite trimStart_nonspace by exact Hc.
  change (c :: tl ++ ws2 ++ yb ++ post)
    with ((c :: tl) ++ ws2 ++ yb ++ post).
  rewrite <- E, (afterSeparator_Separator _ Hsep).
  rewrite trimStart_spaces by exact H2.
  rewrite (YearText_trimStart _ Hyb), (yearAt_YearText _ Hyb). reflexivity.
Qed.

Lemma rangeAt_inv (s : jsstring) (a b : Z) :
  rangeAt s = Some (a, b) ->
  exists ya ws1 sep ws2 yb post,
    s = ya ++ ws1 ++ sep ++ ws2 ++ yb ++ post
    /\ YearText ya a /\ YearText yb b
    /\ forallb isSpace ws1 = true /\ forallb isSpace ws2 = true
    /\ Separator sep.
Proof.
  unfold rangeAt.
  destruct (yearAt s) as [a'|] eqn:Ea; [|discriminate].
  apply yearAt_inv in Ea. destruct Ea as [ya [s1 [-> [Hya ->]]]].
  destruct (trimStart_split s1) as [ws1 [E1 H1]].
  destruct (afterSeparator (trimStart s1)) as [s2|] eqn:Es; [|discriminate].
  apply afterSeparator_inv in Es. destruct Es as [sep [Es Hsep]].
  destruct (trimStart_split s2) as [ws2 [E2 H2]].
  destruct (yearAt (trimStart s2)) as [b'|] eqn:Eb; [|discriminate].
  apply yearAt_inv in Eb. destruct Eb as [yb [post [Eb [Hyb _]]]].
  intros [= <- <-]. exists ya, ws1, sep, ws2, yb, post.
  split; [|auto 10]. rewrite E1 at 1. rewrite Es. rewrite E2 at 1.
  now rewrite Eb.
Qed.

Lemma firstRange_eq (s : jsstring) :
  firstRange s
  = match rangeAt s with
    | Some ab => Some ab
    | None => match s with [] => None | _ :: s' => firstRange s' end
    end.
Proof. destruct s; reflexivity. Qed.

Lemma yearsFrom_eq (c : cu) (s : jsstring) :
  yearsFrom 0 (c :: s)
  = match yearAt (c :: s) with
    | Some y => y :: yearsFrom 3 s
    | None => yearsFrom 0 s
    end.
Proof. reflexivity. Qed.

(** The range pattern at one position. *)
Lemma range_here (bef s : jsstring) :
  match rmatch rangeRe (MState bef s []) (fun st => Some st) with
  | Some st =>
      exists ya a ws1 sep ws2 yb b,
        firstn (length s - length (rest st)) s
        = ya ++ ws1 ++ sep ++ ws2 ++ yb
        /\ YearText ya a /\ YearText yb b
        /\ forallb isSpace ws1 = true /\ forallb isSpace ws2 = true
        /\ Separator sep
        /\ rangeAt s = Some (a, b)
  | None => rangeAt s = None
  end.
Proof.
  destruct (rmatch rangeRe (MState bef s []) (fun st => Some st))
    as [st|] eqn:E.
  - apply rmatch_here in E. destruct E as [w [Hs [Hw [Hm _]]]].
    apply rangeRe_shape in Hm.
    destruct Hm as [ya [a [ws1 [sep [ws2 [yb [b [Ew [Hya [Hyb [H1 [H2 Hsep]]]]]]]]]]]].
    exists ya, a, ws1, sep, ws2, yb, b. rewrite Hw.
    repeat (split; [assumption|]).
    rewrite Hs, Ew, <- !app_assoc. now apply rangeAt_shape.
  - destruct (rangeAt s) as [[a b]|] eqn:R; [|reflexivity]. exfalso.
    apply rangeAt_inv in R.
    destruct R as [ya [ws1 [sep [ws2 [yb [post [-> [Hya [Hyb [H1 [H2 Hsep]]]]]]]]]]].
    revert E.
    replace (ya ++ ws1 ++ sep ++ ws2 ++ yb ++ post)
      with ((ya ++ ws1 ++ sep ++ ws2 ++ yb) ++ post)
      by (now rewrite <- !app_assoc).
    apply rmatch_occurrence; [reflexivity|].
    now apply (@range_Matches ya ws1 sep ws2 yb a b).
Qed.

(** The leftmost match of the range pattern is the leftmost range. *)
Lemma search_range (s : jsstring) :
  forall skipped bef,
    match search rangeRe skipped bef s with
    | Some f =>
        exists ya a ws1 sep ws2 yb b,
          text f = ya ++ ws1 ++ sep ++ ws2 ++ yb
          /\ YearText ya a /\ YearText yb b
          /\ forallb isSpace ws1 = true /\ forallb isSpace ws2 = true
          /\ Separator sep
          /\ firstRange s = Some (a, b)
    | None => firstRange s = None
    end.
Proof.
  induction s as [|c s IH]; intros skipped bef; rewrite search_eq,
    firstRange_eq; generalize (range_here bef); intros Hhere.
  - specialize (Hhere []).
    destruct (rmatch rangeRe (MState bef [] []) (fun st => Some st)) as [st|].
    + destruct Hhere as [ya [a [ws1 [sep [ws2 [yb [b [Ht [Hya [Hyb [H1 [H2 [Hsep R]]]]]]]]]]]]].
      exists ya, a, ws1, sep, ws2, yb, b. cbn [text]. rewrite R. auto 10.
    + now rewrite Hhere.
  - specialize (Hhere (c :: s)).
    destruct (rmatch rangeRe (MState bef (c :: s) []) (fun st => Some st))
      as [st|].
    + destruct Hhere as [ya [a [ws1 [sep [ws2 [yb [b [Ht [Hya [Hyb [H1 [H2 [Hsep R]]]]]]]]]]]]].
      exists ya, a, ws1, sep, ws2, yb, b. cbn [text]. rewrite R. auto 10.
    + rewrite Hhere. apply IH.
Qed.

(** The year pattern at one position. *)
Lemma year_here (bef s : jsstring) :
  match rmatch year4 (MState bef s []) (fun st => Some st) with
  | Some st =>
      exists w v,
        s = w ++ rest st
        /\ firstn (length s - length (rest st)) s = w
        /\ YearText w v
  | None => yearAt s = None
  end.
Proof.
  destruct (rmatch year4 (MState bef s []) (fun st => Some st))
    as [st|] eqn:E.
  - apply rmatch_here in E. destruct E as [w [Hs [Hw [Hm _]]]].
    apply year4_shape in Hm. destruct Hm as [v Hv]. now exists w, v.
  - destruct (yearAt s) as [v|] eqn:Y; [|reflexivity]. exfalso.
    apply yearAt_inv in Y. destruct Y as [w [post [-> [Hw _]]]].
    revert E. apply rmatch_occurrence; [reflexivity|].
    exact (YearText_year4 Hw).
Qed.

Lemma yearsFrom_year (w post : jsstring) (v : Z) :
  YearText w v -> yearsFrom 0 (w ++ post) = v :: yearsFrom 0 post.
Proof.
  intros Hw. generalize (yearAt_YearText post Hw).
  destruct Hw as [d1 [d2 [_ [_ [[-> _]|[-> _]]]]]]; cbn [app];
    intros Y; rewrite yearsFrom_eq, Y; reflexivity.
Qed.

(** The leftmost match of the year pattern is the first year that occurs,
    and the years after it are those of the rest of the text. *)
Lemma search_year4 (s : jsstring) :
  forall skipped bef,
    match search year4 skipped bef s with
    | Some m =>
        exists v,
          YearText (text m) v
          /\ yearsFrom 0 s = v :: yearsFrom 0 (rest (stop m))
          /\ (length (rest (stop m)) < length s)%nat
    | None => yearsFrom 0 s = []
    end.
Proof.
  assert (Hhit : forall b x st,
             rmatch year4 (MState b x []) (fun st => Some st) = Some st ->
             exists v,
               YearText (firstn (length x - length (rest st)) x) v
               /\ yearsFrom 0 x = v :: yearsFrom 0 (rest st)
               /\ (length (rest st) < length x)%nat).
  { intros b x st E. generalize (year_here b x). rewrite E.
    intros [w [v [Hs [Hw Hv]]]]. exists v. rewrite Hw.
    split; [exact Hv|]. clear E Hw. subst x.
    split; [now apply yearsFrom_year|].
    rewrite length_app, (YearText_length Hv). lia. }
  induction s as [|c s IH]; intros skipped bef; rewrite search_eq.
  - destruct (rmatch year4 (MState bef [] []) (fun st => Some st))
      as [st|] eqn:E; [|reflexivity].
    cbn [text stop]. exact (Hhit _ _ _ E).
  - generalize (year_here bef (c :: s)).
    destruct (rmatch year4 (MState bef (c :: s) []) (fun st => Some st))
      as [st|] eqn:E.
    + intros _. cbn [text stop]. exact (Hhit _ _ _ E).
    + intros Y. specialize (IH (c :: skipped) (c :: bef)).
      rewrite yearsFrom_eq, Y.
      destruct (search year4 (c :: skipped) (c :: bef) s) as [m|];
        [|exact IH].
      destruct IH as [v [Hv [Hy Hlen]]]. exists v.
      split; [exact Hv|]. split; [exact Hy|]. cbn [length]. lia.
Qed.

(** The global match of the year pattern gives the years that occur one
    after the other. *)
Lemma scan_year4 (fuel : nat) :
  forall bef s,
    (length s < fuel)%nat ->
    map parseInt (map snd (fst (scan fuel year4 bef s)))
    = map Some (yearsFrom 0 s).
Proof.
  induction fuel as [|fuel IH]; intros bef s Hfuel; [lia|].
  cbn [scan]. generalize (search_year4 s [] bef).
  destruct (search year4 [] bef s) as [m|]; [|now intros ->].
  intros [v [Hv [Hy Hlen]]]. rewrite Hy.
  destruct (text m) as [|c0 w] eqn:Ht.
  { apply YearText_length in Hv. discriminate. }
  specialize (IH (before (stop m)) (rest (stop m))).
  destruct (scan fuel year4 (before (stop m)) (rest (stop m))) as [ms tail].
  cbn [fst snd map] in *. rewrite IH by lia.
  now rewrite (YearText_parseInt Hv).
Qed.

Lemma matchAll_year4 (t : jsstring) :
  map parseInt (matchAll year4 t) = map Some (yearsIn t).
Proof. unfold matchAll, scanAll, yearsIn. apply scan_year4. lia. Qed.

Lemma minOf_least (y : Z) (ys : list Z) :
  minOf (Some y) (map Some ys) = Some (least y ys).
Proof.
  revert y. induction ys as [|y' ys IH]; intros y; [reflexivity|].
  cbn [map minOf least]. now rewrite IH.
Qed.

Lemma maxOf_greatest (y : Z) (ys : list Z) :
  maxOf (Some y) (map Some ys) = Some (greatest y ys).
Proof.
  revert y. induction ys as [|y' ys IH]; intros y; [reflexivity|].
  cbn [map maxOf greatest]. now rewrite IH.
Qed.

Lemma least_spec (y : Z) (ys : list Z) :
  In (least y ys) (y :: ys) /\ Forall (fun v => least y ys <= v)%Z (y :: ys).
Proof.
  revert y. induction ys as [|y' ys IH]; intros y; cbn [least].
  - split; [now left | repeat constructor; lia].
  - destruct (IH y') as [Hin Hall].
    destruct (Z.min_spec y (least y' ys)) as [[Hlt ->]|[Hle ->]].
    + split; [now left|]. constructor; [lia|].
      eapply Forall_impl; [|exact Hall]. cbv beta. intros; lia.
    + split; [now right|]. constructor; [lia | exact Hall].
Qed.

Lemma greatest_spec (y : Z) (ys : list Z) :
  In (greatest y ys) (y :: ys)
  /\ Forall (fun v => v <= greatest y ys)%Z (y :: ys).
Proof.
  revert y. induction ys as [|y' ys IH]; intros y; cbn [greatest].
  - split; [now left | repeat constructor; lia].
  - destruct (IH y') as [Hin Hall].
    destruct (Z.max_spec y (greatest y' ys)) as [[Hlt ->]|[Hle ->]].
    + split; [now right|]. constructor; [lia | exact Hall].
    + split; [now left|]. constructor; [lia|].
      eapply Forall_impl; [|exact Hall]. cbv beta. intros; lia.
Qed.

(** The leftmost range: no range begins before it. *)
Lemma firstRange_spec (s : jsstring) (ab : Z * Z) :
  firstRange s = Some ab
  <-> exists pre s',
        s = pre ++ s' /\ rangeAt s' = Some ab
        /\ forall pre' s'',
             s = pre' ++ s'' -> (length pre' < length pre)%nat ->
             rangeAt s'' = None.
Proof.
  split.
  - induction s as [|c s IH]; rewrite firstRange_eq;
      destruct (rangeAt _) as [ab'|] eqn:R; try discriminate.
    + intros [= ->]. exists [], (c :: s). split; [reflexivity|].
      split; [exact R|]. intros pre' s'' _ H. cbn [length] in H. lia.
    + intros H. destruct (IH H) as [pre [s' [-> [R' Hmin]]]].
      exists (c :: pre), s'. split; [reflexivity|]. split; [exact R'|].
      intros pre' s'' E Hlen. destruct pre' as [|c' pre'].
      * cbn [app] in E. now subst s''.
      * cbn [app] in E. injection E as _ E. apply (Hmin pre' s'' E).
        cbn [length] in Hlen. lia.
  - intros [pre [s' [-> [R Hmin]]]]. induction pre as [|c pre IH].
    + cbn [app]. rewrite firstRange_eq. now rewrite R.
    + cbn [app]. rewrite firstRange_eq.
      rewrite (Hmin [] (c :: pre ++ s') eq_refl) by (cbn [length]; lia).
      apply IH. intros pre' s'' E Hlen.
      apply (Hmin (c :: pre') s''); [cbn [app]; now rewrite E|].
      cbn [length]. lia.
Qed.

Lemma yearsFrom_step (s : jsstring) :
  yearsFrom 0 s
  = match yearAt s with
    | Some y => y :: yearsFrom 0 (skipn 4 s)
    | None => match s with [] => [] | _ :: s' => yearsFrom 0 s' end
    end.
Proof.
  destruct (yearAt s) as [v|] eqn:Y.
  - apply yearAt_inv in Y. destruct Y as [w [post [-> [Hw ->]]]].
    now apply yearsFrom_year.
  - destruct s as [|c s]; [reflexivity|]. now rewrite yearsFrom_eq, Y.
Qed.

(** C5, as the code has it.  The result of the absolute pass is the one
    read directly from the text, without patterns.  If a range begins
    somewhere in the text (a year, white space or none, a hyphen, an en
    dash or "to" in either case, white space or none, a year), the result
    is the smaller and the larger year of the range that begins leftmost.
    Otherwise the years are taken one after the other, left to right,
    wherever four digits beginning with 19 or 20 stand, inside longer runs
    of digits or letters too, the scan going on after the four digits of
    each: none gives no years, one gives that year twice, more give the
    least and the greatest. *)
Theorem parseYearsAbsolute_spec (t : jsstring) :
  parseYearsAbsolute t = absoluteYears t
  /\ (forall s v,
        yearAt s = Some v <-> exists w post, s = w ++ post /\ YearText w v)
  /\ (forall s a b,
        rangeAt s = Some (a, b)
        <-> exists ya ws1 sep ws2 yb post,
              s = ya ++ ws1 ++ sep ++ ws2 ++ yb ++ post
              /\ YearText ya a /\ YearText yb b
              /\ forallb isSpace ws1 = true /\ forallb isSpace ws2 = true
              /\ Separator sep)
  /\ (forall ab,
        firstRange t = Some ab
        <-> exists pre s,
              t = pre ++ s /\ rangeAt s = Some ab
              /\ forall pre' s',
                   t = pre' ++ s' -> (length pre' < length pre)%nat ->
                   rangeAt s' = None)
  /\ (forall s,
        yearsFrom 0 s
        = match yearAt s with
          | Some y => y :: yearsFrom 0 (skipn 4 s)
          | None => match s with [] => [] | _ :: s' => yearsFrom 0 s' end
          end)
  /\ (forall y ys,
        In (least y ys) (y :: ys) /\ In (greatest y ys) (y :: ys)
        /\ Forall (fun v => least y ys <= v <= greatest y ys)%Z (y :: ys)).
Proof.
  split; [|split; [|split; [|split; [|split]]]].
  - unfold parseYearsAbsolute, absoluteYears, exec.
    generalize (search_range t [] []).
    destruct (search rangeRe [] [] t) as [f|].
    + intros [ya [a [ws1 [sep [ws2 [yb [b [Ht [Hya [Hyb [H1 [H2 [Hsep ->]]]]]]]]]]]]].
      rewrite Ht, (@range_years ya ws1 sep ws2 yb a b Hya Hyb H1 H2 Hsep).
      reflexivity.
    + intros ->. rewrite matchAll_year4.
      destruct (yearsIn t) as [|y [|y' ys]]; [reflexivity | reflexivity|].
      change (map Some (y :: y' :: ys)) with (Some y :: map Some (y' :: ys)).
      cbv beta iota. now rewrite minOf_least, maxOf_greatest.
  - intros s v. split.
    + intros H. apply yearAt_inv in H. destruct H as [w [post [E [Hw _]]]].
      now exists w, post.
    + intros [w [post [-> Hw]]]. now apply yearAt_YearText.
  - intros s a b. split; [apply rangeAt_inv|].
    intros [ya [ws1 [sep [ws2 [yb [post [-> [Hya [Hyb [H1 [H2 Hsep]]]]]]]]]]].
    now apply rangeAt_shape.
  - intros ab. apply firstRange_spec.
  - apply yearsFrom_step.
  - intros y ys. destruct (least_spec y ys) as [L1 L2].
    destruct (greatest_spec y ys) as [G1 G2].
    split; [exact L1|]. split; [exact G1|].
    rewrite Forall_forall in *. intros v Hv.
    specialize (L2 v Hv). specialize (G2 v Hv). cbv beta in *. lia.
Qed.

(** C5 fails as stated: these texts hold no year that stands alone, or just
    one, yet the digits 1900 inside the number 19000 are taken for a
    year. *)
Lemma parseYearsAbsolute_inside_number :
  standaloneYears (js "19000 wells") = []
  /\ parseYearsAbsolute (js "19000 wells") = mkYears (JNum 1900) (JNum 1900)
  /\ standaloneYears (js "in 2020 about 19000 wells") = [js "2020"]
  /\ parseYearsAbsolute (js "in 2020 about 19000 wells")
     = mkYears (JNum 1900) (JNum 2020).
Proof. repeat split; vm_compute; reflexivity. Qed.

(** The leftmost range decides, not the years around it; and of two
    ranges that overlap the one that begins first. *)
Lemma absoluteYears_examples :
  absoluteYears (js "since 1995, for 2019 - 2021 and 2030")
  = mkYears (JNum 2019) (JNum 2021)
  /\ absoluteYears (js "2020to2010-2030") = mkYears (JNum 2010) (JNum 2020)
  /\ absoluteYears (js "from 2015 and 2012 until 202020")
     = mkYears (JNum 2012) (JNum 2020)
  /\ yearsIn (js "1920202019") = [1920; 2020]%Z.
Proof. repeat split; vm_compute; reflexivity. Qed.

(** ** Relative years *)

Section Relative.

Variable toLowerCase : jsstring -> jsstring.
Hypothesis lc_ascii : AsciiLowering toLowerCase.

Ltac phrase :=
  unfold parseYearsRelative, wordsToNum;
  rewrite lc_ascii by reflexivity;
  match goal with
  | |- context [exec relativeRe ?s] =>
      let m := fresh "m" in
      set (m := exec relativeRe s); vm_compute in m; subst m
  end;
  cbn [group groups Nat.eqb];
  rewrite lc_ascii by reflexivity;
  match goal with
  | |- context [lookup ?k numberWords] =>
      let n := fresh "n" in
      set (n := lookup k numberWords); vm_compute in n; subst n
  end;
  cbv beta iota.

(** Every phrase made of one of the four adverbs, a number from 1 to 10 in
    digits or in words, and "year" or "years" gives the window of that many
    years ending at the anchor. *)
Lemma relative_phrases (adverb number unit : string) (n a : Z) :
  In adverb ["last"; "past"; "previous"; "recent"]%string ->
  In (number, n) numberWords ->
  In unit ["year"; "years"]%string ->
  a <> 0%Z ->
  parseYearsRelative toLowerCase
    (js adverb ++ js " " ++ js number ++ js " " ++ js unit) (Some a)
  = Some (mkYears (JNum (a - (n - 1))) (JNum a)).
Proof.
  intros Hk Hn Hu Ha. apply Z.eqb_neq in Ha.
  unfold numberWords in Hn. cbn [In] in Hk, Hn, Hu.
  repeat (destruct Hk as [<-|Hk]; [|]); try contradiction;
    repeat (destruct Hu as [<-|Hu]; [|]); try contradiction;
    repeat (destruct Hn as [Hn|Hn];
            [injection Hn as <- <-|]); try contradiction;
    phrase; rewrite Ha; reflexivity.
Qed.

(** A window is read at an anchor year that is there and not 0, and spans
    between one and ten years. *)
Lemma relative_window (t : jsstring) (anchor : option Z) (ys : Years) :
  parseYearsRelative toLowerCase t anchor = Some ys ->
  exists a n,
    anchor = Some a /\ a <> 0%Z /\ (1 <= n <= 10)%Z
    /\ ys = mkYears (JNum (a - (n - 1))) (JNum a).
Proof.
  unfold parseYearsRelative.
  destruct (exec relativeRe (toLowerCase t)) as [m|]; [|discriminate].
  destruct anchor as [a|]; [|discriminate].
  destruct (Z.eqb_spec a 0) as [|Ha]; [discriminate|].
  destruct (group 2 (groups m)) as [w|]; [|discriminate].
  destruct (wordsToNum toLowerCase w) as [n|] eqn:Hn; [|discriminate].
  apply lookup_numberWords_range in Hn.
  destruct (n =? 0)%Z; [discriminate|].
  intros [= <-]. exists a, n. auto.
Qed.

(** The window of a match whose second group reads [n]. *)
Lemma relative_match (t : jsstring) (anchor : option Z) (m : found)
      (w : jsstring) (n a : Z) :
  exec relativeRe (toLowerCase t) = Some m ->
  group 2 (groups m) = Some w ->
  wordsToNum toLowerCase w = Some n ->
  anchor = Some a -> a <> 0%Z ->
  (1 <= n <= 10)%Z
  /\ parseYearsRelative toLowerCase t anchor
     = Some (mkYears (JNum (a - (n - 1))) (JNum a)).
Proof.
  intros Hm Hw Hn -> Ha.
  assert (Hr : (1 <= n <= 10)%Z)
    by (apply (lookup_numberWords_range (toLowerCase w)); exact Hn).
  split; [exact Hr|].
  unfold parseYearsRelative. rewrite Hm, Hw, Hn.
  destruct (Z.eqb_spec a 0) as [E|_]; [contradiction|].
  destruct (Z.eqb_spec n 0) as [E|_]; [lia | reflexivity].
Qed.

End Relative.

(** ** The request handler *)

Lemma haveKey_true (env : option jsstring) : haveKey env = true.
Proof.
  unfold haveKey, GEMINI_KEY, nonEmpty.
  destruct env as [[|c k]|]; reflexivity.
Qed.

Lemma afterTerminator_app (pre x : jsstring) :
  afterTerminator x = true -> afterTerminator (pre ++ x) = true.
Proof.
  intros H. induction pre as [|c pre IH]; [exact H|].
  cbn [app afterTerminator]. rewrite IH. apply orb_true_r.
Qed.

Lemma existsb_app_r (p : cu -> bool) (a b : jsstring) :
  existsb p b = true -> existsb p (a ++ b) = true.
Proof. intros H. rewrite existsb_app, H. apply orb_true_r. Qed.

(** The guard rejects only statements that have a terminator with further
    content after it. *)
Lemma rejected_sound (sql : jsstring) :
  rejected sql = true -> afterTerminator sql = true.
Proof.
  unfold rejected, test. destruct (exec guardRe sql) as [m|] eqn:E;
    [intros _ | discriminate].
  apply exec_sound in E. destruct E as [-> Hm].
  unfold guardRe, cats, lit in Hm. cbn [fold_right seq js list_ascii_of_string map] in Hm.
  apply Matches_cat in Hm. destruct Hm as [w1 [wa [-> [H1 Hm]]]].
  apply Matches_cat in Hm. destruct Hm as [w2 [wb [-> [H2 Hm]]]].
  apply Matches_cat in Hm. destruct Hm as [w3 [wc [-> [H3 Hm]]]].
  apply Matches_eps in Hm. subst wc.
  apply Matches_chr in H1. subst w1.
  apply Matches_cls in H3. destruct H3 as [c [-> Hc]].
  apply afterTerminator_app. cbn [app afterTerminator].
  change (N.eqb (N_of_ascii ";") 59) with true. cbn [andb].
  apply orb_true_iff. left.
  rewrite <- !app_assoc. apply existsb_app_r. cbn [app existsb].
  now rewrite Hc.
Qed.

(** *** What the guard rejects, exactly *)

Lemma lineTerminator_isSpace (c : cu) :
  isLineTerminator c = true -> isSpace c = true.
Proof.
  unfold isLineTerminator. intros H.
  repeat (apply orb_true_iff in H; destruct H as [H|H]);
    apply N.eqb_eq in H; subst c; reflexivity.
Qed.

Lemma contentOnLine_dots (ds : jsstring) (c : cu) (post : jsstring) :
  forallb (fun x => negb (isLineTerminator x)) ds = true ->
  isSpace c = false ->
  contentOnLine (ds ++ c :: post) = true.
Proof.
  intros Hds Hc. induction ds as [|d ds IH]; cbn [app contentOnLine].
  - destruct (isLineTerminator c) eqn:E.
    + apply lineTerminator_isSpace in E. congruence.
    + now rewrite Hc.
  - cbn [forallb] in Hds. apply andb_true_iff in Hds. destruct Hds as [Hd Hds].
    apply negb_true_iff in Hd. rewrite Hd, (IH Hds). apply orb_true_r.
Qed.

Lemma terminatorOnLine_app (pre x : jsstring) :
  terminatorOnLine x = true -> terminatorOnLine (pre ++ x) = true.
Proof.
  intros H. induction pre as [|c pre IH]; [exact H|].
  cbn [app terminatorOnLine]. rewrite IH. apply orb_true_r.
Qed.

(** The continuation of [.*] in the guard: one more code unit that is not
    white space. *)
Definition guardTail (st : mstate) : option mstate :=
  rmatch (Cat nonspace Eps) st (fun st' => Some st').

Lemma rmatch_dot_cons (A : Type) (bef s : jsstring) (c : cu)
      (cps : list (nat * jsstring)) (k : mstate -> option A) :
  isLineTerminator c = false ->
  rmatch dot (MState bef (c :: s) cps) k = k (MState (c :: bef) s cps).
Proof. intros H. unfold dot. cbn [rmatch rest before caps]. now rewrite H. Qed.

Lemma star_dot_finds (s : jsstring) :
  forall fuel bef cps,
    (length s <= fuel)%nat ->
    contentOnLine s = true ->
    starLoop (rmatch dot) guardTail fuel (MState bef s cps) <> None.
Proof.
  induction s as [|c s IH]; intros fuel bef cps Hfuel Hs; [discriminate|].
  cbn [contentOnLine] in Hs. cbn [length] in Hfuel.
  destruct (isLineTerminator c) eqn:Hlt; [discriminate|].
  destruct fuel as [|fuel]; [lia|].
  rewrite starLoop_S, rmatch_dot_cons by exact Hlt. cbn [rest length].
  replace (length s <? S (length s))%nat with true
    by (symmetry; apply Nat.ltb_lt; lia).
  destruct (starLoop (rmatch dot) guardTail fuel (MState (c :: bef) s cps))
    eqn:E; [discriminate|].
  apply orb_true_iff in Hs. destruct Hs as [Hc|Hs].
  - unfold guardTail, nonspace. cbn [rmatch rest]. rewrite Hc. discriminate.
  - exfalso. revert E. apply IH; [lia | exact Hs].
Qed.

Lemma guardRe_at_terminator (bef s : jsstring) :
  contentOnLine s = true ->
  rmatch guardRe (MState bef (59 :: s) []) (fun st => Some st) <> None.
Proof.
  intros Hs. unfold guardRe, cats, lit.
  cbn [fold_right seq js list_ascii_of_string map].
  change (N_of_ascii ";") with 59. unfold chr at 1.
  cbn [rmatch rest before caps]. rewrite N.eqb_refl.
  rewrite (starLoop_ext (rmatch dot) (rmatch_ext dot) _ guardTail).
  - now apply star_dot_finds.
  - intros st. reflexivity.
Qed.

Lemma search_terminator (s : jsstring) :
  terminatorOnLine s = true ->
  forall skipped bef, search guardRe skipped bef s <> None.
Proof.
  induction s as [|c s IH]; intros Hs skipped bef; [discriminate|].
  cbn [search].
  destruct (rmatch guardRe (MState bef (c :: s) []) (fun st => Some st))
    eqn:E; [discriminate|].
  apply IH. cbn [terminatorOnLine] in Hs.
  apply orb_true_iff in Hs. destruct Hs as [Hs|Hs]; [|exact Hs].
  apply andb_true_iff in Hs. destruct Hs as [Hc Hs].
  apply N.eqb_eq in Hc. subst c.
  now elim (guardRe_at_terminator bef s Hs).
Qed.

(** The guard rejects a statement exactly when a terminator is followed, on
    the same line, by something other than white space. *)
Lemma rejected_exactly (sql : jsstring) :
  rejected sql = terminatorOnLine sql.
Proof.
  destruct (terminatorOnLine sql) eqn:Hs.
  - unfold rejected, test, exec.
    generalize (search_terminator sql Hs [] []).
    now destruct (search guardRe [] [] sql).
  - destruct (rejected sql) eqn:Hr; [|reflexivity].
    unfold rejected, test in Hr.
    destruct (exec guardRe sql) as [m|] eqn:E; [|discriminate].
    apply exec_sound in E. destruct E as [Hsql Hm].
    unfold guardRe, cats, lit in Hm.
    cbn [fold_right seq js list_ascii_of_string map] in Hm.
    apply Matches_cat in Hm. destruct Hm as [w1 [wa [Hw [H1 Hm]]]].
    apply Matches_cat in Hm. destruct Hm as [w2 [wb [-> [H2 Hm]]]].
    apply Matches_cat in Hm. destruct Hm as [w3 [wc [-> [H3 Hm]]]].
    apply Matches_eps in Hm. subst wc.
    apply Matches_chr in H1. subst w1.
    apply Matches_star_cls in H2.
    apply Matches_cls in H3. destruct H3 as [c [-> Hc]].
    apply negb_true_iff in Hc.
    rewrite Hsql, Hw in Hs.
    rewrite terminatorOnLine_app in Hs; [discriminate|].
    change (N_of_ascii ";") with 59. cbn [app terminatorOnLine].
    rewrite N.eqb_refl. cbn [andb]. apply orb_true_iff. left.
    rewrite <- !app_assoc. cbn [app].
    now apply contentOnLine_dots.
Qed.

Section Handler.

Variable toLowerCase : jsstring -> jsstring.
Variable newRegExp : jsstring -> option (jsstring -> bool).
Variable db : Table.
Variable distinctDistricts : list (jsstring * jsstring).
Variable distinctStates : list jsstring.
Variable prepareAll : jsstring -> option Table.
Variable gemini : nat -> reply.
Variable envGeminiKey : option jsstring.

Local Abbreviation resolvePlaceSmart' :=
  (resolvePlaceSmart newRegExp distinctDistricts distinctStates).
Local Abbreviation parseQuestion' :=
  (parseQuestion toLowerCase db gemini envGeminiKey).
Local Abbreviation fallbacks' :=
  (fallbacks toLowerCase db prepareAll gemini envGeminiKey).
Local Abbreviation correctiveStep' :=
  (correctiveStep toLowerCase db prepareAll gemini envGeminiKey).
Local Abbreviation apiAnswer' :=
  (apiAnswer toLowerCase newRegExp db distinctDistricts distinctStates
             prepareAll gemini envGeminiKey).

Lemma merge_left (p llm : Parsed) : merge p llm = merge llm llm.
Proof. reflexivity. Qed.

Lemma place_applyRelative (p : Parsed) (rel : option Years) :
  place (applyRelative p rel) = place p.
Proof.
  unfold applyRelative. destruct (truthy (y1 (years p))); [reflexivity|].
  now destruct rel.
Qed.

Lemma place_corrected (question : jsstring) (llm : Parsed) :
  place (corrected toLowerCase db question llm) = place llm.
Proof. unfold corrected. now rewrite place_applyRelative. Qed.

Lemma correctiveStep_accepted (question : jsstring) (call : nat) (r : Run)
      (llm : Parsed) :
  geminiParse (gemini call) = Some llm -> accepted db llm = true ->
  let p := corrected toLowerCase db question llm in
  correctiveStep' question call r
  = match prepareAll (buildSQL db p) with
    | Some rows' => mkRun p (buildSQL db p) rows' (buildSQL db p :: executed r)
    | None => mkRun p (buildSQL db p) (rows r) (buildSQL db p :: executed r)
    end.
Proof.
  intros Hllm Hacc p. unfold correctiveStep.
  rewrite haveKey_true, Hllm. unfold accepted in Hacc.
  destruct (level (place llm)); try discriminate; rewrite Hacc; reflexivity.
Qed.

Lemma correctiveStep_declined (question : jsstring) (call : nat) (r : Run) :
  match geminiParse (gemini call) with
  | Some llm => accepted db llm = false
  | None => True
  end ->
  correctiveStep' question call r = r.
Proof.
  unfold correctiveStep. rewrite haveKey_true.
  destruct (geminiParse (gemini call)) as [llm|]; [|reflexivity].
  unfold accepted. destruct (level (place llm)); intros H; try reflexivity;
    now rewrite H.
Qed.

(** What the recovery hands to the store.  Entered with no rows, it asks the
    service once.  If the place it returns is confirmed by the probe, the
    corrected query is built and executed once; when that finds no rows
    either (or fails) and [rel] holds a window, one more statement is
    executed for the same corrected place, with the years reset.  If the
    service fails or the probe does not confirm its place, the place stays
    as it was. *)
Lemma fallbacks_corrected_log (question : jsstring) (rel : option Years)
        (call : nat) (r0 : Run) :
  rows r0 = [] ->
  let log := snd (fallbacks' question rel call r0) in
  let again (p : Parsed) :=
    match rel with Some _ => [buildSQL db (latestOnly db p)] | None => [] end in
  match geminiParse (gemini call) with
  | Some llm =>
      if accepted db llm then
        let p := corrected toLowerCase db question llm in
        place p = place llm
        /\ place (latestOnly db p) = place llm
        /\ log = rev (executed r0) ++ buildSQL db p
                   :: match prepareAll (buildSQL db p) with
                      | Some (_ :: _) => []
                      | _ => again p
                      end
      else log = rev (executed r0) ++ again (parsed r0)
  | None => log = rev (executed r0) ++ again (parsed r0)
  end.
Proof.
  intros Hrows log again. subst log. unfold fallbacks.
  assert (Hdeclined :
            correctiveStep' question call r0 = r0 ->
            snd (let r1 := correctiveStep' question call r0 in
                 match rows r1, rel with
                 | [], Some _ =>
                     match prepareAll (buildSQL db (latestOnly db (parsed r1))) with
                     | Some rows2 =>
                         (Answer (latestOnly db (parsed r1))
                                 (buildSQL db (latestOnly db (parsed r1))) rows2,
                          rev (buildSQL db (latestOnly db (parsed r1)) :: executed r1))
                     | None =>
                         (ServerError,
                          rev (buildSQL db (latestOnly db (parsed r1)) :: executed r1))
                     end
                 | _, _ =>
                     (Answer (parsed r1) (sql r1) (rows r1), rev (executed r1))
                 end)
            = rev (executed r0) ++ again (parsed r0)).
  { intros ->. cbv zeta. rewrite Hrows. subst again. cbv beta.
    destruct rel as [ys|]; [|cbn [snd]; now rewrite app_nil_r].
    destruct (prepareAll (buildSQL db (latestOnly db (parsed r0))));
      cbn [snd rev]; reflexivity. }
  destruct (geminiParse (gemini call)) as [llm|] eqn:Hllm.
  - destruct (accepted db llm) eqn:Hacc.
    + split; [apply place_corrected|]. split; [apply place_corrected|].
      rewrite (correctiveStep_accepted question call r0 Hllm Hacc).
      cbv zeta. subst again. cbv beta.
      destruct (prepareAll (buildSQL db (corrected toLowerCase db question llm)))
        as [[|row rows1]|]; cbn [rows parsed executed sql].
      * destruct rel as [ys|].
        -- fold (latestOnly db (corrected toLowerCase db question llm)).
           destruct (prepareAll (buildSQL db (latestOnly db (corrected toLowerCase db question llm))));
             cbn [snd rev]; now rewrite <- app_assoc.
        -- cbn [snd rev]. reflexivity.
      * cbn [snd rev]. reflexivity.
      * rewrite Hrows. destruct rel as [ys|].
        -- fold (latestOnly db (corrected toLowerCase db question llm)).
           destruct (prepareAll (buildSQL db (latestOnly db (corrected toLowerCase db question llm))));
             cbn [snd rev]; now rewrite <- app_assoc.
        -- cbn [snd rev]. reflexivity.
    + apply Hdeclined. apply correctiveStep_declined. now rewrite Hllm.
  - apply Hdeclined. apply correctiveStep_declined. now rewrite Hllm.
Qed.


(** The recovery is what [/api/answer] does when its first statement
    passes the guard and finds no rows. *)
Lemma apiAnswer_enters_fallbacks (text : jsstring) (place0 : Place)
      (p2 : Parsed) (rel : option Years) (asked : bool) :
  collapseWs text <> [] ->
  resolvePlaceSmart' (collapseWs text) = Some place0 ->
  parseQuestion' (collapseWs text) place0 = (p2, rel, asked) ->
  rejected (buildSQL db p2) = false ->
  prepareAll (buildSQL db p2) = Some [] ->
  apiAnswer' text
  = fallbacks' (collapseWs text) rel (if asked then 1 else 0)%nat
               (mkRun p2 (buildSQL db p2) [] [buildSQL db p2]).
Proof.
  intros Hq Hpl Hp Hrej Hrows. unfold apiAnswer.
  destruct (collapseWs text) as [|c q] eqn:E; [now elim Hq|].
  now rewrite Hpl, Hp, Hrej, Hrows.
Qed.

Lemma fallbacks_log (question : jsstring) (rel : option Years) (call : nat)
      (r0 : Run) :
  (exists more,
     snd (fallbacks' question rel call r0) = rev (executed r0) ++ more)
  /\ forall e, fst (fallbacks' question rel call r0) <> BadRequest e.
Proof.
  unfold fallbacks.
  assert (Hex : exists more,
             executed (correctiveStep' question call r0) = more ++ executed r0).
  { unfold correctiveStep, recover.
    destruct haveKey; [|now exists []].
    destruct (geminiParse (gemini call)) as [llm|]; [|now exists []].
    destruct (level (place llm)); try (now exists []).
    - destruct (probeState db (state (place llm))); [|now exists []].
      match goal with |- context [prepareAll ?q] =>
        destruct (prepareAll q); now exists [q] end.
    - destruct (probeDistrict db (state (place llm)) (district (place llm)));
        [|now exists []].
      match goal with |- context [prepareAll ?q] =>
        destruct (prepareAll q); now exists [q] end. }
  destruct Hex as [more Hex]. cbv zeta.
  destruct (rows (correctiveStep' question call r0)) as [|row rows1].
  - destruct rel as [ys|].
    + match goal with |- context [prepareAll ?q] =>
        destruct (prepareAll q) end;
        (split; [|discriminate]); cbn [snd rev]; rewrite Hex, rev_app_distr;
        eexists; rewrite <- app_assoc; reflexivity.
    + split; [|discriminate]. cbn [snd]. rewrite Hex, rev_app_distr.
      eexists; reflexivity.
  - split; [|destruct rel; discriminate].
    destruct rel; cbn [snd]; rewrite Hex, rev_app_distr; eexists; reflexivity.
Qed.

(** A statement the guard rejects is answered with a client error and is
    not handed to the store. *)
Lemma apiAnswer_rejected (text : jsstring) (place0 : Place) :
  collapseWs text <> [] ->
  resolvePlaceSmart' (collapseWs text) = Some place0 ->
  rejected (buildSQL db (fst (fst (parseQuestion' (collapseWs text) place0))))
  = true ->
  apiAnswer' text = (BadRequest (js "Invalid SQL"), []).
Proof.
  intros Hq Hpl Hrej. unfold apiAnswer.
  destruct (collapseWs text) as [|c q] eqn:E; [now elim Hq|].
  rewrite Hpl.
  destruct (parseQuestion' (c :: q) place0) as [[p2 rel] asked].
  cbn [fst] in Hrej. now rewrite Hrej.
Qed.

(** A first statement the guard lets through is handed to the store, and
    the answer is no client error. *)
Lemma apiAnswer_passed (text : jsstring) (place0 : Place) :
  collapseWs text <> [] ->
  resolvePlaceSmart' (collapseWs text) = Some place0 ->
  let sql0 :=
    buildSQL db (fst (fst (parseQuestion' (collapseWs text) place0))) in
  rejected sql0 = false ->
  (exists more, snd (apiAnswer' text) = sql0 :: more)
  /\ forall e, fst (apiAnswer' text) <> BadRequest e.
Proof.
  intros Hq Hpl sql0 Hrej. subst sql0. unfold apiAnswer.
  destruct (collapseWs text) as [|c q] eqn:E; [now elim Hq|].
  rewrite Hpl.
  destruct (parseQuestion' (c :: q) place0) as [[p2 rel] asked].
  cbn [fst] in Hrej. rewrite Hrej.
  destruct (prepareAll (buildSQL db p2)) as [[|row rows0]|].
  - destruct (fallbacks_log (c :: q) rel (if asked then 1 else 0)%nat
                (mkRun p2 (buildSQL db p2) [] [buildSQL db p2]))
      as [[more Hlog] Hresp].
    split; [|exact Hresp]. exists more. rewrite Hlog. reflexivity.
  - split; [now exists [] | discriminate].
  - split; [now exists [] | discriminate].
Qed.


(** The [rel] of step 2 and whether step 3 asks the service. *)
Lemma parseQuestion_rel (question : jsstring) (place0 : Place) :
  snd (fst (parseQuestion' question place0))
  = parseYearsRelative toLowerCase question
      (latestYearForState db (state place0))
  /\ snd (parseQuestion' question place0)
     = match level place0 with LUnknown => true | _ => false end.
Proof.
  unfold parseQuestion. cbv zeta. cbn [fst snd place state].
  split; [reflexivity|]. rewrite place_applyRelative. cbn [place].
  destruct (level place0); try reflexivity. apply haveKey_true.
Qed.

Lemma latestOnly_years (p : Parsed) :
  years (latestOnly db p)
  = mkYears (ofLatest (maxYear (scopeRows db p)))
            (ofLatest (maxYear (scopeRows db p))).
Proof.
  unfold latestOnly, latestYearForState, scopeRows. cbn [setYears years].
  now destruct (nonEmpty (state (place p))).
Qed.

(** C7, as the code has it.  The first statement has passed the guard and
    found no rows.  The recovery asks the service once (its second answer,
    when step 3 had asked it for an unresolved place).  If the place it
    returns is confirmed by the probe, the corrected query is built and
    executed once; when that finds no rows either (or fails) and the
    relative pass of step 2 had given a window, one more statement is
    executed for the same corrected place, its years reset to the latest
    year of the rows of the state of that place.  If the service fails or
    the probe does not confirm its place, the place stays as it was, and
    the only further statement is that reset, for the query as it was.  The
    window of step 2 is the one read at the latest year of the state
    resolved by the deterministic passes: without such a year there is no
    window, whatever the question says. *)
Theorem fallbacks_reexecution (text : jsstring) (place0 : Place) :
  let question := collapseWs text in
  let p2 := fst (fst (parseQuestion' question place0)) in
  let first := buildSQL db p2 in
  let rel := parseYearsRelative toLowerCase question
               (latestYearForState db (state place0)) in
  let call := match level place0 with LUnknown => 1 | _ => 0 end%nat in
  let again (p : Parsed) :=
    match rel with Some _ => [buildSQL db (latestOnly db p)] | None => [] end in
  let log := snd (apiAnswer' text) in
  question <> [] ->
  resolvePlaceSmart' question = Some place0 ->
  rejected first = false ->
  prepareAll first = Some [] ->
  match geminiParse (gemini call) with
  | Some llm =>
      if accepted db llm then
        let p := corrected toLowerCase db question llm in
        place p = place llm
        /\ place (latestOnly db p) = place llm
        /\ years (latestOnly db p)
           = mkYears (ofLatest (maxYear (scopeRows db p)))
                     (ofLatest (maxYear (scopeRows db p)))
        /\ log = first :: buildSQL db p
                   :: match prepareAll (buildSQL db p) with
                      | Some (_ :: _) => []
                      | _ => again p
                      end
      else log = first :: again p2
  | None => log = first :: again p2
  end.
Proof.
  intros question p2 first rel call again log Hq Hpl Hrej Hrows.
  destruct (parseQuestion_rel question place0) as [Hrel Hasked].
  assert (Hlog : log = snd (fallbacks' question rel call
                              (mkRun p2 first [] [first]))).
  { assert (Hpq : parseQuestion' question place0
                  = (p2, rel,
                     match level place0 with LUnknown => true | _ => false end)).
    { subst p2 rel. rewrite <- Hrel, <- Hasked.
      now destruct (parseQuestion' question place0) as [[? ?] ?]. }
    subst log.
    rewrite (@apiAnswer_enters_fallbacks text place0 _ _ _ Hq Hpl Hpq Hrej
               Hrows).
    fold question. subst call. now destruct (level place0). }
  generalize (@fallbacks_corrected_log question rel call
                (mkRun p2 first [] [first]) eq_refl).
  cbv zeta. cbn [executed rev app parsed]. rewrite <- Hlog.
  destruct (geminiParse (gemini call)) as [llm|]; [|auto].
  destruct (accepted db llm); [|auto].
  intros [H1 [H2 H3]]. split; [exact H1|]. split; [exact H2|].
  split; [apply latestOnly_years | exact H3].
Qed.

End Handler.

Lemma parseQuestion_env (lc : jsstring -> jsstring) (db : Table)
      (gemini : nat -> reply) (env : option jsstring) (question : jsstring)
      (place0 : Place) :
  parseQuestion lc db gemini env question place0
  = parseQuestion lc db gemini None question place0.
Proof. unfold parseQuestion. now rewrite !haveKey_true. Qed.

(** C7 fails as stated: the first statement finds no rows, the service
    returns a district that the probe confirms, and two statements, not one,
    are then executed for the corrected place. *)
Lemma fallbacks_reexecute_twice :
  let llm := districtPlace (js "Gujarat") (js "Mehsana") in
  sampleStore criticalGujaratStmt = Some []
  /\ option_map place (geminiParse mehsanaReply) = Some llm
  /\ probeDistrict sampleDb (state llm) (district llm) = true
  /\ snd (apiAnswer lowerASCII syntaxError sampleDb sampleDistricts
                    sampleStates sampleStore (fun _ => mehsanaReply) None
                    criticalQuestion)
     = [criticalGujaratStmt; mehsanaStmt "2021" "2022";
        mehsanaStmt "2022" "2022"].
Proof. repeat split; vm_compute; reflexivity. Qed.

(** A relative expression alone gives no third statement.  The state of
    the abbreviation TN has no row in the sample table, so step 2 has no
    anchor and no window; "last 15 years" is no window either.  After the
    statement of the accepted correction nothing more is executed. *)
Lemma relative_expression_without_window :
  let store := fun _ : jsstring => Some (@nil Row) in
  let run (text : jsstring) :=
    snd (apiAnswer lowerASCII syntaxError sampleDb sampleDistricts
                   sampleStates store (fun _ => mehsanaReply) None text) in
  test relativeRe (js "critical districts in tn over the last 3 years") = true
  /\ length (run (js "critical districts in TN over the last 3 years")) = 2%nat
  /\ test relativeRe (js "critical districts in gujarat over the last 15 years")
     = true
  /\ length (run (js "critical districts in Gujarat over the last 15 years"))
     = 2%nat.
Proof. repeat split; vm_compute; reflexivity. Qed.

Lemma fallbacks_reexecution_witness :
  snd (apiAnswer lowerASCII syntaxError sampleDb sampleDistricts sampleStates
                 sampleStore (fun _ => mehsanaReply) None criticalQuestion)
  = [criticalGujaratStmt; mehsanaStmt "2021" "2022"; mehsanaStmt "2022" "2022"].
Proof.
  assert (Hq : collapseWs criticalQuestion <> []) by (vm_compute; discriminate).
  assert (Hpl : resolvePlaceSmart syntaxError sampleDistricts sampleStates
                  (collapseWs criticalQuestion)
                = Some (statePlace (js "Gujarat")))
    by (vm_compute; reflexivity).
  generalize (@fallbacks_reexecution lowerASCII syntaxError sampleDb
                sampleDistricts sampleStates sampleStore
                (fun _ => mehsanaReply) None criticalQuestion
                (statePlace (js "Gujarat")) Hq Hpl).
  cbv zeta. intros H.
  assert (H' := H ltac:(vm_compute; reflexivity) ltac:(vm_compute; reflexivity)).
  clear H. vm_compute in H'. vm_compute.
  destruct H' as [_ [_ [_ H']]]. exact H'.
Defined.

(** C8, the failing input.  The statement built from this answer of the
    service has a terminator with [ORDER BY ...] after it, on the next line.
    The guard does not reject it, since [.] stops at a line break: whatever
    the store, the statement is handed to it and the caller gets no client
    error. *)
Theorem guard_misses_line_break (store : jsstring -> option Table)
        (env : option jsstring) :
  let out := apiAnswer lowerASCII syntaxError sampleDb sampleDistricts
                       sampleStates store (fun _ => terminatorReply) env
                       gujratQuestion in
  afterTerminator terminatorStmt = true
  /\ rejected terminatorStmt = false
  /\ hd_error (snd out) = Some terminatorStmt
  /\ forall e, fst out <> BadRequest e.
Proof.
  intros out. split; [vm_compute; reflexivity|].
  split; [vm_compute; reflexivity|].
  assert (Hq : collapseWs gujratQuestion <> []) by (vm_compute; discriminate).
  assert (Hpl : resolvePlaceSmart syntaxError sampleDistricts sampleStates
                  (collapseWs gujratQuestion) = Some unknownPlace)
    by (vm_compute; reflexivity).
  assert (Hsql : buildSQL sampleDb
                   (fst (fst (parseQuestion lowerASCII sampleDb
                                (fun _ => terminatorReply) env
                                (collapseWs gujratQuestion) unknownPlace)))
                 = terminatorStmt)
    by (rewrite parseQuestion_env; vm_compute; reflexivity).
  destruct (@apiAnswer_passed lowerASCII syntaxError sampleDb sampleDistricts
              sampleStates store (fun _ => terminatorReply) env
              gujratQuestion unknownPlace Hq Hpl)
    as [[more Hlog] Hresp].
  - rewrite Hsql. vm_compute. reflexivity.
  - subst out. rewrite Hlog, Hsql. split; [reflexivity | exact Hresp].
Qed.

(** The same guard is not applied to the statements rebuilt during the
    recovery: this one it would reject, and it is handed to the store. *)
Lemma recovery_statement_unguarded :
  rejected injectionStmt = true
  /\ forall store,
      store criticalGujaratStmt = Some [] ->
      exists more,
        snd (apiAnswer lowerASCII syntaxError sampleDb sampleDistricts
                       sampleStates store (fun _ => injectionReply) None
                       criticalQuestion)
        = criticalGujaratStmt :: injectionStmt :: more.
Proof.
  split; [vm_compute; reflexivity|]. intros store Hstore.
  unfold apiAnswer.
  replace (collapseWs criticalQuestion) with criticalQuestion
    by (vm_compute; reflexivity).
  unfold criticalQuestion at 1. cbn [js list_ascii_of_string map].
  set (pl := resolvePlaceSmart _ _ _ _). vm_compute in pl. subst pl.
  cbv iota beta.
  set (pq := parseQuestion _ _ _ _ _ _). vm_compute in pq. subst pq.
  cbv iota beta.
  set (s0 := buildSQL _ _).
  replace s0 with criticalGujaratStmt by (vm_compute; reflexivity).
  replace (rejected criticalGujaratStmt) with false by (vm_compute; reflexivity).
  rewrite Hstore. unfold fallbacks, correctiveStep.
  rewrite haveKey_true.
  replace (geminiParse injectionReply)
    with (Some (mkParsed (js "LIST")
                  (mkYears (JNum 2021)
                     (JStr (js "2022; DROP TABLE gw_assessment_core; --")))
                  (districtPlace (js "Gujarat") (js "Mehsana"))
                  (Some (js "Critical")) (js "gemini")))
    by reflexivity.
  cbn [level place districtPlace state district].
  replace (probeDistrict sampleDb (Some (js "Gujarat")) (Some (js "Mehsana")))
    with true by (vm_compute; reflexivity).
  unfold recover. cbn [parsed executed].
  set (s1 := buildSQL _ _).
  replace s1 with injectionStmt by (vm_compute; reflexivity).
  destruct (store injectionStmt) as [[|row rows1]|]; cbn [rows];
    try (match goal with |- context [store ?q] => destruct (store q) end);
    cbn [snd rev app executed]; eexists; reflexivity.
Qed.

(** ** The relative pass in the handler *)

Section RelativePass.

Variable toLowerCase : jsstring -> jsstring.
Variable db : Table.
Variable prepareAll : jsstring -> option Table.
Variable gemini : nat -> reply.
Variable envGeminiKey : option jsstring.

Hypothesis lc_ascii : AsciiLowering toLowerCase.

Local Abbreviation parseQuestion' :=
  (parseQuestion toLowerCase db gemini envGeminiKey).

Lemma years_applyRelative (p : Parsed) (rel : option Years) :
  years (applyRelative p rel)
  = if truthy (y1 (years p)) then years p
    else match rel with Some w => w | None => years p end.
Proof.
  unfold applyRelative. destruct (truthy (y1 (years p))); [reflexivity|].
  now destruct rel.
Qed.

(** C4, as the code has it.  The relative pass gives a window only at an
    anchor year that is there and not 0, the latest year of the rows of the
    state in hand; it is written into the query wherever the years in hand
    have no first bound.  In step 2 the years in hand are those of the
    absolute pass, so the window is written exactly when that pass found
    nothing.  When a corrective parse is taken over (step 3 for an
    unresolved place, step 5 after an accepted correction), the years in
    hand are those of the service, anchored at the state it names: the
    window is written exactly when the service names no first year,
    whatever the absolute pass had found.  When the pattern matches, with
    the number [n] read from its second group, the window is that of [n]
    years ending at the anchor, [n] being between 1 and 10; so it is for
    every phrase made of one of the four adverbs, such a number in digits
    or in words, and "year" or "years": "last 3 years" at anchor 2021 is
    2019 to 2021. *)
Theorem relative_pass (question : jsstring) (place0 : Place) :
  let absolute := parseYearsAbsolute question in
  let window (pl : Place) :=
    parseYearsRelative toLowerCase question
      (latestYearForState db (state pl)) in
  let orWindow (ys : Years) (pl : Place) :=
    if truthy (y1 ys) then ys
    else match window pl with Some w => w | None => ys end in
  let p2 := fst (fst (parseQuestion' question place0)) in
  (truthy (y1 absolute) = false <-> absolute = noYears)
  /\ (forall t anchor w,
        parseYearsRelative toLowerCase t anchor = Some w ->
        exists a n,
          anchor = Some a /\ a <> 0%Z /\ (1 <= n <= 10)%Z
          /\ w = mkYears (JNum (a - (n - 1))) (JNum a))
  /\ match level place0, geminiParse (gemini 0%nat) with
     | LUnknown, Some llm => years p2 = orWindow (years llm) (place llm)
     | _, _ => years p2 = orWindow absolute place0
     end
  /\ (forall r llm,
        years (parsed (recover toLowerCase db prepareAll question r llm))
        = orWindow (years llm) (place llm))
  /\ (forall t anchor m w n a,
        exec relativeRe (toLowerCase t) = Some m ->
        group 2 (groups m) = Some w ->
        wordsToNum toLowerCase w = Some n ->
        anchor = Some a -> a <> 0%Z ->
        (1 <= n <= 10)%Z
        /\ parseYearsRelative toLowerCase t anchor
           = Some (mkYears (JNum (a - (n - 1))) (JNum a)))
  /\ (forall adverb number unit n a,
        In adverb ["last"; "past"; "previous"; "recent"]%string ->
        In (number, n) numberWords ->
        In unit ["year"; "years"]%string ->
        a <> 0%Z ->
        parseYearsRelative toLowerCase
          (js adverb ++ js " " ++ js number ++ js " " ++ js unit) (Some a)
        = Some (mkYears (JNum (a - (n - 1))) (JNum a)))
  /\ parseYearsRelative toLowerCase (js "last 3 years") (Some 2021%Z)
     = Some (mkYears (JNum 2019) (JNum 2021)).
Proof.
  intros absolute window orWindow p2.
  split; [|split; [|split; [|split; [|split; [|split]]]]].
  - split; [apply absolute_nothing|]. subst absolute. now intros ->.
  - intros t anchor w. apply relative_window.
  - subst p2. unfold parseQuestion. cbv zeta. cbn [fst].
    rewrite place_applyRelative. cbn [place state].
    assert (Hstep2 :
              years (applyRelative
                       (mkParsed (intentOf toLowerCase question) absolute
                                 place0 (extractCategory toLowerCase question)
                                 (js "deterministic")) (window place0))
              = orWindow absolute place0)
      by (rewrite years_applyRelative; reflexivity).
    destruct (level place0); try exact Hstep2.
    rewrite haveKey_true.
    destruct (geminiParse (gemini 0%nat)) as [llm|]; [|exact Hstep2].
    rewrite years_applyRelative. reflexivity.
  - intros r llm. unfold recover.
    match goal with |- context [prepareAll ?q] => destruct (prepareAll q) end;
      cbn [parsed]; rewrite years_applyRelative; reflexivity.
  - intros t anchor m w n a. now apply relative_match.
  - intros adverb number unit n a. now apply relative_phrases.
  - apply (@relative_phrases toLowerCase lc_ascii "last" "3" "years" 3 2021);
      cbn; auto 20; discriminate.
Qed.

End RelativePass.

(** C4 fails as stated: the absolute pass finds the year 2019 in this
    question, whose place is not resolved.  The service names the state and
    no years, and the query is given the window of the last three years of
    that state, 2020 to 2022. *)
Lemma relative_window_over_absolute_year :
  let question := js "groundwater in Gujrat 2019 for the last 3 years" in
  let service := fun _ : nat =>
    Json (mkLlmJson None (Some (statePlace (js "Gujarat"))) None None) in
  resolvePlaceSmart syntaxError sampleDistricts sampleStates question
  = Some unknownPlace
  /\ parseYearsAbsolute question = mkYears (JNum 2019) (JNum 2019)
  /\ years (fst (fst (parseQuestion lowerASCII sampleDb service None question
                                    unknownPlace)))
     = mkYears (JNum 2020) (JNum 2022)
  /\ exists rest,
       apiAnswer lowerASCII syntaxError sampleDb sampleDistricts sampleStates
                 (fun _ => Some sampleDb) service None question
       = (Answer (mkParsed (js "DATA") (mkYears (JNum 2020) (JNum 2022))
                           (statePlace (js "Gujarat")) None (js "gemini"))
                 rest sampleDb, [rest])
       /\ includes rest (js "AND year BETWEEN 2020 AND 2022") = true.
Proof.
  cbv zeta. split; [vm_compute; reflexivity|].
  split; [vm_compute; reflexivity|]. split; [vm_compute; reflexivity|].
  eexists. split; vm_compute; reflexivity.
Qed.

Lemma relative_pass_witness :
  let question := js "groundwater in Gujrat 2019 for the last 3 years" in
  let service := fun _ : nat =>
    Json (mkLlmJson None (Some (statePlace (js "Gujarat"))) None None) in
  years (fst (fst (parseQuestion lowerASCII sampleDb service None question
                                 unknownPlace)))
  = mkYears (JNum 2020) (JNum 2022)
  /\ parseYearsRelative lowerASCII (js "last 3 years") (Some 2021%Z)
     = Some (mkYears (JNum 2019) (JNum 2021)).
Proof.
  cbv zeta.
  destruct (@relative_pass lowerASCII sampleDb (fun _ => Some sampleDb)
              (fun _ : nat =>
                 Json (mkLlmJson None (Some (statePlace (js "Gujarat")))
                                 None None))
              None lowerASCII_is_AsciiLowering
              (js "groundwater in Gujrat 2019 for the last 3 years")
              unknownPlace)
    as [_ [_ [H3 [_ [_ [_ H7]]]]]].
  split; [|exact H7].
  cbn [level unknownPlace geminiParse] in H3. rewrite H3.
  vm_compute. reflexivity.
Defined.

(** ** The order of the year bounds *)

Lemma minOf_le_maxOf (x : option Z) (l : list (option Z)) (a b : Z) :
  minOf x l = Some a -> maxOf x l = Some b -> (a <= b)%Z.
Proof.
  revert x a b. induction l as [|y l IH]; intros x a b; cbn [minOf maxOf].
  - intros -> H. injection H as ->. lia.
  - destruct x as [x|]; [|discriminate].
    destruct (minOf y l) as [lo|] eqn:Hlo; [|discriminate].
    destruct (maxOf y l) as [hi|] eqn:Hhi; [|discriminate].
    intros Ha Hb. injection Ha as <-. injection Hb as <-.
    specialize (IH y lo hi Hlo Hhi). lia.
Qed.

Lemma Ordered_absolute (t : jsstring) : Ordered (parseYearsAbsolute t).
Proof.
  unfold parseYearsAbsolute, Ordered.
  destruct (exec rangeRe t) as [m|].
  - cbn [y1 y2].
    destruct (nth 0 _ None) as [a|], (nth 1 _ None) as [b|]; cbn [jsMin jsMax];
      try exact I. lia.
  - destruct (map parseInt (matchAll year4 t)) as [|y [|y' ys]]; cbn [y1 y2 noYears].
    + exact I.
    + destruct y; cbn [ofOptZ]; [lia | exact I].
    + destruct (minOf y (y' :: ys)) as [a|] eqn:Ha; cbn [ofOptZ]; [|exact I].
      destruct (maxOf y (y' :: ys)) as [b|] eqn:Hb; cbn [ofOptZ]; [|exact I].
      exact (@minOf_le_maxOf _ _ _ _ Ha Hb).
Qed.

Lemma Ordered_latest (l : option Z) :
  Ordered (mkYears (ofLatest l) (ofLatest l)).
Proof. destruct l; cbn; [lia | exact I]. Qed.

Section Order.

Variable toLowerCase : jsstring -> jsstring.
Variable newRegExp : jsstring -> option (jsstring -> bool).
Variable db : Table.
Variable distinctDistricts : list (jsstring * jsstring).
Variable distinctStates : list jsstring.
Variable prepareAll : jsstring -> option Table.
Variable gemini : nat -> reply.
Variable envGeminiKey : option jsstring.

Lemma Ordered_relative (t : jsstring) (anchor : option Z) (ys : Years) :
  parseYearsRelative toLowerCase t anchor = Some ys -> Ordered ys.
Proof.
  unfold parseYearsRelative.
  destruct (exec relativeRe (toLowerCase t)) as [m|]; [|discriminate].
  destruct anchor as [a|]; [|discriminate].
  destruct (a =? 0)%Z; [discriminate|].
  destruct (group 2 (groups m)) as [w|]; [|discriminate].
  destruct (wordsToNum toLowerCase w) as [n|] eqn:Hn; [|discriminate].
  apply lookup_numberWords_range in Hn.
  destruct (n =? 0)%Z; [discriminate|].
  intros H. injection H as <-. cbn. lia.
Qed.

Lemma Ordered_applyRelative (p : Parsed) (t : jsstring) (anchor : option Z) :
  Ordered (years p) ->
  Ordered (years (applyRelative p (parseYearsRelative toLowerCase t anchor))).
Proof.
  intros Hp. unfold applyRelative.
  destruct (truthy (y1 (years p))); [exact Hp|].
  destruct (parseYearsRelative toLowerCase t anchor) as [ys|] eqn:E;
    [|exact Hp].
  cbn [setYears years]. exact (@Ordered_relative _ _ _ E).
Qed.

Hypothesis service_ordered : ServiceOrdered gemini.

Lemma Ordered_geminiParse (n : nat) (llm : Parsed) :
  geminiParse (gemini n) = Some llm -> Ordered (years llm).
Proof.
  unfold geminiParse. destruct (gemini n) as [|out] eqn:E; [discriminate|].
  intros H. injection H as <-. cbn [years].
  destruct (j_years out) as [ys|] eqn:Hys; [|exact I].
  exact (service_ordered E Hys).
Qed.

Lemma Ordered_parseQuestion (question : jsstring) (place0 : Place) :
  Ordered (years (fst (fst (parseQuestion toLowerCase db gemini envGeminiKey
                              question place0)))).
Proof.
  unfold parseQuestion. cbn [fst].
  match goal with
  | |- context [applyRelative ?p0 (parseYearsRelative _ _ ?l)] =>
      assert (H1 : Ordered (years (applyRelative p0
                      (parseYearsRelative toLowerCase question l))))
        by (apply Ordered_applyRelative; apply Ordered_absolute)
  end.
  match goal with |- context [if ?b then _ else _] => destruct b end;
    [|exact H1].
  destruct (geminiParse (gemini 0)) as [llm|] eqn:E; [|exact H1].
  apply Ordered_applyRelative. cbn [merge years].
  exact (@Ordered_geminiParse _ _ E).
Qed.

Lemma Ordered_correctiveStep (question : jsstring) (call : nat) (r : Run) :
  Ordered (years (parsed r)) ->
  Ordered (years (parsed (correctiveStep toLowerCase db prepareAll gemini
                            envGeminiKey question call r))).
Proof.
  intros Hr. unfold correctiveStep.
  destruct haveKey; [|exact Hr].
  destruct (geminiParse (gemini call)) as [llm|] eqn:E; [|exact Hr].
  assert (Hrec : Ordered (years (parsed (recover toLowerCase db prepareAll
                                           question r llm)))).
  { unfold recover.
    match goal with |- context [prepareAll ?q] => destruct (prepareAll q) end;
      cbn [parsed]; apply Ordered_applyRelative; cbn [merge years];
      exact (@Ordered_geminiParse _ _ E). }
  destruct (level (place llm)); try exact Hr.
  - destruct (probeState db (state (place llm))); [exact Hrec | exact Hr].
  - destruct (probeDistrict db (state (place llm)) (district (place llm)));
      [exact Hrec | exact Hr].
Qed.

(** C9, as the code has it.  The absolute pass, the relative pass and the
    reset to the latest year each give bounds in order.  The years of the
    corrective service are taken as they come: when every answer of the
    service has its bounds in order, so has the query of every answer of
    [/api/answer]. *)
Theorem years_ordered (text : jsstring) (p : Parsed) (stmt : jsstring)
        (found : Table) (log : list jsstring) :
  apiAnswer toLowerCase newRegExp db distinctDistricts distinctStates
            prepareAll gemini envGeminiKey text
  = (Answer p stmt found, log) ->
  Ordered (years p)
  /\ Ordered (parseYearsAbsolute text)
  /\ (forall anchor ys,
        parseYearsRelative toLowerCase text anchor = Some ys -> Ordered ys)
  /\ (forall l, Ordered (mkYears (ofLatest l) (ofLatest l))).
Proof.
  intros H. split; [|split; [apply Ordered_absolute|split]];
    [|intros anchor ys; apply Ordered_relative | apply Ordered_latest].
  unfold apiAnswer in H.
  destruct (collapseWs text) as [|c q]; [discriminate|].
  destruct (resolvePlaceSmart newRegExp distinctDistricts distinctStates
              (c :: q)) as [place0|]; [|discriminate].
  generalize (Ordered_parseQuestion (c :: q) place0).
  destruct (parseQuestion toLowerCase db gemini envGeminiKey (c :: q) place0)
    as [[p2 rel] asked].
  cbn [fst]. intros Hp2.
  destruct (rejected (buildSQL db p2)); [discriminate|].
  destruct (prepareAll (buildSQL db p2)) as [[|row rows0]|]; [| |discriminate].
  - unfold fallbacks in H. cbv zeta in H.
    generalize (@Ordered_correctiveStep (c :: q) (if asked then 1 else 0)%nat
                  (mkRun p2 (buildSQL db p2) [] [buildSQL db p2]) Hp2).
    destruct (correctiveStep toLowerCase db prepareAll gemini envGeminiKey
                (c :: q) (if asked then 1 else 0)%nat
                (mkRun p2 (buildSQL db p2) [] [buildSQL db p2]))
      as [p1 sql1 rows1 ex1].
    cbn [parsed rows sql executed] in *. intros Hp1.
    destruct rows1 as [|row rows1].
    + destruct rel as [ys|].
      * match type of H with context [prepareAll ?q] =>
          destruct (prepareAll q) end; [|discriminate].
        injection H as <- _ _ _. cbn [setYears years]. apply Ordered_latest.
      * injection H as <- _ _ _. exact Hp1.
    + destruct rel; injection H as <- _ _ _; exact Hp1.
  - injection H as <- _ _ _. exact Hp2.
Qed.

End Order.

(** C9 fails as stated: the corrective parse of a question whose place is
    unresolved takes over the years of the service, here 2020 before 2019,
    and the statement is built with them. *)
Lemma service_years_unordered :
  let question := js "groundwater in Gujrat" in
  let q := fst (fst (parseQuestion lowerASCII sampleDb (fun _ => swappedReply)
                                   None question unknownPlace)) in
  resolvePlaceSmart syntaxError sampleDistricts sampleStates question
  = Some unknownPlace
  /\ years q = mkYears (JNum 2020) (JNum 2019)
  /\ ~ Ordered (years q)
  /\ includes (buildSQL sampleDb q) (js "AND year BETWEEN 2020 AND 2019") = true.
Proof.
  cbv zeta. split; [vm_compute; reflexivity|].
  split; [vm_compute; reflexivity|].
  split; [|vm_compute; reflexivity].
  vm_compute. intros H. now apply H.
Qed.

(** The run of the recovery example: the service names 2021 to 2022, and
    the query of the answer has its years reset to 2022. *)
Lemma years_ordered_witness :
  Ordered (mkYears (JNum 2022) (JNum 2022)).
Proof.
  assert (Hs : ServiceOrdered (fun _ => mehsanaReply)).
  { intros n out ys E Hys. injection E as <-. injection Hys as <-.
    cbn. lia. }
  destruct (@years_ordered lowerASCII syntaxError sampleDb sampleDistricts
              sampleStates sampleStore
              (fun _ => mehsanaReply) None Hs criticalQuestion
              (mkParsed (js "LIST") (mkYears (JNum 2022) (JNum 2022))
                        (districtPlace (js "Gujarat") (js "Mehsana"))
                        (Some (js "Critical")) (js "gemini"))
              (mehsanaStmt "2022" "2022") []
              [criticalGujaratStmt; mehsanaStmt "2021" "2022";
               mehsanaStmt "2022" "2022"]) as [H _].
  - vm_compute. reflexivity.
  - exact H.
Defined.

(** ** White-space normalisation *)

(** *** A global replacement of the runs of a class *)

Section Runs.

Variable p : cu -> bool.

(** The leading run of code units of the class, and the text after it. *)
Fixpoint run (s : jsstring) : jsstring :=
  match s with
  | c :: s' => if p c then c :: run s' else []
  | [] => []
  end.

Fixpoint afterRun (s : jsstring) : jsstring :=
  match s with
  | c :: s' => if p c then afterRun s' else s
  | [] => []
  end.

(** The text with every maximal run of the class replaced by [by_];
    [inRun] tells that the code unit before was of the class. *)
Fixpoint squeeze (by_ : jsstring) (inRun : bool) (s : jsstring) : jsstring :=
  match s with
  | [] => []
  | c :: s' =>
      if p c then (if inRun then [] else by_) ++ squeeze by_ true s'
      else c :: squeeze by_ false s'
  end.

Lemma run_afterRun (s : jsstring) : run s ++ afterRun s = s.
Proof.
  induction s as [|c s IH]; [reflexivity|].
  cbn [run afterRun]. destruct (p c); [|reflexivity].
  cbn [app]. now rewrite IH.
Qed.

Lemma length_afterRun (s : jsstring) : (length (afterRun s) <= length s)%nat.
Proof.
  induction s as [|c s IH]; [apply Nat.le_refl|].
  cbn [afterRun]. destruct (p c); cbn [length]; lia.
Qed.

Lemma afterRun_head (s : jsstring) (c : cu) :
  hd_error (afterRun s) = Some c -> p c = false.
Proof.
  induction s as [|d s IH]; [discriminate|].
  cbn [afterRun]. destruct (p d) eqn:Hd; [exact IH|].
  cbn [hd_error]. now intros [= <-].
Qed.

(** The greedy loop of [[p]*] takes the whole leading run. *)
Lemma starLoop_cls (s : jsstring) :
  forall fuel bef cps,
    (length s <= fuel)%nat ->
    starLoop (rmatch (Cls p)) (fun st => Some st) fuel (MState bef s cps)
    = Some (MState (rev (run s) ++ bef) (afterRun s) cps).
Proof.
  induction s as [|c s IH]; intros fuel bef cps Hfuel.
  - destruct fuel; reflexivity.
  - cbn [length] in Hfuel. destruct fuel as [|fuel]; [lia|].
    rewrite starLoop_S. cbn [rmatch rest before caps run afterRun].
    destruct (p c); [|reflexivity].
    cbn [rest length].
    replace (length s <? S (length s))%nat with true
      by (symmetry; apply Nat.ltb_lt; lia).
    rewrite IH by lia. cbn [rev]. now rewrite <- app_assoc.
Qed.

Lemma rmatch_plus_cls (bef s : jsstring) (cps : list (nat * jsstring)) :
  rmatch (Plus (Cls p)) (MState bef s cps) (fun st => Some st)
  = match s with
    | c :: s' =>
        if p c
        then Some (MState (rev (run s') ++ c :: bef) (afterRun s') cps)
        else None
    | [] => None
    end.
Proof.
  unfold Plus. cbn [rmatch rest before caps].
  destruct s as [|c s]; [reflexivity|].
  destruct (p c); [|reflexivity].
  cbn [rest]. now apply starLoop_cls.
Qed.

Lemma search_plus_cls (skipped bef s : jsstring) :
  search (Plus (Cls p)) skipped bef s
  = match s with
    | [] => None
    | c :: s' =>
        if p c
        then Some (Found (rev skipped) (c :: run s') []
                         (MState (rev (run s') ++ c :: bef) (afterRun s') []))
        else search (Plus (Cls p)) (c :: skipped) (c :: bef) s'
    end.
Proof.
  destruct s as [|c s]; cbn [search]; rewrite rmatch_plus_cls; [reflexivity|].
  destruct (p c); [|reflexivity].
  cbn [rest caps].
  generalize (firstn_consumed (c :: run s) (afterRun s)).
  cbn [app]. rewrite run_afterRun. now intros ->.
Qed.

(** The leftmost match: the text before it is free of the class, and the
    match is the whole run that starts there. *)
Lemma search_cls_spec (s : jsstring) :
  forall skipped bef,
    match search (Plus (Cls p)) skipped bef s with
    | None => forallb (fun c => negb (p c)) s = true
    | Some m =>
        exists pre c s',
          s = pre ++ c :: s'
          /\ forallb (fun c => negb (p c)) pre = true
          /\ p c = true
          /\ gap m = rev skipped ++ pre
          /\ text m = c :: run s'
          /\ rest (stop m) = afterRun s'
    end.
Proof.
  induction s as [|c s IH]; intros skipped bef; rewrite search_plus_cls;
    [reflexivity|].
  destruct (p c) eqn:Hc.
  - exists [], c, s. cbn [gap text stop rest app forallb].
    now rewrite app_nil_r.
  - specialize (IH (c :: skipped) (c :: bef)).
    destruct (search (Plus (Cls p)) (c :: skipped) (c :: bef) s) as [m|].
    + destruct IH as [pre [d [s' [-> [Hpre [Hd [Hgap [Htext Hrest]]]]]]]].
      exists (c :: pre), d, s'. cbn [app forallb]. rewrite Hc, Hpre.
      repeat split; try assumption.
      rewrite Hgap. cbn [rev]. now rewrite <- app_assoc.
    + cbn [forallb]. now rewrite Hc, IH.
Qed.

Variable by_ : jsstring.

Lemma squeeze_clean (s : jsstring) (b : bool) :
  forallb (fun c => negb (p c)) s = true -> squeeze by_ b s = s.
Proof.
  revert b. induction s as [|c s IH]; intros b H; [reflexivity|].
  cbn [forallb] in H. apply andb_true_iff in H. destruct H as [Hc H].
  apply negb_true_iff in Hc. cbn [squeeze]. rewrite Hc. now rewrite IH.
Qed.

Lemma squeeze_app_clean (pre x : jsstring) :
  forallb (fun c => negb (p c)) pre = true ->
  squeeze by_ false (pre ++ x) = pre ++ squeeze by_ false x.
Proof.
  induction pre as [|c pre IH]; intros H; [reflexivity|].
  cbn [forallb] in H. apply andb_true_iff in H. destruct H as [Hc H].
  apply negb_true_iff in Hc. cbn [app squeeze]. rewrite Hc. now rewrite IH.
Qed.

Lemma squeeze_true_afterRun (s : jsstring) :
  squeeze by_ true s = squeeze by_ false (afterRun s).
Proof.
  induction s as [|c s IH]; [reflexivity|].
  cbn [afterRun]. destruct (p c) eqn:Hc.
  - cbn [squeeze]. rewrite Hc. exact IH.
  - cbn [squeeze]. now rewrite Hc.
Qed.

Lemma scan_squeeze (fuel : nat) :
  forall bef s,
    (length s < fuel)%nat ->
    flat_map (fun gt => fst gt ++ by_) (fst (scan fuel (Plus (Cls p)) bef s))
    ++ snd (scan fuel (Plus (Cls p)) bef s)
    = squeeze by_ false s.
Proof.
  induction fuel as [|fuel IH]; intros bef s Hfuel; [lia|].
  cbn [scan]. generalize (search_cls_spec s [] bef).
  destruct (search (Plus (Cls p)) [] bef s) as [m|].
  - intros [pre [c [s' [-> [Hpre [Hc [Hgap [Htext Hrest]]]]]]]].
    rewrite Htext, Hrest.
    assert (Hlen : (length (afterRun s') < fuel)%nat).
    { generalize (length_afterRun s'). rewrite length_app in Hfuel.
      cbn [length] in Hfuel. lia. }
    specialize (IH (before (stop m)) (afterRun s') Hlen).
    destruct (scan fuel (Plus (Cls p)) (before (stop m)) (afterRun s'))
      as [ms tail].
    cbn [fst snd flat_map] in IH |- *.
    rewrite Hgap. cbn [rev app].
    rewrite squeeze_app_clean by exact Hpre.
    cbn [squeeze]. rewrite Hc, squeeze_true_afterRun, <- IH.
    now rewrite <- !app_assoc.
  - intros Hs. cbn [fst snd flat_map app]. symmetry. now apply squeeze_clean.
Qed.

(** [s.replace(/[p]+/g, by)] replaces every maximal run. *)
Lemma replaceAll_squeeze (s : jsstring) :
  replaceAll (Plus (Cls p)) by_ s = squeeze by_ false s.
Proof.
  unfold replaceAll, scanAll.
  generalize (@scan_squeeze (S (length s)) [] s (Nat.lt_succ_diag_r (length s))).
  destruct (scan (S (length s)) (Plus (Cls p)) [] s) as [ms tail].
  now cbn [fst snd].
Qed.

End Runs.

(** *** The shape of a collapsed text *)

Definition notSpace (c : cu) : bool := negb (isSpace c).

(** No white space at the start when [prev] is set, and none after another
    white space. *)
Fixpoint single (prev : bool) (t : jsstring) : bool :=
  match t with
  | [] => true
  | c :: t' =>
      if isSpace c then negb prev && single true t' else single false t'
  end.

(** A text in the normal form of [collapseWs]: its only white space is the
    blank, it neither starts nor ends with one, and no two follow one
    another. *)
Definition Collapsed (t : jsstring) : Prop :=
  (forall c, In c t -> isSpace c = true -> c = 32)
  /\ (forall c, hd_error t = Some c -> isSpace c = false)
  /\ (forall c, hd_error (rev t) = Some c -> isSpace c = false)
  /\ (forall pre a b post,
        t = pre ++ a :: b :: post -> isSpace a = true -> isSpace b = false).

Lemma collapseWs_squeeze (s : jsstring) :
  collapseWs s = trim (squeeze isSpace [32] false s).
Proof.
  unfold collapseWs, space. now rewrite replaceAll_squeeze.
Qed.

Lemma squeeze_content (s : jsstring) :
  forall b,
    filter notSpace (squeeze isSpace [32] b s) = filter notSpace s.
Proof.
  induction s as [|c s IH]; intros b; [reflexivity|].
  cbn [squeeze filter]. unfold notSpace at 2. destruct (isSpace c) eqn:Hc.
  - rewrite filter_app, IH. cbn [negb]. now destruct b.
  - cbn [filter negb]. unfold notSpace at 1. rewrite Hc. cbn [negb].
    now rewrite IH.
Qed.

Lemma squeeze_blank (s : jsstring) :
  forall b c,
    In c (squeeze isSpace [32] b s) -> isSpace c = true -> c = 32.
Proof.
  induction s as [|d s IH]; intros b c; [intros []|].
  cbn [squeeze]. destruct (isSpace d) eqn:Hd.
  - intros Hin Hc. apply in_app_or in Hin. destruct Hin as [Hin|Hin].
    + destruct b; [destruct Hin | now destruct Hin as [<-|[]]].
    + now apply (IH true).
  - intros [<-|Hin] Hc; [congruence|]. now apply (IH false).
Qed.

Lemma squeeze_single (s : jsstring) :
  forall b, single b (squeeze isSpace [32] b s) = true.
Proof.
  induction s as [|c s IH]; intros b; [reflexivity|].
  cbn [squeeze]. destruct (isSpace c) eqn:Hc.
  - destruct b; cbn [app]; [apply IH|].
    cbn [single]. change (isSpace 32) with true. cbv iota.
    cbn [negb andb]. apply IH.
  - cbn [single]. rewrite Hc. apply IH.
Qed.

Lemma single_weaken (t : jsstring) (b : bool) :
  single b t = true -> single false t = true.
Proof.
  destruct t as [|c t]; [reflexivity|]. cbn [single].
  destruct (isSpace c); [|auto]. intros H. apply andb_true_iff in H.
  cbn [negb andb]. tauto.
Qed.

Lemma single_adjacent (pre : jsstring) :
  forall t b a b' post,
    single b t = true -> t = pre ++ a :: b' :: post ->
    isSpace a = true -> isSpace b' = false.
Proof.
  induction pre as [|x pre IH]; intros t b a b' post Hs -> Ha.
  - cbn [app single] in Hs. rewrite Ha in Hs.
    apply andb_true_iff in Hs. destruct Hs as [_ Hs].
    destruct (isSpace b'); [discriminate | reflexivity].
  - cbn [app single] in Hs. destruct (isSpace x).
    + apply andb_true_iff in Hs. destruct Hs as [_ Hs].
      exact (IH _ true a b' post Hs eq_refl Ha).
    + exact (IH _ false a b' post Hs eq_refl Ha).
Qed.

Lemma adjacent_single (t : jsstring) :
  (forall pre a b post,
     t = pre ++ a :: b :: post -> isSpace a = true -> isSpace b = false) ->
  single false t = true.
Proof.
  induction t as [|c t IH]; intros H; [reflexivity|].
  assert (Ht : single false t = true).
  { apply IH. intros pre a b post -> Ha.
    exact (H (c :: pre) a b post eq_refl Ha). }
  cbn [single]. destruct (isSpace c) eqn:Hc; [|exact Ht].
  cbn [negb andb]. destruct t as [|d t]; [reflexivity|].
  cbn [single] in Ht |- *.
  now rewrite (H [] c d t eq_refl Hc) in Ht |- *.
Qed.

Lemma squeeze_fixed (t : jsstring) :
  forall b,
    (forall c, In c t -> isSpace c = true -> c = 32) ->
    single b t = true ->
    squeeze isSpace [32] b t = t.
Proof.
  induction t as [|c t IH]; intros b Hblank Hs; [reflexivity|].
  cbn [squeeze]. cbn [single] in Hs. destruct (isSpace c) eqn:Hc.
  - apply andb_true_iff in Hs. destruct Hs as [Hb Hs].
    apply negb_true_iff in Hb. subst b.
    rewrite (Hblank c (or_introl eq_refl) Hc). cbn [app]. f_equal.
    apply IH; [|exact Hs]. intros d Hd. apply Hblank. now right.
  - f_equal. apply IH; [|exact Hs]. intros d Hd. apply Hblank. now right.
Qed.

(** *** [trim] *)

Lemma trimStart_head (t : jsstring) (c : cu) :
  hd_error (trimStart t) = Some c -> isSpace c = false.
Proof.
  induction t as [|d t IH]; [discriminate|].
  cbn [trimStart]. destruct (isSpace d) eqn:Hd; [exact IH|].
  cbn [hd_error]. now intros [= <-].
Qed.

Lemma trimStart_fixed (t : jsstring) :
  (forall c, hd_error t = Some c -> isSpace c = false) -> trimStart t = t.
Proof.
  destruct t as [|c t]; [reflexivity|]. intros H.
  cbn [trimStart]. now rewrite (H c eq_refl).
Qed.

Lemma trimEnd_split (t : jsstring) :
  exists post, t = trimEnd t ++ post /\ forallb isSpace post = true.
Proof.
  unfold trimEnd. destruct (trimStart_split (rev t)) as [pre [H Hpre]].
  exists (rev pre). split; [|now apply forallb_rev].
  rewrite <- rev_app_distr, <- H. symmetry. apply rev_involutive.
Qed.

Lemma trimEnd_last (t : jsstring) (c : cu) :
  hd_error (rev (trimEnd t)) = Some c -> isSpace c = false.
Proof.
  unfold trimEnd. rewrite rev_involutive. apply trimStart_head.
Qed.

Lemma trim_split (t : jsstring) :
  exists pre post,
    t = pre ++ trim t ++ post
    /\ forallb isSpace pre = true /\ forallb isSpace post = true.
Proof.
  destruct (trimStart_split t) as [pre [H1 Hpre]].
  destruct (trimEnd_split (trimStart t)) as [post [H2 Hpost]].
  exists pre, post. unfold trim. now rewrite <- H2, <- H1.
Qed.

Lemma trim_head (t : jsstring) (c : cu) :
  hd_error (trim t) = Some c -> isSpace c = false.
Proof.
  unfold trim. destruct (trimEnd_split (trimStart t)) as [post [H _]].
  intros Hc. apply (@trimStart_head t). rewrite H.
  destruct (trimEnd (trimStart t)); [discriminate | exact Hc].
Qed.

Lemma trim_fixed (t : jsstring) :
  (forall c, hd_error t = Some c -> isSpace c = false) ->
  (forall c, hd_error (rev t) = Some c -> isSpace c = false) ->
  trim t = t.
Proof.
  intros H1 H2. unfold trim, trimEnd.
  rewrite (trimStart_fixed t H1), (trimStart_fixed (rev t) H2).
  apply rev_involutive.
Qed.

Lemma filter_spaces (ws : jsstring) :
  forallb isSpace ws = true -> filter notSpace ws = [].
Proof.
  induction ws as [|c ws IH]; [reflexivity|]. cbn [forallb filter].
  intros H. apply andb_true_iff in H. destruct H as [Hc H].
  unfold notSpace at 1. rewrite Hc. now apply IH.
Qed.

Lemma filter_none_spaces (s : jsstring) :
  filter notSpace s = [] -> forallb isSpace s = true.
Proof.
  induction s as [|c s IH]; [reflexivity|]. cbn [forallb filter].
  unfold notSpace at 1. destruct (isSpace c); [exact IH | discriminate].
Qed.

Lemma trim_content (t : jsstring) :
  filter notSpace (trim t) = filter notSpace t.
Proof.
  destruct (trim_split t) as [pre [post [H [Hpre Hpost]]]].
  rewrite H at 2. rewrite !filter_app.
  rewrite (filter_spaces pre Hpre), (filter_spaces post Hpost).
  now rewrite app_nil_r.
Qed.

(** *** The results *)

Lemma collapseWs_Collapsed (s : jsstring) : Collapsed (collapseWs s).
Proof.
  rewrite collapseWs_squeeze.
  set (T := squeeze isSpace [32] false s).
  destruct (trim_split T) as [pre [post [HT [Hpre Hpost]]]].
  repeat split.
  - intros c Hc. apply (@squeeze_blank s false). fold T. rewrite HT.
    apply in_or_app. right. apply in_or_app. now left.
  - apply trim_head.
  - apply trimEnd_last.
  - intros p1 a b p2 Ht Ha.
    apply (@single_adjacent (pre ++ p1) T false a b (p2 ++ post));
      [apply squeeze_single | | exact Ha].
    rewrite HT, Ht. now rewrite <- !app_assoc.
Qed.

Lemma collapseWs_fixed (t : jsstring) : Collapsed t -> collapseWs t = t.
Proof.
  intros [Hblank [Hhd [Hlast Hadj]]].
  rewrite collapseWs_squeeze, squeeze_fixed;
    [now apply trim_fixed | exact Hblank | now apply adjacent_single].
Qed.

Lemma collapseWs_content (s : jsstring) :
  filter notSpace (collapseWs s) = filter notSpace s.
Proof. now rewrite collapseWs_squeeze, trim_content, squeeze_content. Qed.

Lemma collapseWs_blank (s : jsstring) :
  collapseWs s = [] <-> forallb isSpace s = true.
Proof.
  split.
  - intros H. apply filter_none_spaces.
    now rewrite <- collapseWs_content, H.
  - intros H. generalize (collapseWs_content s).
    rewrite (filter_spaces s H).
    destruct (collapseWs_Collapsed s) as [_ [Hhd _]].
    destruct (collapseWs s) as [|c t]; [reflexivity|].
    cbn [filter]. unfold notSpace at 1. now rewrite (Hhd c eq_refl).
Qed.

(** *** The words of a text *)

(** The words of a text: its maximal runs of code units that are not white
    space, in order.  [cur] holds the word being read, last unit first. *)
Fixpoint wordsFrom (cur s : jsstring) : list jsstring :=
  match s with
  | [] => match cur with [] => [] | _ => [rev cur] end
  | c :: s' =>
      if isSpace c then
        match cur with
        | [] => wordsFrom [] s'
        | _ => rev cur :: wordsFrom [] s'
        end
      else wordsFrom (c :: cur) s'
  end.

Definition words (s : jsstring) : list jsstring := wordsFrom [] s.

(** The words joined by single blanks. *)
Fixpoint unwords (ws : list jsstring) : jsstring :=
  match ws with
  | [] => []
  | [w] => w
  | w :: ws' => w ++ 32 :: unwords ws'
  end.

Lemma wordsFrom_nonempty (s : jsstring) :
  forall cur w, In w (wordsFrom cur s) -> w <> [].
Proof.
  assert (Hrev : forall (c : cu) cur, rev (c :: cur) <> []).
  { intros c cur H. apply (f_equal (@List.length cu)) in H.
    rewrite length_rev in H. discriminate. }
  induction s as [|c s IH]; intros cur w; cbn [wordsFrom].
  - destruct cur as [|d cur]; [intros []|].
    intros [<-|[]]. apply Hrev.
  - destruct (isSpace c); [|apply IH].
    destruct cur as [|d cur]; [apply IH|].
    intros [<-|H]; [apply Hrev | exact (IH _ _ H)].
Qed.

Lemma unwords_nonempty (w : jsstring) (ws : list jsstring) :
  w <> [] -> unwords (w :: ws) <> [].
Proof.
  intros Hw. cbn [unwords]. destruct ws; [exact Hw|].
  destruct w; [now elim Hw | discriminate].
Qed.

Lemma squeeze_true_head (s : jsstring) (c : cu) :
  hd_error (squeeze isSpace [32] true s) = Some c -> isSpace c = false.
Proof.
  generalize (squeeze_single s true).
  destruct (squeeze isSpace [32] true s) as [|d t]; [discriminate|].
  cbn [single hd_error]. intros H [= <-].
  destruct (isSpace d); [discriminate | reflexivity].
Qed.

Lemma trimStart_squeeze (s : jsstring) :
  trimStart (squeeze isSpace [32] false s) = squeeze isSpace [32] true s.
Proof.
  destruct s as [|c s]; [reflexivity|]. cbn [squeeze].
  destruct (isSpace c) eqn:Hc.
  - cbn [app trimStart]. change (isSpace 32) with true. cbv iota.
    apply trimStart_fixed. apply squeeze_true_head.
  - cbn [trimStart]. now rewrite Hc.
Qed.

Lemma trimEnd_fixed (t : jsstring) :
  (forall c, hd_error (rev t) = Some c -> isSpace c = false) -> trimEnd t = t.
Proof.
  intros H. unfold trimEnd. rewrite (trimStart_fixed (rev t) H).
  apply rev_involutive.
Qed.

Lemma trimEnd_spaces (a x : jsstring) :
  forallb isSpace x = true -> trimEnd (a ++ x) = trimEnd a.
Proof.
  intros H. unfold trimEnd.
  now rewrite rev_app_distr, trimStart_spaces by now apply forallb_rev.
Qed.

Lemma trimEnd_app (a x : jsstring) :
  trimEnd x <> [] -> trimEnd (a ++ x) = a ++ trimEnd x.
Proof.
  unfold trimEnd. intros Hx. rewrite rev_app_distr.
  destruct (trimStart_split (rev x)) as [ws [Hsplit Hws]].
  rewrite Hsplit at 1. rewrite <- app_assoc, trimStart_spaces by exact Hws.
  destruct (trimStart (rev x)) as [|c t] eqn:E; [now elim Hx|].
  cbn [app trimStart]. rewrite (@trimStart_head (rev x) c) by now rewrite E.
  change (c :: t ++ rev a) with ((c :: t) ++ rev a).
  now rewrite rev_app_distr, rev_involutive.
Qed.

Lemma trimEnd_none (x : jsstring) : trimEnd x = [] -> forallb isSpace x = true.
Proof.
  intros H. destruct (trimEnd_split x) as [post [Hx Hpost]].
  rewrite H in Hx. now subst x.
Qed.

Lemma words_trimEnd (s : jsstring) :
  forall cur,
    forallb notSpace cur = true ->
    unwords (wordsFrom cur s)
    = trimEnd (rev cur
               ++ squeeze isSpace [32]
                    (match cur with [] => true | _ => false end) s).
Proof.
  assert (Hword : forall (c : cu) cur,
             forallb notSpace (c :: cur) = true ->
             trimEnd (rev (c :: cur)) = rev (c :: cur)).
  { intros c cur H. apply trimEnd_fixed. rewrite rev_involutive.
    cbn [hd_error forallb] in H |- *. intros d [= <-].
    apply andb_true_iff in H. destruct H as [H _].
    now apply negb_true_iff in H. }
  induction s as [|c s IH]; intros cur Hcur; cbn [wordsFrom squeeze].
  - rewrite app_nil_r. destruct cur as [|d cur]; [reflexivity|].
    cbn [unwords]. symmetry. now apply Hword.
  - destruct (isSpace c) eqn:Hc.
    + destruct cur as [|d cur].
      * exact (IH [] eq_refl).
      * generalize (IH [] eq_refl). cbn [rev app]. intros HX.
        destruct (wordsFrom [] s) as [|w ws] eqn:Ews.
        -- cbn [unwords] in HX |- *. symmetry in HX.
           apply trimEnd_none in HX.
           rewrite trimEnd_spaces
             by (cbn [forallb]; now rewrite HX).
           symmetry. now apply Hword.
        -- assert (Hw : w <> []).
           { apply (@wordsFrom_nonempty s [] w). rewrite Ews. now left. }
           change (unwords ((rev cur ++ [d]) :: w :: ws))
             with ((rev cur ++ [d]) ++ 32 :: unwords (w :: ws)).
           rewrite HX.
           change ((rev cur ++ [d]) ++ 32 :: squeeze isSpace [32] true s)
             with ((rev cur ++ [d]) ++ [32] ++ squeeze isSpace [32] true s).
           rewrite (app_assoc (rev cur ++ [d]) [32]).
           rewrite trimEnd_app
             by (rewrite <- HX; now apply unwords_nonempty).
           rewrite <- (app_assoc (rev cur ++ [d]) [32]). reflexivity.
    + rewrite (IH (c :: cur)).
      * cbn [rev]. now rewrite <- app_assoc.
      * cbn [forallb]. unfold notSpace at 1. now rewrite Hc.
Qed.

(** X1. [collapseWs] gives the words of the text, joined by single blanks. *)
Theorem collapseWs_words (s : jsstring) :
  collapseWs s = unwords (words s).
Proof.
  rewrite collapseWs_squeeze. unfold trim, words.
  rewrite trimStart_squeeze. symmetry.
  exact (words_trimEnd s [] eq_refl).
Qed.

(** X2. The text that [collapseWs] returns has no white space but single
    blanks between two other code units, and it has the code units of the
    argument that are not white space, all of them and in their order. *)
Theorem collapseWs_normal_form (s : jsstring) :
  let t := collapseWs s in
  (forall c, In c t -> isSpace c = true -> c = 32)
  /\ (forall c, hd_error t = Some c -> isSpace c = false)
  /\ (forall c, hd_error (rev t) = Some c -> isSpace c = false)
  /\ (forall pre a b post,
        t = pre ++ a :: b :: post -> isSpace a = true -> isSpace b = false)
  /\ filter notSpace t = filter notSpace s.
Proof.
  cbv zeta. destruct (collapseWs_Collapsed s) as [H1 [H2 [H3 H4]]].
  repeat split; try assumption. apply collapseWs_content.
Qed.

(** X3. [collapseWs] is idempotent, and the texts it leaves as they are are
    exactly the collapsed ones; the place resolver, which collapses its
    argument again, gives the same place for a text and for its collapsed
    form. *)
Theorem collapseWs_idempotent
        (newRegExp : jsstring -> option (jsstring -> bool))
        (distinctDistricts : list (jsstring * jsstring))
        (distinctStates : list jsstring) (s : jsstring) :
  collapseWs (collapseWs s) = collapseWs s
  /\ (collapseWs s = s <-> Collapsed s)
  /\ resolvePlaceSmart newRegExp distinctDistricts distinctStates
       (collapseWs s)
     = resolvePlaceSmart newRegExp distinctDistricts distinctStates s.
Proof.
  assert (H : collapseWs (collapseWs s) = collapseWs s)
    by (apply collapseWs_fixed, collapseWs_Collapsed).
  split; [exact H|]. split.
  - split; [|apply collapseWs_fixed].
    intros <-. apply collapseWs_Collapsed.
  - unfold resolvePlaceSmart. now rewrite H.
Qed.

(** ** The outcomes of a request *)

Section Outcomes.

Variable toLowerCase : jsstring -> jsstring.
Variable newRegExp : jsstring -> option (jsstring -> bool).
Variable db : Table.
Variable distinctDistricts : list (jsstring * jsstring).
Variable distinctStates : list jsstring.
Variable prepareAll : jsstring -> option Table.
Variable gemini : nat -> reply.
Variable envGeminiKey : option jsstring.

Local Abbreviation resolvePlaceSmart' :=
  (resolvePlaceSmart newRegExp distinctDistricts distinctStates).
Local Abbreviation parseQuestion' :=
  (parseQuestion toLowerCase db gemini envGeminiKey).
Local Abbreviation fallbacks' :=
  (fallbacks toLowerCase db prepareAll gemini envGeminiKey).
Local Abbreviation correctiveStep' :=
  (correctiveStep toLowerCase db prepareAll gemini envGeminiKey).
Local Abbreviation apiAnswer' :=
  (apiAnswer toLowerCase newRegExp db distinctDistricts distinctStates
             prepareAll gemini envGeminiKey).

(** The statement in hand is the one built from the query in hand and the
    last one handed to the store; the rows in hand are what the store
    answered to it, or none when it threw. *)
Definition InHand (r : Run) : Prop :=
  sql r = buildSQL db (parsed r)
  /\ (exists older, executed r = sql r :: older)
  /\ (prepareAll (sql r) = Some (rows r)
      \/ (prepareAll (sql r) = None /\ rows r = [])).

(** What a response and its log of statements have to do with each other,
    for the collapsed text [question]. *)
Definition Outcome (question : jsstring) (out : response * list jsstring)
  : Prop :=
  match fst out with
  | BadRequest _ => snd out = []
  | ServerError =>
      (resolvePlaceSmart' question = None /\ snd out = [])
      \/ exists pre q, snd out = pre ++ [q] /\ prepareAll q = None
  | Answer p q found =>
      q = buildSQL db p
      /\ (exists pre, snd out = pre ++ [q])
      /\ (prepareAll q = Some found \/ (prepareAll q = None /\ found = []))
  end.

Lemma recover_InHand (question : jsstring) (r : Run) (llm : Parsed) :
  rows r = [] ->
  let r1 := recover toLowerCase db prepareAll question r llm in
  InHand r1 /\ executed r1 = sql r1 :: executed r.
Proof.
  intros Hrows. unfold recover.
  match goal with |- context [prepareAll ?q] =>
    destruct (prepareAll q) as [found|] eqn:E end;
    cbv zeta; unfold InHand; cbn [sql parsed rows executed];
    (split; [split; [reflexivity|split; [eexists; reflexivity|]] | reflexivity]).
  - now left.
  - right. now split.
Qed.

Lemma correctiveStep_InHand (question : jsstring) (call : nat) (r : Run) :
  rows r = [] -> InHand r ->
  let r1 := correctiveStep' question call r in
  InHand r1
  /\ (executed r1 = executed r \/ executed r1 = sql r1 :: executed r).
Proof.
  intros Hrows Hr. unfold correctiveStep.
  destruct (haveKey envGeminiKey); [|cbv zeta; auto].
  destruct (geminiParse (gemini call)) as [llm|]; [|cbv zeta; auto].
  destruct (level (place llm)); cbv zeta; auto.
  - destruct (probeState db (state (place llm))); [|auto].
    destruct (@recover_InHand question r llm Hrows) as [H1 H2]. auto.
  - destruct (probeDistrict db (state (place llm)) (district (place llm)));
      [|auto].
    destruct (@recover_InHand question r llm Hrows) as [H1 H2]. auto.
Qed.

Lemma fallbacks_Outcome (question : jsstring) (rel : option Years)
      (call : nat) (r0 : Run) :
  rows r0 = [] -> InHand r0 ->
  Outcome question (fallbacks' question rel call r0)
  /\ (length (snd (fallbacks' question rel call r0))
      <= 2 + length (executed r0))%nat.
Proof.
  intros Hrows Hr. unfold fallbacks.
  destruct (correctiveStep_InHand question call Hrows Hr)
    as [[Hsql [[older Hex] Hstore]] Hlen].
  assert (Hlen' : (length (executed (correctiveStep' question call r0))
                   <= 1 + length (executed r0))%nat)
    by (destruct Hlen as [->| ->]; cbn [length]; lia).
  cbv zeta.
  destruct (rows (correctiveStep' question call r0)) as [|row found] eqn:Erows.
  - destruct rel as [ys|].
    + match goal with |- context [prepareAll ?q] =>
        destruct (prepareAll q) as [rows2|] eqn:E end;
        unfold Outcome; cbn [fst snd rev]; rewrite length_app, length_rev;
        cbn [length]; (split; [|lia]).
      * split; [reflexivity|]. split; [eexists; reflexivity | now left].
      * right. eexists; eexists; split; [reflexivity | exact E].
    + unfold Outcome. cbn [fst snd]. rewrite length_rev. split; [|lia].
      split; [exact Hsql|]. split; [|first [exact Hstore | now rewrite Erows in Hstore]].
      rewrite Hex. cbn [rev]. eexists; reflexivity.
  - assert (Hout : Outcome question
              (Answer (parsed (correctiveStep' question call r0))
                      (sql (correctiveStep' question call r0)) (row :: found),
               rev (executed (correctiveStep' question call r0)))).
    { unfold Outcome. cbn [fst snd]. split; [exact Hsql|].
      split; [|first [exact Hstore | now rewrite Erows in Hstore]].
      rewrite Hex. cbn [rev]. eexists; reflexivity. }
    destruct rel; (split; [exact Hout | cbn [snd]; rewrite length_rev; lia]).
Qed.

Lemma apiAnswer_Outcome (text : jsstring) :
  Outcome (collapseWs text) (apiAnswer' text)
  /\ (length (snd (apiAnswer' text)) <= 3)%nat.
Proof.
  unfold apiAnswer.
  destruct (collapseWs text) as [|c q]; [split; [reflexivity | cbn; lia]|].
  destruct (resolvePlaceSmart' (c :: q)) as [place0|] eqn:Epl;
    [|split; [left; now split | cbn; lia]].
  destruct (parseQuestion' (c :: q) place0) as [[p2 rel] asked].
  destruct (rejected (buildSQL db p2)); [split; [reflexivity | cbn; lia]|].
  destruct (prepareAll (buildSQL db p2)) as [[|row found]|] eqn:E.
  - apply (@fallbacks_Outcome (c :: q) rel (if asked then 1 else 0)%nat
             (mkRun p2 (buildSQL db p2) [] [buildSQL db p2])); [reflexivity|].
    unfold InHand. cbn [sql parsed rows executed].
    split; [reflexivity|]. split; [now exists [] | now left].
  - split; [|cbn; lia]. unfold Outcome. cbn [fst snd].
    split; [reflexivity|]. split; [now exists [] | now left].
  - split; [|cbn; lia]. unfold Outcome. cbn [fst snd].
    right. exists [], (buildSQL db p2). now split.
Qed.

(** X4. A text that is empty or all white space is answered with the client
    error "Missing text" and nothing is handed to the store; any other text
    is not answered with that error. *)
Theorem apiAnswer_missing_text (text : jsstring) :
  if forallb isSpace text
  then apiAnswer' text = (BadRequest (js "Missing text"), [])
  else fst (apiAnswer' text) <> BadRequest (js "Missing text").
Proof.
  destruct (forallb isSpace text) eqn:Hblank.
  - apply collapseWs_blank in Hblank. unfold apiAnswer. now rewrite Hblank.
  - assert (Hq : collapseWs text <> []).
    { intros H. apply collapseWs_blank in H. congruence. }
    unfold apiAnswer. destruct (collapseWs text) as [|c q]; [now elim Hq|].
    destruct (resolvePlaceSmart' (c :: q)) as [place0|]; [|discriminate].
    destruct (parseQuestion' (c :: q) place0) as [[p2 rel] asked].
    destruct (rejected (buildSQL db p2)); [discriminate|].
    destruct (prepareAll (buildSQL db p2)) as [[|row found]|];
      try discriminate.
    apply (@fallbacks_log toLowerCase db prepareAll gemini envGeminiKey).
Qed.



(** X7. An answer reports the statement that was handed to the store last;
    that statement is the one [buildSQL] makes of the query reported, and
    the rows are those the store answered to it.  The one exception: when
    the store threw on the statement of an accepted correction, the answer
    reports that statement with no rows. *)
Theorem apiAnswer_rows_from_store (text : jsstring) (p : Parsed)
        (stmt : jsstring) (found : Table) :
  fst (apiAnswer' text) = Answer p stmt found ->
  stmt = buildSQL db p
  /\ (exists pre, snd (apiAnswer' text) = pre ++ [stmt])
  /\ (prepareAll stmt = Some found
      \/ (prepareAll stmt = None /\ found = [])).
Proof.
  intros H. generalize (proj1 (apiAnswer_Outcome text)).
  unfold Outcome. now rewrite H.
Qed.


End Outcomes.


(** The worked example of the recovery: the answer reports the third
    statement, to which the store answered no rows. *)
Lemma apiAnswer_rows_from_store_witness :
  let out := apiAnswer lowerASCII syntaxError sampleDb sampleDistricts
                       sampleStates sampleStore (fun _ => mehsanaReply)
                       None criticalQuestion in
  let p := mkParsed (js "LIST") (mkYears (JNum 2022) (JNum 2022))
                    (districtPlace (js "Gujarat") (js "Mehsana"))
                    (Some (js "Critical")) (js "gemini") in
  fst out = Answer p (mehsanaStmt "2022" "2022") []
  /\ mehsanaStmt "2022" "2022" = buildSQL sampleDb p
  /\ (exists pre, snd out = pre ++ [mehsanaStmt "2022" "2022"])
  /\ (sampleStore (mehsanaStmt "2022" "2022") = Some []
      \/ (sampleStore (mehsanaStmt "2022" "2022") = None /\ @nil Row = [])).
Proof.
  cbv zeta. split; [vm_compute; reflexivity|].
  apply (@apiAnswer_rows_from_store lowerASCII syntaxError sampleDb
           sampleDistricts sampleStates sampleStore
           (fun _ => mehsanaReply) None criticalQuestion).
  vm_compute. reflexivity.
Defined.


(** ** Intent keywords *)

(** A text without word characters: no ASCII letter, digit or underscore. *)
Definition noWord (s : jsstring) : bool :=
  forallb (fun c => negb (isWord c)) s.

Lemma noWord_head (c : cu) (s : jsstring) :
  noWord (c :: s) = true -> isWord c = false /\ noWord s = true.
Proof.
  cbn [noWord forallb]. intros H. apply andb_true_iff in H.
  destruct H as [Hc Hs]. now apply negb_true_iff in Hc.
Qed.

Lemma noWord_skipn (n : nat) (s : jsstring) :
  noWord s = true -> noWord (skipn n s) = true.
Proof.
  unfold noWord. rewrite !forallb_forall. intros H x Hx. apply H.
  rewrite <- (firstn_skipn n s). apply in_or_app. now right.
Qed.

(** A pattern that begins with [\b] finds nothing in a text without word
    characters. *)
Lemma search_wordB_none (r : regex) (s : jsstring) :
  forall skipped bef,
    noWord s = true ->
    (forall c, hd_error bef = Some c -> isWord c = false) ->
    search (Cat WordB r) skipped bef s = None.
Proof.
  induction s as [|c s IH]; intros skipped bef Hs Hbef; rewrite search_eq;
    cbn [rmatch]; unfold wordBefore, wordAfter; cbn [before rest].
  - destruct bef as [|b bef]; [reflexivity|].
    now rewrite (Hbef b eq_refl).
  - apply noWord_head in Hs. destruct Hs as [Hc Hs]. rewrite Hc.
    replace (match bef with [] => false | b :: _ => isWord b end) with false
      by (destruct bef as [|b bef]; [reflexivity|];
          now rewrite (Hbef b eq_refl)).
    cbn [xorb]. apply IH; [exact Hs|].
    cbn [hd_error]. now intros d [= <-].
Qed.

(** A literal of the pattern matches when the text starts with it. *)
Lemma rmatch_seq_chr (A : Type) (w : jsstring) :
  forall bef s cps (k : mstate -> option A),
    rmatch (seq chr w) (MState bef s cps) k
    = if startsWith w s
      then k (MState (rev w ++ bef) (skipn (length w) s) cps)
      else None.
Proof.
  induction w as [|c w IH]; intros bef s cps k; [reflexivity|].
  assert (Hstep :
            rmatch (Cat (chr c) (seq chr w)) (MState bef s cps) k
            = if startsWith (c :: w) s
              then k (MState (rev (c :: w) ++ bef)
                             (skipn (length (c :: w)) s) cps)
              else None).
  { cbn [rmatch rest before caps]. unfold chr at 1.
    cbn [rmatch rest before caps].
    destruct s as [|x s]; [reflexivity|]. cbn [startsWith].
    destruct (N.eqb_spec c x) as [->|_]; [|reflexivity].
    rewrite IH. cbn [andb rev length skipn]. now rewrite <- app_assoc. }
  destruct w as [|c' w]; [|exact Hstep].
  rewrite <- Hstep. cbn [seq rmatch]. unfold chr.
  cbn [rmatch rest before caps].
  destruct s as [|x s]; [reflexivity|]. now destruct (c =? x).
Qed.

Lemma startsWith_word (c : cu) (w s : jsstring) :
  isWord c = true -> noWord s = true -> startsWith (c :: w) s = false.
Proof.
  intros Hc Hs. destruct s as [|x s]; [reflexivity|]. cbn [startsWith].
  destruct (N.eqb_spec c x) as [->|_]; [|reflexivity].
  apply noWord_head in Hs. destruct Hs as [Hx _]. congruence.
Qed.

Lemma startsWith_split (w s : jsstring) :
  startsWith w s = true -> s = w ++ skipn (length w) s.
Proof.
  revert s. induction w as [|c w IH]; intros s; [reflexivity|].
  destruct s as [|x s]; [discriminate|]. cbn [startsWith].
  destruct (N.eqb_spec c x) as [->|_]; [|discriminate].
  cbn [andb length skipn app]. intros H. f_equal. now apply IH.
Qed.

(** At the start of a text without word characters the pattern of COMPARE
    can match the Devanagari phrase only, and only when nothing follows. *)
Lemma compare_at_start (s : jsstring) :
  noWord s = true ->
  rmatch compareRe (MState [] s []) (fun st => Some st) = None
  \/ s = hi_ke_mukable.
Proof.
  intros Hs. unfold compareRe, cats. cbn [fold_right alts].
  cbn [rmatch before rest caps]. unfold lit.
  rewrite !rmatch_seq_chr.
  change (js "vs") with [118; 115].
  change (js "compare") with (99 :: js "ompare").
  rewrite !startsWith_word by (exact Hs || reflexivity).
  assert (Hstart : xorb (wordBefore (MState [] s []))
                        (wordAfter (MState [] s [])) = false).
  { unfold wordBefore, wordAfter. cbn [before rest].
    destruct s as [|c s]; [reflexivity|].
    apply noWord_head in Hs. destruct Hs as [Hc _]. now rewrite Hc. }
  rewrite Hstart.
  destruct (startsWith hi_ke_mukable s) eqn:E; [|now left].
  apply startsWith_split in E.
  generalize (@noWord_skipn (length hi_ke_mukable) s Hs).
  destruct (skipn (length hi_ke_mukable) s) as [|c tl].
  - right. now rewrite app_nil_r in E.
  - intros Hc. apply noWord_head in Hc. destruct Hc as [Hc _].
    left. unfold wordBefore, wordAfter. cbn [before rest].
    unfold hi_ke_mukable. cbn [rev app]. rewrite Hc.
    change (isWord 2375) with false. reflexivity.
Qed.

Lemma compare_later (s : jsstring) :
  forall skipped b bef,
    noWord s = true -> isWord b = false ->
    search compareRe skipped (b :: bef) s = None.
Proof.
  induction s as [|c s IH]; intros skipped b bef Hs Hb; rewrite search_eq;
    unfold compareRe, cats; cbn [fold_right rmatch before];
    unfold wordBefore, wordAfter; cbn [before rest]; rewrite Hb.
  - reflexivity.
  - apply noWord_head in Hs. destruct Hs as [Hc Hs]. rewrite Hc.
    cbn [xorb]. now apply IH.
Qed.

Lemma test_compare_noWord (s : jsstring) :
  noWord s = true -> test compareRe s = JsString.eqb s hi_ke_mukable.
Proof.
  intros Hs. destruct (JsString.eqb s hi_ke_mukable) eqn:E.
  - apply eqb_spec in E. subst s. vm_compute. reflexivity.
  - unfold test, exec. rewrite search_eq.
    destruct (compare_at_start s Hs) as [-> | ->];
      [|rewrite eqb_refl in E; discriminate].
    destruct s as [|c s]; [reflexivity|].
    apply noWord_head in Hs. destruct Hs as [Hc Hs].
    now rewrite compare_later.
Qed.

Lemma test_wordB_noWord (r : regex) (s : jsstring) :
  noWord s = true -> test (Cat WordB r) s = false.
Proof.
  intros Hs. unfold test, exec.
  rewrite search_wordB_none; [reflexivity | exact Hs | discriminate].
Qed.

(** The words of the TREND pattern that are written in ASCII. *)
Definition trendWords : list string :=
  ["since"; "between"; "trend"; "trends"; "from"; "to"; "change"]%string.

Lemma trend_word_here (w : string) (bef post : jsstring) :
  In w trendWords ->
  (forall c, hd_error bef = Some c -> isWord c = false) ->
  (forall c, hd_error post = Some c -> isWord c = false) ->
  rmatch trendRe (MState bef (js w ++ post) []) (fun st => Some st) <> None.
Proof.
  intros Hw Hbef Hpost.
  assert (Hb : match bef with [] => false | c :: _ => isWord c end = false)
    by (destruct bef as [|b bef]; [reflexivity | now apply Hbef]).
  assert (Hp : match post with [] => false | c :: _ => isWord c end = false)
    by (destruct post as [|b post]; [reflexivity | now apply Hpost]).
  unfold trendWords in Hw. cbn [In] in Hw.
  repeat (destruct Hw as [<-|Hw]; [|]); try contradiction;
    destruct bef as [|b bef]; destruct post as [|c post];
    cbn -[isWord]; rewrite ?Hb, ?Hp; cbn; discriminate.
Qed.

Section Intent.

Variable toLowerCase : jsstring -> jsstring.

(** X9. A question whose lower-cased text has no ASCII letter, digit or
    underscore is never classed TREND or LIST: [\b] needs a word character
    next to it, so the Devanagari keywords of the TREND and LIST patterns
    cannot match in it.  Such a question is COMPARE when it is exactly the
    Devanagari phrase of the COMPARE pattern, and DATA otherwise. *)
Theorem intentOf_without_word_characters (t : jsstring) :
  noWord (toLowerCase t) = true ->
  intentOf toLowerCase t
  = if JsString.eqb (toLowerCase t) hi_ke_mukable
    then js "COMPARE" else js "DATA".
Proof.
  intros Hs. unfold intentOf.
  rewrite (test_compare_noWord _ Hs).
  destruct (JsString.eqb (toLowerCase t) hi_ke_mukable); [reflexivity|].
  unfold trendRe, severityRe, cats. cbn [fold_right].
  now rewrite !test_wordB_noWord by exact Hs.
Qed.

(** X10. A question in which one of the words since, between, trend,
    trends, from, to, change stands as a whole word (after lower-casing) is
    classed COMPARE or TREND: it is never LIST, whatever listing verb and
    severity word it has. *)
Theorem intentOf_trend_word (t pre post : jsstring) (w : string) :
  In w trendWords ->
  toLowerCase t = pre ++ js w ++ post ->
  (forall c, hd_error (rev pre) = Some c -> isWord c = false) ->
  (forall c, hd_error post = Some c -> isWord c = false) ->
  intentOf toLowerCase t = js "COMPARE" \/ intentOf toLowerCase t = js "TREND".
Proof.
  intros Hw Ht Hpre Hpost. unfold intentOf.
  destruct (test compareRe (toLowerCase t)); [now left|]. right.
  replace (test trendRe (toLowerCase t)) with true; [reflexivity|].
  symmetry. unfold test, exec. rewrite Ht.
  generalize (@search_hit trendRe pre (js w ++ post) [] []).
  destruct (search trendRe [] [] (pre ++ js w ++ post)); [reflexivity|].
  intros H. elim H; [|reflexivity].
  rewrite app_nil_r. now apply trend_word_here.
Qed.

End Intent.

(** "critical show", written in Devanagari: a listing verb and a severity
    word, and the intent is DATA. *)
Lemma intentOf_without_word_characters_witness :
  let t := hi_gambhir ++ [32] ++ hi_dikhao in
  noWord (lowerASCII t) = true /\ intentOf lowerASCII t = js "DATA".
Proof.
  cbv zeta. split; [reflexivity|].
  exact (@intentOf_without_word_characters lowerASCII
           (hi_gambhir ++ [32] ++ hi_dikhao) eq_refl).
Defined.

(** A listing verb, a severity word and the word "from": no LIST. *)
Lemma intentOf_trend_word_witness :
  let t := js "List critical districts from Gujarat" in
  lowerASCII t = js "list critical districts " ++ js "from" ++ js " gujarat"
  /\ (intentOf lowerASCII t = js "COMPARE"
      \/ intentOf lowerASCII t = js "TREND").
Proof.
  cbv zeta. split; [reflexivity|].
  apply (@intentOf_trend_word lowerASCII
           (js "List critical districts from Gujarat")
           (js "list critical districts ") (js " gujarat") "from").
  - cbn. tauto.
  - reflexivity.
  - intros c [= <-]. reflexivity.
  - intros c [= <-]. reflexivity.
Defined.

(** ** What the name matcher finds *)

Lemma containsName_alnum (text name : jsstring) :
  containsName text name = true -> (4 <= length (filter isAlnum name))%nat.
Proof.
  unfold containsName.
  destruct (Nat.ltb_spec (length (filter isAlnum name)) 4);
    [discriminate | auto].
Qed.

Lemma squeeze_nil (p : cu -> bool) (s : jsstring) :
  forall b, squeeze p [] b s = filter (fun c => negb (p c)) s.
Proof.
  induction s as [|c s IH]; intros b; [reflexivity|].
  cbn [squeeze filter]. destruct (p c); cbn [negb].
  - rewrite IH. now destruct b.
  - now rewrite IH.
Qed.

(** [s.replace(/\s+/g, empty)] removes the white space. *)
Lemma noSpace_filter (s : jsstring) :
  replaceAll (Plus space) [] s = filter notSpace s.
Proof. unfold space. now rewrite replaceAll_squeeze, squeeze_nil. Qed.

Lemma filter_alnum_notSpace (s : jsstring) :
  filter notSpace (filter isAlnum s) = filter isAlnum s.
Proof.
  induction s as [|c s IH]; [reflexivity|]. cbn [filter].
  destruct (isAlnum c) eqn:Hc; [|exact IH].
  cbn [filter]. rewrite IH.
  replace (notSpace c) with true; [reflexivity|].
  symmetry. unfold notSpace. apply negb_true_iff.
  destruct (isSpace c) eqn:E; [|reflexivity].
  unfold isAlnum, isDigit, isUpper, isLower, between in Hc.
  unfold isSpace, between in E.
  repeat (apply orb_true_iff in Hc; destruct Hc as [Hc|Hc]);
    apply andb_true_iff in Hc; destruct Hc as [H1 H2];
    apply N.leb_le in H1, H2;
    repeat (apply orb_true_iff in E; destruct E as [E|E]);
    try (apply N.eqb_eq in E; lia);
    apply andb_true_iff in E; destruct E as [E1 E2];
    apply N.leb_le in E1, E2; lia.
Qed.

Lemma filter_alnum_spaces (ws : jsstring) :
  forallb isSpace ws = true -> filter isAlnum ws = [].
Proof.
  intros H. rewrite <- filter_alnum_notSpace.
  induction ws as [|c ws IH]; [reflexivity|].
  cbn [forallb] in H. apply andb_true_iff in H. destruct H as [Hc H].
  cbn [filter]. destruct (isAlnum c) eqn:Ha; [|now apply IH].
  exfalso. generalize (filter_alnum_notSpace [c]). cbn [filter].
  rewrite Ha. cbn [filter]. unfold notSpace. now rewrite Hc.
Qed.

Lemma filter_alnum_trim (name : jsstring) :
  filter isAlnum (trim name) = filter isAlnum name.
Proof.
  destruct (trim_split name) as [pre [post [H [Hpre Hpost]]]].
  rewrite H at 2. rewrite !filter_app.
  rewrite (filter_alnum_spaces pre Hpre), (filter_alnum_spaces post Hpost).
  now rewrite app_nil_r.
Qed.

(** A pattern character under the [i] flag matches a code unit that is the
    same up to the case of an ASCII letter, and white space only when it is
    itself that white space. *)
Lemma chri_same (c x : cu) :
  (if isUpper c || isLower c then upperASCII x =? upperASCII c else x =? c)
  = true ->
  upperASCII x = upperASCII c /\ isSpace x = isSpace c.
Proof.
  destruct (isUpper c || isLower c) eqn:Hc; intros H; apply N.eqb_eq in H;
    [|now subst].
  split; [exact H|].
  assert (Hletter : forall y, isUpper y || isLower y = true -> isSpace y = false).
  { intros y Hy. generalize (filter_alnum_notSpace [y]). cbn [filter].
    replace (isAlnum y) with true.
    - cbn [filter]. unfold notSpace. now destruct (isSpace y).
    - symmetry. unfold isAlnum. apply orb_true_iff in Hy.
      destruct Hy as [-> | ->]; [now rewrite orb_true_r | apply orb_true_r]. }
  rewrite (Hletter c Hc). apply Hletter.
  assert (Hu : isUpper (upperASCII c) = true).
  { unfold upperASCII. destruct (isLower c) eqn:Hl.
    - unfold isLower, isUpper, between in *. apply andb_true_iff in Hl.
      destruct Hl as [H1 H2]. apply N.leb_le in H1, H2.
      apply andb_true_iff. split; apply N.leb_le; lia.
    - rewrite ?Hl, ?orb_false_r in Hc. exact Hc. }
  destruct (upperASCII_inv x H Hu) as [-> | ->].
  - now rewrite Hu.
  - apply orb_true_iff. right. unfold isUpper, isLower, between in *.
    apply andb_true_iff in Hu. destruct Hu as [H1 H2].
    apply N.leb_le in H1, H2. apply andb_true_iff. split; apply N.leb_le; lia.
Qed.

Lemma Matches_seq_chri (g : jsstring) :
  forall w,
    Matches (seq chri g) w ->
    map upperASCII w = map upperASCII g
    /\ map upperASCII (filter notSpace w) = map upperASCII (filter notSpace g).
Proof.
  assert (Hone : forall c w,
             Matches (chri c) w ->
             map upperASCII w = map upperASCII [c]
             /\ map upperASCII (filter notSpace w)
                = map upperASCII (filter notSpace [c])).
  { intros c w H. apply Matches_cls in H. destruct H as [x [-> Hx]].
    apply chri_same in Hx. destruct Hx as [Hu Hs].
    cbn [map filter]. unfold notSpace. rewrite Hs, Hu.
    split; [reflexivity|]. destruct (isSpace c); cbn [negb map];
      [reflexivity | now rewrite Hu]. }
  induction g as [|c g IH]; intros w H.
  - apply Matches_eps in H. now subst.
  - destruct g as [|c' g]; [now apply Hone|].
    change (seq chri (c :: c' :: g)) with (Cat (chri c) (seq chri (c' :: g)))
      in H.
    apply Matches_cat in H. destruct H as [w1 [w2 [-> [H1 H2]]]].
    apply Hone in H1. apply IH in H2.
    destruct H1 as [H1 H1'], H2 as [H2 H2'].
    change (c :: c' :: g) with ([c] ++ c' :: g).
    rewrite !filter_app, !map_app, H1, H1', H2, H2'. split; reflexivity.
Qed.

Lemma Matches_plus_space (w : jsstring) :
  Matches (Plus space) w -> filter notSpace w = [].
Proof.
  unfold Plus, space. intros H.
  apply Matches_cat in H. destruct H as [w1 [w2 [-> [H1 H2]]]].
  apply Matches_cls in H1. destruct H1 as [c [-> Hc]].
  apply Matches_star_cls in H2.
  apply filter_spaces. cbn [app forallb]. now rewrite Hc, H2.
Qed.

(** A text of the pattern made of a name has, white space apart, the code
    units of the name that are no separators, up to the case of letters. *)
Lemma Matches_wordish (ms : list (jsstring * jsstring)) (tail : jsstring) :
  forall w,
    Matches (fold_right (fun gt r => Cat (seq chri (fst gt)) (Cat (Plus space) r))
                        (seq chri tail) ms) w ->
    map upperASCII (filter notSpace w)
    = map upperASCII
        (filter notSpace (flat_map (fun gt => fst gt ++ []) ms ++ tail)).
Proof.
  induction ms as [|[g m] ms IH]; intros w H; cbn [fold_right flat_map fst] in *.
  - now apply Matches_seq_chri in H.
  - apply Matches_cat in H. destruct H as [w1 [w2 [-> [H1 H2]]]].
    apply Matches_cat in H2. destruct H2 as [w3 [w4 [-> [H2 H3]]]].
    apply Matches_seq_chri in H1. destruct H1 as [_ H1].
    apply Matches_plus_space in H2. apply IH in H3.
    rewrite app_nil_r, <- !app_assoc, !filter_app, !map_app, H1, H2, H3.
    now rewrite filter_app, map_app.
Qed.

Lemma includes_app (pre w post : jsstring) :
  includes (pre ++ w ++ post) w = true.
Proof.
  assert (Hstart : forall w post, startsWith w (w ++ post) = true).
  { clear. induction w as [|c w IH]; intros post; [reflexivity|].
    cbn [app startsWith]. now rewrite N.eqb_refl, IH. }
  induction pre as [|c pre IH].
  - cbn [app]. destruct (w ++ post) eqn:E; cbn [includes];
      rewrite <- E, Hstart; reflexivity.
  - cbn [app includes]. rewrite IH. apply orb_true_r.
Qed.

(** The letters and digits of the name stand in the text, one after the
    other when white space is left out, in either case. *)
Definition mentions (text name : jsstring) : bool :=
  includes (map upperASCII (filter notSpace text))
           (map upperASCII (filter isAlnum name)).

Lemma Matches_assertion (r : regex) (w : jsstring) :
  r = WordB \/ (exists p, r = NotBehind p) \/ (exists p, r = NotAhead p) ->
  Matches r w -> w = [].
Proof.
  intros [->|[[p ->]|[p ->]]] H; now inversion H.
Qed.

(** What fires the matcher stands in the text. *)
Lemma containsName_found (text name : jsstring) :
  containsName text name = true -> mentions text name = true.
Proof.
  intros H.
  unfold containsName in H.
  destruct (length (filter isAlnum name) <? 4)%nat; [discriminate|].
  unfold nameRegex in H. destruct (trim name) as [|c0 cleaned0] eqn:Ename;
    [discriminate|].
  rewrite <- Ename in H. unfold mentions.
  rewrite <- (filter_alnum_trim name).
  apply orb_true_iff in H. destruct H as [H|H]; unfold test in H.
  - destruct (exec _ text) as [m|] eqn:E; [|discriminate].
    apply exec_sound in E. destruct E as [Htext Hm].
    cbn [cats fold_right] in Hm.
    apply Matches_cat in Hm. destruct Hm as [w1 [w2 [Hw [H1 Hm]]]].
    apply Matches_cat in Hm. destruct Hm as [w3 [w4 [-> [H2 Hm]]]].
    apply Matches_cat in Hm. destruct Hm as [w5 [w6 [-> [H3 Hm]]]].
    apply Matches_eps in Hm.
    apply Matches_assertion in H1; [|now left].
    apply Matches_assertion in H3; [|now left].
    subst w1 w5 w6. cbn [app] in Hw. rewrite app_nil_r in Hw.
    unfold wordish in H2.
    generalize (replaceAll_squeeze nonAlnum [] (trim name)).
    unfold replaceAll. fold (Plus (Cls nonAlnum)).
    destruct (scanAll (Plus (Cls nonAlnum)) (trim name)) as [ms tail].
    intros Hskel. apply Matches_wordish in H2.
    rewrite Hskel, squeeze_nil in H2.
    replace (filter (fun c => negb (nonAlnum c)) (trim name))
      with (filter isAlnum (trim name)) in H2
      by (apply filter_ext; intros a; unfold nonAlnum;
          now rewrite negb_involutive).
    rewrite filter_alnum_notSpace in H2.
    rewrite Htext, Hw, !filter_app, !map_app, H2.
    apply includes_app.
  - rewrite noSpace_filter in H.
    destruct (exec _ (filter notSpace text)) as [m|] eqn:E; [|discriminate].
    apply exec_sound in E. destruct E as [Htext Hm].
    cbn [cats fold_right] in Hm.
    apply Matches_cat in Hm. destruct Hm as [w1 [w2 [Hw [H1 Hm]]]].
    apply Matches_cat in Hm. destruct Hm as [w3 [w4 [-> [H2 Hm]]]].
    apply Matches_cat in Hm. destruct Hm as [w5 [w6 [-> [H3 Hm]]]].
    apply Matches_eps in Hm.
    apply Matches_assertion in H1; [|right; left; now eexists].
    apply Matches_assertion in H3; [|right; right; now eexists].
    subst w1 w5 w6. cbn [app] in Hw. rewrite app_nil_r in Hw.
    apply Matches_seq_chri in H2. destruct H2 as [H2 _].
    rewrite Htext, Hw, !map_app, H2.
    apply includes_app.
Qed.

(** X19. The name matcher fires only for a name with at least four letters
    or digits, and only when these stand in the text one after the other
    once white space is left out, in either case: what else the name holds
    (blanks, hyphens, brackets) stands for white space or for nothing. *)
Theorem containsName_mentions (text name : jsstring) :
  containsName text name = true ->
  (4 <= length (filter isAlnum name))%nat /\ mentions text name = true.
Proof.
  intros H. split.
  - exact (containsName_alnum _ _ H).
  - exact (containsName_found _ _ H).
Qed.

(** The matcher of "Pune Rural" fires on a text that writes it in capitals
    and with two blanks. *)
Lemma containsName_mentions_witness :
  containsName (js "is PUNE  RURAL over-exploited?") (js "Pune Rural") = true
  /\ mentions (js "is PUNE  RURAL over-exploited?") (js "Pune Rural") = true.
Proof.
  split; [vm_compute; reflexivity|].
  apply (@containsName_mentions (js "is PUNE  RURAL over-exploited?")
           (js "Pune Rural")).
  vm_compute. reflexivity.
Defined.

(** ** The places the resolver can return *)

Lemma dedup_In (A : Type) (eq : A -> A -> bool) (l : list A) :
  forall seen x, In x (dedup eq seen l) -> In x l.
Proof.
  induction l as [|y l IH]; intros seen x; [intros []|].
  cbn [dedup]. destruct (existsb (eq y) seen).
  - intros H. right. exact (IH _ _ H).
  - intros [<-|H]; [now left | right; exact (IH _ _ H)].
Qed.

Lemma dedup_spec (A : Type) (eq : A -> A -> bool)
      (Heq : forall x y, eq x y = true <-> x = y) (l : list A) :
  forall seen,
    NoDup (dedup eq seen l)
    /\ forall x, In x (dedup eq seen l) <-> In x l /\ ~ In x seen.
Proof.
  assert (Hseen : forall y seen, existsb (eq y) seen = true <-> In y seen).
  { intros y seen. rewrite existsb_exists. split.
    - intros [x [Hx E]]. apply Heq in E. now subst.
    - intros H. exists y. split; [exact H | now apply Heq]. }
  induction l as [|y l IH]; intros seen; cbn [dedup].
  - split; [constructor|]. intros x. cbn [In]. tauto.
  - destruct (existsb (eq y) seen) eqn:E.
    + apply Hseen in E. destruct (IH seen) as [Hnd Hin].
      split; [exact Hnd|]. intros x. rewrite Hin. cbn [In].
      split; [tauto|]. intros [[<-|Hx] Hn]; [contradiction | tauto].
    + assert (Hy : ~ In y seen)
        by (intros H; apply Hseen in H; congruence).
      destruct (IH (y :: seen)) as [Hnd Hin]. split.
      * constructor; [|exact Hnd]. rewrite Hin. cbn [In]. tauto.
      * intros x. cbn [In]. rewrite Hin. cbn [In]. split.
        -- intros [<-|[Hx Hn]]; [tauto|]. split; [tauto|]. tauto.
        -- intros [[<-|Hx] Hn]; [now left|].
           destruct (eq y x) eqn:Eyx.
           ++ left. now apply Heq.
           ++ right. split; [exact Hx|]. intros [E'|H]; [|contradiction].
              apply Heq in E'. congruence.
Qed.

Lemma pairEqb_spec (a b : jsstring * jsstring) : pairEqb a b = true <-> a = b.
Proof.
  destruct a as [a1 a2], b as [b1 b2]. unfold pairEqb. cbn [fst snd].
  rewrite andb_true_iff, !eqb_spec. split; [intros [-> ->] | intros [= -> ->]];
    auto.
Qed.

(** The rows in order of first occurrence are an answer that the store may
    give to the two DISTINCT queries. *)
Lemma selectDistinct (db : Table) :
  Distinct db (selectDistricts db) (selectStates db).
Proof.
  unfold Distinct, selectDistricts, selectStates.
  destruct (dedup_spec pairEqb pairEqb_spec
              (map (fun r => (r_state r, r_district r)) db) []) as [N1 I1].
  destruct (dedup_spec JsString.eqb eqb_spec (map r_state db) []) as [N2 I2].
  split; [exact N1|]. split; [exact N2|]. split.
  - intros s d. rewrite I1, in_map_iff. cbn [In]. split.
    + intros [[r [[= <- <-] Hr]] _]. now exists r.
    + intros [r [Hr [<- <-]]]. split; [now exists r | tauto].
  - intros s. rewrite I2, in_map_iff. cbn [In]. split.
    + intros [[r [<- Hr]] _]. now exists r.
    + intros [r [Hr <-]]. split; [now exists r | tauto].
Qed.

(** The states that stand in the synonym table. *)
Definition synonymStates : list jsstring :=
  map (fun kv => js (snd kv)) STATE_SYNONYM.

Section Known.

Variable newRegExp : jsstring -> option (jsstring -> bool).
Variable db : Table.
Variable distinctDistricts : list (jsstring * jsstring).
Variable distinctStates : list jsstring.

Local Abbreviation resolvePlaceSmart' :=
  (resolvePlaceSmart newRegExp distinctDistricts distinctStates).

Hypothesis store_rows : Distinct db distinctDistricts distinctStates.

(** The four ways in which [resolvePlaceSmart] returns. *)
Lemma resolvePlaceSmart_cases (question : jsstring) (pl : Place) :
  resolvePlaceSmart' question = Some pl ->
  (exists st, In st synonymStates /\ pl = statePlace st)
  \/ (exists r,
        In r db
        /\ containsName (collapseWs question) (r_district r) = true
        /\ pl = districtPlace (r_state r) (r_district r))
  \/ (exists r, In r db /\ pl = statePlace (r_state r))
  \/ pl = unknownPlace.
Proof.
  destruct store_rows as [_ [_ [Hds Hss]]].
  unfold resolvePlaceSmart. set (text := collapseWs question).
  unfold synonymOf.
  destruct (find _ STATE_SYNONYM) as [kv|] eqn:Esyn.
  { intros [= <-]. left. exists (js (snd kv)). split; [|reflexivity].
    apply find_some in Esyn. destruct Esyn as [Hin _].
    unfold synonymStates. now apply (in_map (fun kv => js (snd kv))). }
  intros H. right. revert H.
  generalize (longest_Best snd text distinctDistricts).
  destruct (longest snd text distinctDistricts) as [b|]; cbn [Best].
  { intros [Hin [Hb _]] [= <-]. left. destruct b as [s d].
    apply Hds in Hin. destruct Hin as [r [Hr [<- <-]]].
    exists r. cbn [fst snd] in *. auto. }
  intros _ H. right. revert H.
  generalize (longest_Best (fun s => s) text distinctStates).
  destruct (longest (fun s => s) text distinctStates) as [s|]; cbn [Best].
  { intros [Hin _] [= <-]. left.
    apply Hss in Hin. destruct Hin as [r [Hr <-]]. now exists r. }
  intros _ H. apply lastResort_cases in H.
  destruct H as [[s [Hin ->]]| ->]; [left | now right].
  apply Hss in Hin. destruct Hin as [r [Hr <-]]. now exists r.
Qed.

(** The resolver throws only from its last loop, on a state name of which
    no pattern can be made. *)
Lemma lastResort_throws (textNoSpace : jsstring) (l : list jsstring) :
  lastResort newRegExp textNoSpace l = None ->
  exists s, In s l /\ noSpaceTest newRegExp s = None.
Proof.
  induction l as [|s l IH]; cbn [lastResort]; [discriminate|].
  destruct (noSpaceTest newRegExp s) as [matches|] eqn:E.
  - destruct (matches textNoSpace); [discriminate|].
    intros H. destruct (IH H) as [s' [Hs' E']]. exists s'.
    split; [now right | exact E'].
  - intros _. exists s. split; [now left | exact E].
Qed.

Lemma resolvePlaceSmart_throws (question : jsstring) :
  resolvePlaceSmart' question = None ->
  exists r,
    In r db
    /\ let ns := replaceAll (Plus space) [] (r_state r) in
       plainName ns = false
       /\ newRegExp (js "(?<![A-Za-z0-9])" ++ ns ++ js "(?![A-Za-z0-9])")
          = None.
Proof.
  destruct store_rows as [_ [_ [_ Hss]]].
  unfold resolvePlaceSmart.
  destruct (synonymOf _); [discriminate|].
  destruct (longest snd _ _); [discriminate|].
  destruct (longest (fun s => s) _ _); [discriminate|].
  intros H. apply lastResort_throws in H. destruct H as [s [Hin E]].
  apply Hss in Hin. destruct Hin as [r [Hr <-]]. exists r.
  split; [exact Hr|]. cbv zeta. unfold noSpaceTest in E.
  destruct (plainName _); [discriminate|]. now split.
Qed.

(** X11. When the resolver returns, it returns a district, a state or
    nothing.  A district is the district of a row of the store, returned
    with the state of that row; its name has at least four letters or
    digits, and these stand in the question one after the other, white
    space and case apart.  A state is the state of a row of the store or an
    entry of the synonym table, which is returned whether or not the store
    has a row for it.  The resolver throws only when the store has a state
    whose name, white space removed, is not plain text and is refused by
    [new RegExp] as a pattern; and with such a state in the store no
    question is resolved to no place: a question that names none makes the
    resolver throw. *)
Theorem resolvePlaceSmart_known (question : jsstring) :
  match resolvePlaceSmart' question with
  | Some pl =>
      match level pl with
      | LDistrict =>
          exists r,
            In r db /\ pl = districtPlace (r_state r) (r_district r)
            /\ (4 <= length (filter isAlnum (r_district r)))%nat
            /\ mentions question (r_district r) = true
      | LState =>
          exists st,
            pl = statePlace st
            /\ (In st synonymStates \/ exists r, In r db /\ r_state r = st)
      | LUnknown =>
          pl = unknownPlace
          /\ forall r, In r db -> noSpaceTest newRegExp (r_state r) <> None
      | LNational | LOther => False
      end
  | None =>
      exists r,
        In r db
        /\ let ns := replaceAll (Plus space) [] (r_state r) in
           plainName ns = false
           /\ newRegExp (js "(?<![A-Za-z0-9])" ++ ns ++ js "(?![A-Za-z0-9])")
              = None
  end.
Proof.
  destruct (resolvePlaceSmart' question) as [pl|] eqn:E;
    [|exact (@resolvePlaceSmart_throws question E)].
  destruct (@resolvePlaceSmart_cases question pl E)
    as [[st [Hst ->]]|[[r [Hr [Hd ->]]]|[[r [Hr ->]]| ->]]];
    cbn [level statePlace districtPlace unknownPlace].
  - exists st. auto.
  - exists r. split; [exact Hr|]. split; [reflexivity|].
    split; [exact (containsName_alnum _ _ Hd)|].
    apply containsName_found in Hd. unfold mentions in Hd |- *.
    now rewrite collapseWs_content in Hd.
  - exists (r_state r). split; [reflexivity|]. right. now exists r.
  - split; [reflexivity|]. intros r Hr.
    apply (resolvePlaceSmart_unknown _ _ _ _ E).
    destruct store_rows as [_ [_ [_ Hss]]]. apply Hss. now exists r.
Qed.

End Known.

(** A territory whose name is written with a bracket that is not closed:
    no pattern can be made of it. *)
Definition delhiDb : Table :=
  [ mkRow (js "Delhi (NCT") (js "New Delhi") 2020 (js "Safe") ].

(** On the sample table the district resolved is one of its rows.  With a
    state name that is no pattern, a question that names no place of the
    store is answered with a server error, and nothing is handed to the
    store. *)
Lemma resolvePlaceSmart_known_witness :
  (exists r,
     In r sampleDb
     /\ districtPlace (js "Maharashtra") (js "Pune Rural")
        = districtPlace (r_state r) (r_district r)
     /\ (4 <= length (filter isAlnum (r_district r)))%nat
     /\ mentions (js "groundwater level in Pune Rural") (r_district r) = true)
  /\ plainName (js "Delhi(NCT") = false
  /\ resolvePlaceSmart syntaxError (selectDistricts delhiDb)
       (selectStates delhiDb) (js "groundwater in Goa") = None
  /\ apiAnswer lowerASCII syntaxError delhiDb (selectDistricts delhiDb)
       (selectStates delhiDb) (fun _ => Some []) (fun _ => Fails) None
       (js "groundwater in Goa")
     = (ServerError, []).
Proof.
  split; [|repeat split; vm_compute; reflexivity].
  generalize (@resolvePlaceSmart_known syntaxError sampleDb sampleDistricts
                sampleStates (selectDistinct sampleDb)
                (js "groundwater level in Pune Rural")).
  replace (resolvePlaceSmart syntaxError sampleDistricts sampleStates
             (js "groundwater level in Pune Rural"))
    with (Some (districtPlace (js "Maharashtra") (js "Pune Rural")))
    by (vm_compute; reflexivity).
  cbn [level districtPlace]. intros H. exact H.
Defined.

(** ** The statement guard and the deterministic passes *)

Definition noSemicolon (s : jsstring) : bool :=
  forallb (fun c => negb (c =? 59)) s.

(** A year bound that writes no statement terminator: any value but a text
    with one. *)
Definition plainYear (v : jsval) : bool :=
  match v with
  | JStr s => noSemicolon s
  | _ => true
  end.

Lemma noSemicolon_app (a b : jsstring) :
  noSemicolon a = true -> noSemicolon b = true -> noSemicolon (a ++ b) = true.
Proof. apply forallb_app_true. Qed.

Lemma noSemicolon_uint (d : Decimal.uint) :
  noSemicolon (js (NilEmpty.string_of_uint d)) = true.
Proof.
  induction d; cbn [NilEmpty.string_of_uint js list_ascii_of_string map];
    [reflexivity | fold (js (NilEmpty.string_of_uint d)) ..];
    cbn [noSemicolon forallb]; exact IHd.
Qed.

Lemma noSemicolon_ofZ (z : Z) : noSemicolon (ofZ z) = true.
Proof.
  unfold ofZ, NilZero.string_of_int, NilZero.string_of_uint.
  destruct (Z.to_int z) as [d|d].
  - destruct d; try reflexivity; apply noSemicolon_uint.
  - cbn [js list_ascii_of_string map].
    match goal with |- noSemicolon (_ :: map _ (list_ascii_of_string ?s)) = _ =>
      change (noSemicolon (js s) = true) end.
    destruct d; try reflexivity; apply noSemicolon_uint.
Qed.

Lemma noSemicolon_toString (v : jsval) :
  plainYear v = true -> noSemicolon (toString v) = true.
Proof.
  destruct v; cbn [plainYear toString]; auto using noSemicolon_ofZ.
Qed.

Lemma noSemicolon_esc (s : option jsstring) :
  noSemicolon (textOf s) = true -> noSemicolon (esc s) = true.
Proof.
  unfold esc. destruct s as [s|]; [|reflexivity]. cbn [textOf].
  induction s as [|c s IH]; [reflexivity|].
  cbn [noSemicolon forallb flat_map]. intros H.
  apply andb_true_iff in H. destruct H as [Hc H].
  apply noSemicolon_app; [|now apply IH].
  destruct (N.eqb c quote); [reflexivity|].
  cbn [noSemicolon forallb]. now rewrite Hc.
Qed.

Lemma terminatorOnLine_clean (a b : jsstring) :
  noSemicolon a = true -> terminatorOnLine (a ++ b) = terminatorOnLine b.
Proof.
  induction a as [|c a IH]; [reflexivity|].
  cbn [noSemicolon forallb app terminatorOnLine]. intros H.
  apply andb_true_iff in H. destruct H as [Hc H].
  apply negb_true_iff in Hc. rewrite Hc. cbn [andb orb]. now apply IH.
Qed.

Lemma nonEmpty_Some (o : option jsstring) (s : jsstring) :
  nonEmpty o = Some s -> o = Some s.
Proof. destruct o as [[|c t]|]; cbn [nonEmpty]; congruence. Qed.

Section Guard.

Variable db : Table.

Lemma byYear_clean (p : Parsed) :
  plainYear (y1 (years p)) = true -> plainYear (y2 (years p)) = true ->
  noSemicolon (byYear db p) = true.
Proof.
  intros H1 H2. unfold byYear.
  destruct (truthy (y1 (years p)) && truthy (y2 (years p))).
  - repeat apply noSemicolon_app;
      [reflexivity | now apply noSemicolon_toString | reflexivity
      | now apply noSemicolon_toString].
  - apply noSemicolon_app; [reflexivity|].
    destruct (latestYearForState db (state (place p)));
      [apply noSemicolon_ofZ | reflexivity].
Qed.

Ltac nosemi :=
  lazymatch goal with
  | |- noSemicolon (_ ++ _) = true => apply noSemicolon_app; nosemi
  | |- noSemicolon (esc _) = true => apply noSemicolon_esc; assumption
  | |- noSemicolon (byYear _ _) = true => apply byYear_clean; assumption
  | |- noSemicolon (showYear ?o) = true =>
      destruct o; [apply noSemicolon_ofZ | reflexivity]
  | |- _ => reflexivity
  end.

(** A statement built from names and year bounds that write no terminator
    has its only terminator at its very end: the guard lets it through. *)
Lemma buildSQL_clean (p : Parsed) :
  noSemicolon (textOf (state (place p))) = true ->
  noSemicolon (textOf (district (place p))) = true ->
  noSemicolon (textOf (category p)) = true ->
  plainYear (y1 (years p)) = true -> plainYear (y2 (years p)) = true ->
  rejected (buildSQL db p) = false.
Proof.
  intros Hs Hd Hc H1 H2. rewrite rejected_exactly. unfold buildSQL.
  destruct (level (place p));
    try (repeat (rewrite terminatorOnLine_clean; [|solve [nosemi]]);
         reflexivity).
  destruct (JsString.eqb (intent p) (js "LIST")).
  - destruct (nonEmpty (category p)) as [c|] eqn:Ec.
    + apply nonEmpty_Some in Ec. rewrite Ec in Hc.
      repeat (rewrite terminatorOnLine_clean; [|solve [nosemi]]).
      reflexivity.
    + repeat (rewrite terminatorOnLine_clean; [|solve [nosemi]]).
      reflexivity.
  - repeat (rewrite terminatorOnLine_clean; [|solve [nosemi]]).
    reflexivity.
Qed.

Lemma parseYearsAbsolute_plain (t : jsstring) :
  plainYear (y1 (parseYearsAbsolute t)) = true
  /\ plainYear (y2 (parseYearsAbsolute t)) = true.
Proof.
  unfold parseYearsAbsolute. destruct (exec rangeRe t) as [m|].
  - cbn [y1 y2].
    match goal with |- context [jsMin ?a ?b] => destruct a, b end;
      split; reflexivity.
  - destruct (map parseInt (matchAll year4 t)) as [|y [|y' ys]];
      cbn [y1 y2 noYears]; unfold ofOptZ.
    + split; reflexivity.
    + destruct y; split; reflexivity.
    + destruct (minOf y (y' :: ys)), (maxOf y (y' :: ys)); split; reflexivity.
Qed.

Lemma semicolon_in_literal (pre s post : jsstring) :
  In 59 s ->
  forallb (fun c => negb (isLineTerminator c)) s = true ->
  terminatorOnLine (pre ++ esc (Some s) ++ quote :: post) = true.
Proof.
  intros Hin Hlt. apply in_split in Hin. destruct Hin as [a [b ->]].
  unfold esc. rewrite flat_map_app. cbn [flat_map].
  change (N.eqb 59 quote) with false. cbv iota.
  rewrite <- !app_assoc. cbn [app].
  rewrite (app_assoc pre). apply terminatorOnLine_app.
  cbn [terminatorOnLine]. rewrite N.eqb_refl. cbn [andb].
  apply orb_true_iff. left.
  apply contentOnLine_dots; [|reflexivity].
  rewrite forallb_app in Hlt. apply andb_true_iff in Hlt.
  destruct Hlt as [_ Hlt]. cbn [forallb] in Hlt.
  apply andb_true_iff in Hlt. destruct Hlt as [_ Hlt].
  clear -Hlt. induction b as [|c b IH]; [reflexivity|].
  cbn [forallb flat_map] in Hlt |- *.
  apply andb_true_iff in Hlt. destruct Hlt as [Hc Hlt].
  rewrite forallb_app, (IH Hlt), andb_true_r.
  destruct (N.eqb_spec c quote) as [->|_]; [reflexivity|].
  cbn [forallb]. now rewrite Hc.
Qed.

(** A place whose state, or whose district at district level, has a
    semicolon in its name (and no line break): the statement is rejected,
    though the name stands inside an escaped literal. *)
Lemma buildSQL_semicolon_name (p : Parsed) (name : jsstring) :
  (level (place p) = LState \/ level (place p) = LDistrict) ->
  (state (place p) = Some name
   \/ (level (place p) = LDistrict /\ district (place p) = Some name)) ->
  In 59 name ->
  forallb (fun c => negb (isLineTerminator c)) name = true ->
  rejected (buildSQL db p) = true.
Proof.
  intros Hl Hname Hin Hlt. rewrite rejected_exactly. unfold buildSQL.
  destruct Hname as [Hst|[Hd Hdi]].
  - destruct Hl as [Hl|Hl]; rewrite Hl, Hst;
      [destruct (JsString.eqb (intent p) (js "LIST"))|];
      rewrite <- !app_assoc; do 5 apply terminatorOnLine_app;
      change (js "'" ++ ?x) with (quote :: x);
      change (js "' AND district='" ++ ?x)
        with (quote :: js " AND district='" ++ x);
      now apply (@semicolon_in_literal []).
  - rewrite Hd, Hdi. rewrite <- !app_assoc.
    do 7 apply terminatorOnLine_app.
    change (js "'" ++ ?x) with (quote :: x).
    now apply (@semicolon_in_literal []).
Qed.

End Guard.

Section GuardedRequests.

Variable toLowerCase : jsstring -> jsstring.
Variable newRegExp : jsstring -> option (jsstring -> bool).
Variable db : Table.
Variable distinctDistricts : list (jsstring * jsstring).
Variable distinctStates : list jsstring.
Variable prepareAll : jsstring -> option Table.
Variable gemini : nat -> reply.
Variable envGeminiKey : option jsstring.

Local Abbreviation resolvePlaceSmart' :=
  (resolvePlaceSmart newRegExp distinctDistricts distinctStates).
Local Abbreviation parseQuestion' :=
  (parseQuestion toLowerCase db gemini envGeminiKey).
Local Abbreviation apiAnswer' :=
  (apiAnswer toLowerCase newRegExp db distinctDistricts distinctStates
             prepareAll gemini envGeminiKey).

(** The query of steps 1 and 2, from the place that the resolver returned:
    the deterministic parse, its years replaced by the relative window when
    the absolute pass found none. *)
Definition deterministic (question : jsstring) (place0 : Place) : Parsed :=
  applyRelative
    (mkParsed (intentOf toLowerCase question) (parseYearsAbsolute question)
              place0 (extractCategory toLowerCase question)
              (js "deterministic"))
    (parseYearsRelative toLowerCase question
       (latestYearForState db (state place0))).

(** The corrective parse of step 3 changes nothing when the place is
    resolved or the service fails. *)
Lemma parseQuestion_deterministic (question : jsstring) (place0 : Place) :
  level place0 <> LUnknown \/ gemini 0%nat = Fails ->
  fst (fst (parseQuestion' question place0)) = deterministic question place0.
Proof.
  intros H. unfold parseQuestion, deterministic. cbv zeta. cbn [fst place state].
  set (p1 := applyRelative _ _).
  assert (Hp : place p1 = place0)
    by (unfold p1; now rewrite place_applyRelative).
  rewrite Hp. destruct H as [H|H].
  - destruct (level place0); try reflexivity.
    now elim H.
  - rewrite H. cbn [geminiParse].
    now destruct (match level place0 with
                  | LUnknown => haveKey envGeminiKey
                  | _ => false
                  end).
Qed.

Lemma deterministic_place (question : jsstring) (place0 : Place) :
  place (deterministic question place0) = place0.
Proof. unfold deterministic. now rewrite place_applyRelative. Qed.

Lemma deterministic_plain (question : jsstring) (place0 : Place) :
  plainYear (y1 (years (deterministic question place0))) = true
  /\ plainYear (y2 (years (deterministic question place0))) = true.
Proof.
  unfold deterministic, applyRelative. cbn [years].
  destruct (negb (truthy (y1 (parseYearsAbsolute question))));
    [|apply parseYearsAbsolute_plain].
  destruct (parseYearsRelative toLowerCase question _) as [ys|] eqn:E;
    [|apply parseYearsAbsolute_plain].
  cbn [setYears years]. unfold parseYearsRelative in E.
  destruct (exec relativeRe (toLowerCase question)); [|discriminate].
  destruct (latestYearForState db _); [|discriminate].
  destruct (z =? 0)%Z; [discriminate|].
  destruct (group 2 (groups f)); [|discriminate].
  destruct (wordsToNum toLowerCase j); [|discriminate].
  destruct (z0 =? 0)%Z; [discriminate|].
  injection E as <-. split; reflexivity.
Qed.

Lemma deterministic_category (question : jsstring) (place0 : Place) :
  noSemicolon (textOf (category (deterministic question place0))) = true.
Proof.
  unfold deterministic, applyRelative.
  assert (H : noSemicolon (textOf (extractCategory toLowerCase question))
              = true).
  { unfold extractCategory.
    repeat match goal with
           | |- context [if ?b then _ else _] => destruct b
           end; reflexivity. }
  destruct (negb _); [|exact H].
  now destruct (parseYearsRelative toLowerCase question _).
Qed.

(** X12. When the place is resolved by the deterministic passes, or the
    corrective service fails, and no state or district name of the store has
    a semicolon, the statement built is never rejected by the guard: the
    request is not answered "Invalid SQL".  Nor is it when the resolver
    throws. *)
Theorem deterministic_statement_passes (text : jsstring) :
  Distinct db distinctDistricts distinctStates ->
  (forall r, In r db ->
             noSemicolon (r_state r) = true
             /\ noSemicolon (r_district r) = true) ->
  match resolvePlaceSmart' (collapseWs text) with
  | Some place0 =>
      level place0 <> LUnknown \/ gemini 0%nat = Fails ->
      rejected (buildSQL db (deterministic (collapseWs text) place0)) = false
      /\ fst (apiAnswer' text) <> BadRequest (js "Invalid SQL")
  | None => fst (apiAnswer' text) <> BadRequest (js "Invalid SQL")
  end.
Proof.
  intros Hrows Hdb.
  destruct (resolvePlaceSmart' (collapseWs text)) as [place0|] eqn:Epl.
  - intros Hdet.
    assert (Hpass : rejected (buildSQL db (deterministic (collapseWs text)
                                             place0)) = false).
    { destruct (deterministic_plain (collapseWs text) place0) as [H1 H2].
      apply buildSQL_clean;
        [| |apply deterministic_category|exact H1|exact H2];
        rewrite deterministic_place;
        destruct (@resolvePlaceSmart_cases newRegExp db distinctDistricts
                    distinctStates Hrows (collapseWs text) place0 Epl)
          as [[st [Hst ->]]|[[r [Hr [_ ->]]]|[[r [Hr ->]]| ->]]];
        cbn [state district statePlace districtPlace unknownPlace textOf];
        try reflexivity; try (now apply Hdb).
      unfold synonymStates, STATE_SYNONYM in Hst. cbn [map In snd] in Hst.
      repeat (destruct Hst as [<-|Hst]; [reflexivity|]). destruct Hst. }
    split; [exact Hpass|].
    destruct (collapseWs text) as [|c q] eqn:Eq.
    + unfold apiAnswer. rewrite Eq. cbn [fst]. discriminate.
    + rewrite <- Eq in *.
      apply (@apiAnswer_passed toLowerCase newRegExp db distinctDistricts
               distinctStates prepareAll gemini envGeminiKey text place0);
        [rewrite Eq; discriminate | exact Epl |].
      now rewrite (@parseQuestion_deterministic (collapseWs text) place0 Hdet).
  - unfold apiAnswer. destruct (collapseWs text) as [|c q];
      [cbn [fst]; discriminate|].
    rewrite Epl. cbn [fst]. discriminate.
Qed.

(** X13. The guard looks at the whole statement, escaped literals included:
    when the place resolved for a question has a semicolon in the name of
    its state or of its district (and no line break in it), the request is
    answered "Invalid SQL" and nothing is handed to the store. *)
Theorem semicolon_name_rejected (text name : jsstring) (pl : Place) :
  forallb isSpace text = false ->
  resolvePlaceSmart' (collapseWs text) = Some pl ->
  state pl = Some name \/ district pl = Some name ->
  In 59 name ->
  forallb (fun c => negb (isLineTerminator c)) name = true ->
  apiAnswer' text = (BadRequest (js "Invalid SQL"), []).
Proof.
  intros Hblank Hpl Hname Hin Hlt.
  assert (Hq : collapseWs text <> []).
  { intros H. apply collapseWs_blank in H. congruence. }
  assert (Hlevel : (level pl = LState \/ level pl = LDistrict)
                   /\ (state pl = Some name
                       \/ (level pl = LDistrict /\ district pl = Some name))).
  { destruct (resolvePlaceSmart_shape _ _ _ _ Hpl)
      as [[st E]|[[st [d E]]|E]];
      rewrite E in Hname |- *;
      cbn [level state district statePlace districtPlace unknownPlace]
        in Hname |- *.
    - split; [now left|]. destruct Hname as [H|H]; [now left | discriminate].
    - split; [now right|]. destruct Hname as [H|H]; [now left | now right].
    - destruct Hname; discriminate. }
  destruct Hlevel as [Hl Hn].
  apply (@apiAnswer_rejected toLowerCase newRegExp db distinctDistricts
           distinctStates prepareAll gemini envGeminiKey text pl Hq Hpl).
  rewrite parseQuestion_deterministic.
  - apply (@buildSQL_semicolon_name db _ name);
      rewrite ?deterministic_place; assumption.
  - left. destruct Hl as [-> | ->]; discriminate.
Qed.

End GuardedRequests.

(** On the sample table a question about Gujarat passes the guard, whatever
    the store and the service do. *)
Lemma deterministic_statement_passes_witness :
  let out := apiAnswer lowerASCII syntaxError sampleDb sampleDistricts
                       sampleStates sampleStore (fun _ => Fails) None
                       (js "groundwater in Gujarat") in
  resolvePlaceSmart syntaxError sampleDistricts sampleStates
                    (collapseWs (js "groundwater in Gujarat"))
  = Some (statePlace (js "Gujarat"))
  /\ fst out <> BadRequest (js "Invalid SQL").
Proof.
  cbv zeta. split; [vm_compute; reflexivity|].
  generalize (@deterministic_statement_passes lowerASCII syntaxError sampleDb
                sampleDistricts sampleStates sampleStore (fun _ => Fails) None
                (js "groundwater in Gujarat") (selectDistinct sampleDb)).
  replace (resolvePlaceSmart syntaxError sampleDistricts sampleStates
             (collapseWs (js "groundwater in Gujarat")))
    with (Some (statePlace (js "Gujarat"))) by (vm_compute; reflexivity).
  intros H. apply H.
  - intros r Hr. unfold sampleDb in Hr. cbn [In] in Hr.
    repeat (destruct Hr as [<-|Hr]; [split; reflexivity|]). destruct Hr.
  - right. reflexivity.
Defined.

(** A territory whose name is written with a semicolon. *)
Definition damanDb : Table :=
  [ mkRow (js "Daman;Diu") (js "Daman") 2020 (js "Safe") ].

Lemma semicolon_name_rejected_witness :
  let text := js "groundwater in Daman" in
  resolvePlaceSmart syntaxError (selectDistricts damanDb)
                    (selectStates damanDb) (collapseWs text)
  = Some (districtPlace (js "Daman;Diu") (js "Daman"))
  /\ apiAnswer lowerASCII syntaxError damanDb (selectDistricts damanDb)
               (selectStates damanDb) (fun _ => Some []) (fun _ => Fails)
               None text
     = (BadRequest (js "Invalid SQL"), []).
Proof.
  cbv zeta. split; [vm_compute; reflexivity|].
  apply (@semicolon_name_rejected lowerASCII syntaxError damanDb
           (selectDistricts damanDb) (selectStates damanDb)
           (fun _ => Some []) (fun _ => Fails) None
           (js "groundwater in Daman") (js "Daman;Diu")
           (districtPlace (js "Daman;Diu") (js "Daman"))).
  - reflexivity.
  - vm_compute. reflexivity.
  - left. reflexivity.
  - vm_compute. tauto.
  - reflexivity.
Defined.

(** ** Objects as the routes use them *)

Lemma own_assign_same (V : Type) (k : jsstring) (v : V) (o : object V) :
  own k (assign k v o) = Some v.
Proof.
  induction o as [|[k' v'] o IH]; cbn [assign own].
  - now rewrite eqb_refl.
  - destruct (JsString.eqb k' k) eqn:E; cbn [own]; rewrite E;
      [reflexivity | exact IH].
Qed.

Lemma own_assign_other (V : Type) (k c : jsstring) (v : V) (o : object V) :
  k <> c -> own c (assign k v o) = own c o.
Proof.
  intros Hk. induction o as [|[k' v'] o IH]; cbn [assign own].
  - destruct (JsString.eqb k c) eqn:E; [|reflexivity].
    apply eqb_spec in E. contradiction.
  - destruct (JsString.eqb k' k) eqn:E; cbn [own].
    + apply eqb_spec in E. subst k'.
      destruct (JsString.eqb k c) eqn:E'; [|reflexivity].
      apply eqb_spec in E'. contradiction.
    + now rewrite IH.
Qed.

Lemma dedup_complete (l : list jsstring) :
  forall seen x,
    In x l -> existsb (JsString.eqb x) seen = false ->
    In x (dedup JsString.eqb seen l).
Proof.
  induction l as [|y l IH]; intros seen x Hin Hseen; [destruct Hin|].
  cbn [dedup]. destruct Hin as [->|Hin].
  - rewrite Hseen. now left.
  - destruct (existsb (JsString.eqb y) seen); [now apply IH|].
    destruct (JsString.eqb x y) eqn:E.
    + apply eqb_spec in E. now left.
    + right. apply IH; [exact Hin|]. cbn [existsb]. now rewrite E, Hseen.
Qed.

(** ** The category counts of a state *)

(** The number of rows of a category. *)
Definition rowsOf (c : jsstring) (t : Table) : Z :=
  Z.of_nat (length (filter (fun r => JsString.eqb (r_category r) c) t)).

Lemma count_own (o : object Z) (c k : jsstring) (v n : Z) :
  own c o = Some v ->
  own c (count o (k, n)) = Some (if JsString.eqb k c then n else v).
Proof.
  intros Hc. cbn [count].
  destruct (JsString.eqb k c) eqn:E.
  - apply eqb_spec in E. subst k. rewrite Hc. apply own_assign_same.
  - assert (Hk : k <> c) by (intros ->; rewrite eqb_refl in E; discriminate).
    destruct (own k o);
      [|destruct (inherited k); [destruct (JsString.eqb k (js "__proto__"))|]];
      rewrite ?own_assign_other by exact Hk; exact Hc.
Qed.

Lemma fold_count_own (c : jsstring) (gs : list (jsstring * Z)) :
  forall o v,
    own c o = Some v ->
    own c (fold_left count gs o)
    = Some (fold_left (fun acc g => if JsString.eqb (fst g) c then snd g else acc)
                      gs v).
Proof.
  induction gs as [|[k n] gs IH]; intros o v Hc; [exact Hc|].
  cbn [fold_left fst snd]. apply IH. now apply count_own.
Qed.

Lemma last_of_groups (c : jsstring) (f : jsstring -> Z) (keys : list jsstring) :
  forall v,
    fold_left (fun acc g => if JsString.eqb (fst g) c then snd g else acc)
              (map (fun k => (k, f k)) keys) v
    = if existsb (JsString.eqb c) keys then f c else v.
Proof.
  induction keys as [|k keys IH]; intros v; [reflexivity|].
  cbn [map fold_left fst snd existsb]. rewrite IH.
  destruct (JsString.eqb k c) eqn:E.
  - apply eqb_spec in E. subst k. rewrite eqb_refl.
    now destruct (existsb (JsString.eqb c) keys).
  - destruct (JsString.eqb c k) eqn:E'; [|reflexivity].
    apply eqb_spec in E'. subst k. rewrite eqb_refl in E. discriminate.
Qed.

Lemma rowsOf_absent (c : jsstring) (t : Table) :
  ~ In c (map r_category t) -> rowsOf c t = 0%Z.
Proof.
  intros H. unfold rowsOf.
  replace (filter (fun r => JsString.eqb (r_category r) c) t) with (@nil Row);
    [reflexivity|].
  symmetry. induction t as [|r t IH]; [reflexivity|].
  cbn [filter]. destruct (JsString.eqb (r_category r) c) eqn:E.
  - apply eqb_spec in E. elim H. now left.
  - apply IH. intros Hin. apply H. now right.
Qed.

Lemma countByCategory_own (c : jsstring) (t : Table) (o : object Z) :
  own c o = Some 0%Z ->
  own c (fold_left count (countByCategory t) o) = Some (rowsOf c t).
Proof.
  intros Hc. rewrite (fold_count_own c _ o Hc). unfold countByCategory.
  rewrite (last_of_groups c (fun k => rowsOf k t)).
  destruct (existsb (JsString.eqb c) (dedup JsString.eqb [] (map r_category t)))
    eqn:E; [reflexivity|].
  rewrite rowsOf_absent; [reflexivity|]. intros Hin.
  apply (dedup_complete _ []) in Hin; [|reflexivity].
  assert (Hex : existsb (JsString.eqb c)
                        (dedup JsString.eqb [] (map r_category t)) = true).
  { apply existsb_exists. exists c. split; [exact Hin | apply eqb_refl]. }
  congruence.
Qed.

Section StateCats.

Variable db : Table.

(** X14. An answer of [/api/state-cats] names the trimmed state and, for
    each of the four categories Safe, Semi-Critical, Critical and
    Over-Exploited, the number of rows of that state and year that have the
    category; without a year parameter the year is the latest year of the
    state.  (The year is below 2^53 in absolute value, where the numbers of
    JavaScript are exact.) *)
Theorem stateCats_counts (state year : option jsstring) (out : StateCats) :
  stateCats db state year = Body out ->
  (Z.abs (sc_year out) < 2 ^ 53)%Z ->
  sc_state out = param state
  /\ (nonEmpty year = None ->
      maxYear (whereState (sc_state out) db) = Some (sc_year out))
  /\ forall c,
       In c (map fst noCounts) ->
       own c (sc_counts out)
       = Some (rowsOf c (whereStateYear (sc_state out) (sc_year out) db)).
Proof.
  unfold stateCats. destruct (param state) as [|s0 st] eqn:Es; [discriminate|].
  destruct (yearFor db (s0 :: st) year) as [y|] eqn:Ey; [|discriminate].
  intros [= <-] _. cbn [sc_state sc_year sc_counts].
  split; [reflexivity|]. split.
  - intros Hyear. unfold yearFor in Ey. rewrite Hyear in Ey.
    unfold latestYearForState in Ey. cbn [nonEmpty] in Ey.
    destruct (maxYear (whereState (s0 :: st) db)) as [n|]; [|discriminate].
    destruct (n =? 0)%Z; [discriminate | congruence].
  - intros c Hc. apply countByCategory_own.
    cbn [noCounts map fst In] in Hc.
    repeat (destruct Hc as [<-|Hc]; [reflexivity|]). destruct Hc.
Qed.

(** X15. For a state without rows the answer of [/api/state-cats] depends
    on the year parameter: without one the route answers 404, with one that
    reads as a number other than 0 (and below 2^53 in absolute value, where
    the numbers of JavaScript are exact) it answers 200 with all four
    counts 0. *)
Theorem stateCats_unknown_state (state : option jsstring) :
  param state <> [] ->
  whereState (param state) db = [] ->
  stateCats db state None = Status 404 (js "No year found for state")
  /\ forall text y,
       parseInt text = Some y -> y <> 0%Z -> (Z.abs y < 2 ^ 53)%Z ->
       stateCats db state (Some text)
       = Body (mkStateCats (param state) y noCounts).
Proof.
  intros Hs Hnone. unfold stateCats.
  destruct (param state) as [|s0 st] eqn:Es; [now elim Hs|]. split.
  - unfold yearFor, latestYearForState. cbn [nonEmpty]. now rewrite Hnone.
  - intros text y Hy Hy0 _. unfold yearFor.
    assert (Htext : nonEmpty (Some text) = Some text).
    { destruct text; [discriminate Hy | reflexivity]. }
    rewrite Htext, Hy. apply Z.eqb_neq in Hy0. rewrite Hy0.
    replace (whereStateYear (s0 :: st) y db) with (@nil Row); [reflexivity|].
    symmetry. unfold whereStateYear. unfold whereState in Hnone.
    induction db as [|r t IH]; [reflexivity|].
    cbn [filter] in Hnone |- *.
    destruct (JsString.eqb (r_state r) (s0 :: st)); [discriminate|].
    cbn [andb]. now apply IH.
Qed.

End StateCats.

(** Gujarat on the sample table: the latest year is 2022, with one district,
    which is safe. *)
Lemma stateCats_counts_witness :
  let out := mkStateCats (js "Gujarat") 2022
               [ (js "Safe", 1%Z); (js "Semi-Critical", 0%Z);
                 (js "Critical", 0%Z); (js "Over-Exploited", 0%Z) ] in
  stateCats sampleDb (Some (js " Gujarat ")) None = Body out
  /\ own (js "Safe") (sc_counts out)
     = Some (rowsOf (js "Safe") (whereStateYear (js "Gujarat") 2022 sampleDb)).
Proof.
  cbv zeta. split; [vm_compute; reflexivity|].
  refine (proj2 (proj2 (@stateCats_counts sampleDb (Some (js " Gujarat ")) None
                          _ _ _)) (js "Safe") _).
  - vm_compute. reflexivity.
  - reflexivity.
  - now left.
Defined.

(** A state of which the sample table has no row. *)
Lemma stateCats_unknown_state_witness :
  stateCats sampleDb (Some (js "Kerala")) None
  = Status 404 (js "No year found for state")
  /\ stateCats sampleDb (Some (js "Kerala")) (Some (js "2020"))
     = Body (mkStateCats (js "Kerala") 2020 noCounts).
Proof.
  destruct (@stateCats_unknown_state sampleDb (Some (js "Kerala")))
    as [H404 H200].
  - vm_compute. discriminate.
  - reflexivity.
  - split; [exact H404|].
    apply (H200 (js "2020") 2020%Z); [reflexivity | discriminate | reflexivity].
Defined.

(** ** The payload of an answer *)

Lemma fold_min_le (ys : list Z) :
  forall y, (fold_left Z.min ys y <= y)%Z
            /\ forall x, In x ys -> (fold_left Z.min ys y <= x)%Z.
Proof.
  induction ys as [|z ys IH]; intros y; cbn [fold_left].
  - split; [lia | intros x []].
  - destruct (IH (Z.min y z)) as [H1 H2]. split; [lia|].
    intros x [<-|Hx]; [lia | now apply H2].
Qed.

Lemma fold_max_ge (ys : list Z) :
  forall y, (y <= fold_left Z.max ys y)%Z
            /\ forall x, In x ys -> (x <= fold_left Z.max ys y)%Z.
Proof.
  induction ys as [|z ys IH]; intros y; cbn [fold_left].
  - split; [lia | intros x []].
  - destruct (IH (Z.max y z)) as [H1 H2]. split; [lia|].
    intros x [<-|Hx]; [lia | now apply H2].
Qed.

Lemma fold_min_in (ys : list Z) :
  forall y, fold_left Z.min ys y = y \/ In (fold_left Z.min ys y) ys.
Proof.
  induction ys as [|z ys IH]; intros y; cbn [fold_left]; [now left|].
  destruct (IH (Z.min y z)) as [H|H]; [|right; now right].
  rewrite H. destruct (Z.min_spec y z) as [[_ ->]|[_ ->]];
    [now left | right; now left].
Qed.

Lemma fold_max_in (ys : list Z) :
  forall y, fold_left Z.max ys y = y \/ In (fold_left Z.max ys y) ys.
Proof.
  induction ys as [|z ys IH]; intros y; cbn [fold_left]; [now left|].
  destruct (IH (Z.max y z)) as [H|H]; [|right; now right].
  rewrite H. destruct (Z.max_spec y z) as [[_ ->]|[_ ->]];
    [right; now left | now left].
Qed.

(** X16. The year range sent with an answer is the one computed from its
    rows: none exactly when there is no row, else the least and the greatest
    year of the rows, each the year of some row, with the year of every row
    between them. *)
Theorem payload_yearUsed (parsed : Parsed) (stmt : jsstring) (found : Table) :
  exists pl,
    payloadOf (Answer parsed stmt found) = Some pl
    /\ match p_yearUsed pl with
       | None => found = []
       | Some (lo, hi) =>
           (forall r, In r found -> (lo <= r_year r <= hi)%Z)
           /\ (exists r, In r found /\ r_year r = lo)
           /\ (exists r, In r found /\ r_year r = hi)
       end.
Proof.
  eexists. split; [reflexivity|].
  cbn [buildPayload p_yearUsed m_yearUsed]. unfold yearUsed.
  destruct found as [|r0 t]; cbn [map].
  - reflexivity.
  - destruct (fold_min_le (map r_year t) (r_year r0)) as [Hlo1 Hlo2].
    destruct (fold_max_ge (map r_year t) (r_year r0)) as [Hhi1 Hhi2].
    split; [|split].
    + intros r [<-|Hr]; [lia|].
      assert (Hin : In (r_year r) (map r_year t)) by now apply in_map.
      specialize (Hlo2 _ Hin). specialize (Hhi2 _ Hin). lia.
    + destruct (fold_min_in (map r_year t) (r_year r0)) as [->|H].
      * exists r0. split; [now left | reflexivity].
      * apply in_map_iff in H. destruct H as [r [Hy Hr]].
        exists r. split; [now right | exact Hy].
    + destruct (fold_max_in (map r_year t) (r_year r0)) as [->|H].
      * exists r0. split; [now left | reflexivity].
      * apply in_map_iff in H. destruct H as [r [Hy Hr]].
        exists r. split; [now right | exact Hy].
Qed.

(** The key under which [buildPayload] counts a row. *)
Definition keyOf (r : Row) : jsstring :=
  match r_category r with [] => js "Unknown" | c => c end.

Definition keyed (c : jsstring) (t : Table) : Z :=
  Z.of_nat (length (filter (fun r => JsString.eqb (keyOf r) c) t)).

Lemma keyed_cons (c : jsstring) (r : Row) (t : Table) :
  keyed c (r :: t)
  = ((if JsString.eqb (keyOf r) c then 1 else 0) + keyed c t)%Z.
Proof.
  unfold keyed. cbn [filter].
  destruct (JsString.eqb (keyOf r) c); cbn [length]; lia.
Qed.

Lemma keyed_nonneg (c : jsstring) (t : Table) : (0 <= keyed c t)%Z.
Proof. unfold keyed. lia. Qed.

(** What the tally holds for a key that is no member of [Object.prototype]:
    nothing before the first row with the key, then the number of rows. *)
Definition Tallied (c : jsstring) (acc : object cell) (n : Z) : Prop :=
  (n = 0%Z /\ own c acc = None) \/ ((0 < n)%Z /\ own c acc = Some (Count n)).

Lemma tally_step (c : jsstring) (acc : object cell) (n : Z) (r : Row) :
  inherited c = false ->
  Tallied c acc n ->
  Tallied c (tally acc r)
          ((if JsString.eqb (keyOf r) c then 1 else 0) + n)%Z.
Proof.
  intros Hc HT. unfold tally. fold (keyOf r).
  destruct (JsString.eqb (keyOf r) c) eqn:E.
  - apply eqb_spec in E. rewrite E, Hc.
    destruct HT as [[-> Hown]|[Hn Hown]]; rewrite Hown; right.
    + split; [lia|]. apply own_assign_same.
    + split; [lia|]. rewrite own_assign_same.
      destruct (Z.eqb_spec n 0); [lia|]. do 2 f_equal. lia.
  - assert (Hk : keyOf r <> c)
      by (intros H; rewrite H, eqb_refl in E; discriminate).
    replace (0 + n)%Z with n by lia.
    destruct (own (keyOf r) acc) as [[m|]|];
      [| |destruct (inherited (keyOf r));
          [destruct (JsString.eqb (keyOf r) (js "__proto__"))|]];
      try exact HT;
      (destruct HT as [[-> Hown]|[Hn Hown]]; [left|right]; split;
       try reflexivity; try assumption;
       now rewrite own_assign_other by exact Hk).
Qed.

Lemma tally_fold (c : jsstring) (t : Table) :
  inherited c = false ->
  forall acc n,
    Tallied c acc n -> Tallied c (fold_left tally t acc) (keyed c t + n)%Z.
Proof.
  intros Hc. induction t as [|r t IH]; intros acc n HT; [exact HT|].
  cbn [fold_left]. rewrite keyed_cons.
  replace ((if JsString.eqb (keyOf r) c then 1 else 0) + keyed c t + n)%Z
    with (keyed c t + ((if JsString.eqb (keyOf r) c then 1 else 0) + n))%Z
    by lia.
  apply IH. now apply tally_step.
Qed.

Lemma orZero_tally (c : jsstring) (t : Table) :
  inherited c = false ->
  orZero (own c (fold_left tally t [])) = Count (keyed c t).
Proof.
  intros Hc.
  destruct (@tally_fold c t Hc [] 0%Z) as [[Hn ->]|[Hn ->]];
    [now left | | ]; cbn [orZero]; f_equal; lia.
Qed.

Lemma keyed_category (c : jsstring) (t : Table) :
  c <> [] -> c <> js "Unknown" -> keyed c t = rowsOf c t.
Proof.
  intros H1 H2. unfold keyed, rowsOf. do 2 f_equal.
  induction t as [|r t IH]; [reflexivity|]. cbn [filter]. rewrite IH.
  replace (JsString.eqb (keyOf r) c) with (JsString.eqb (r_category r) c);
    [reflexivity|].
  unfold keyOf. destruct (r_category r) as [|x s] eqn:E; [|reflexivity].
  destruct c as [|y c]; [now elim H1|].
  destruct (JsString.eqb (js "Unknown") (y :: c)) eqn:E'; [|reflexivity].
  apply eqb_spec in E'. now elim H2.
Qed.

Lemma three_categories (t : Table) :
  (rowsOf (js "Over-Exploited") t + rowsOf (js "Critical") t
   + rowsOf (js "Semi-Critical") t <= Z.of_nat (length t))%Z.
Proof.
  unfold rowsOf. induction t as [|r t IH]; [cbn; lia|].
  cbn [filter].
  destruct (JsString.eqb (r_category r) (js "Over-Exploited")) eqn:E1.
  { apply eqb_spec in E1. rewrite E1.
    change (JsString.eqb (js "Over-Exploited") (js "Critical")) with false.
    change (JsString.eqb (js "Over-Exploited") (js "Semi-Critical")) with false.
    cbn [length]. lia. }
  destruct (JsString.eqb (r_category r) (js "Critical")) eqn:E2.
  { apply eqb_spec in E2. rewrite E2.
    change (JsString.eqb (js "Critical") (js "Semi-Critical")) with false.
    cbn [length]. lia. }
  destruct (JsString.eqb (r_category r) (js "Semi-Critical"));
    cbn [length]; lia.
Qed.

(** X17. For a state and rows of exactly one year other than 0 the payload
    has the KPIs: the number of rows, and the numbers of rows whose category
    is Over-Exploited, Critical and Semi-Critical, which together are at
    most the number of rows.  In every other case it has none. *)
Theorem buildPayload_kpis (parsed : Parsed) (found : Table) (meta : Meta) :
  let n c := rowsOf (js c) found in
  match level (place parsed), singleYear found with
  | LState, Some y =>
      p_kpis (buildPayload parsed found meta)
      = Some [ (js "Districts (" ++ ofZ y ++ js ")",
                Count (Z.of_nat (length found)));
               (js "Over-Exploited", Count (n "Over-Exploited"%string));
               (js "Critical", Count (n "Critical"%string));
               (js "Semi-Critical", Count (n "Semi-Critical"%string)) ]
      /\ (n "Over-Exploited"%string + n "Critical"%string
          + n "Semi-Critical"%string <= Z.of_nat (length found))%Z
  | _, _ => p_kpis (buildPayload parsed found meta) = None
  end.
Proof.
  cbv zeta. unfold buildPayload. cbv zeta. cbn [p_kpis].
  destruct (level (place parsed)); try reflexivity.
  destruct (singleYear found) as [y|]; [|reflexivity].
  cbn [option_map fst].
  rewrite !orZero_tally by reflexivity.
  rewrite !keyed_category by discriminate.
  split; [reflexivity | apply three_categories].
Qed.

(** ** The window of the relative pass *)

Section Window.

Variable toLowerCase : jsstring -> jsstring.

(** X18. Whatever the text, a window returned by [parseYearsRelative] ends
    at the anchor year, which is there and not 0, and spans between one and
    ten years: a phrase with a larger number, such as "last 15 years",
    gives no window. *)
Theorem parseYearsRelative_window (t : jsstring) (anchor : option Z)
        (ys : Years) :
  parseYearsRelative toLowerCase t anchor = Some ys ->
  exists a n,
    anchor = Some a /\ a <> 0%Z /\ (1 <= n <= 10)%Z
    /\ ys = mkYears (JNum (a - (n - 1))) (JNum a).
Proof.
  unfold parseYearsRelative.
  destruct (exec relativeRe (toLowerCase t)) as [m|]; [|discriminate].
  destruct anchor as [a|]; [|discriminate].
  destruct (Z.eqb_spec a 0) as [|Ha]; [discriminate|].
  destruct (group 2 (groups m)) as [w|]; [|discriminate].
  destruct (wordsToNum toLowerCase w) as [n|] eqn:Hn; [|discriminate].
  apply lookup_numberWords_range in Hn.
  destruct (n =? 0)%Z; [discriminate|].
  intros [= <-]. exists a, n. auto.
Qed.

End Window.

Lemma parseYearsRelative_window_witness :
  parseYearsRelative lowerASCII (js "over the past two years") (Some 2022%Z)
  = Some (mkYears (JNum 2021) (JNum 2022))
  /\ parseYearsRelative lowerASCII (js "last 15 years") (Some 2022%Z) = None
  /\ exists a n,
       Some 2022%Z = Some a /\ a <> 0%Z /\ (1 <= n <= 10)%Z
       /\ mkYears (JNum 2021) (JNum 2022) = mkYears (JNum (a - (n - 1))) (JNum a).
Proof.
  split; [vm_compute; reflexivity|]. split; [vm_compute; reflexivity|].
  apply (@parseYearsRelative_window lowerASCII (js "over the past two years")
           (Some 2022%Z)).
  vm_compute. reflexivity.
Defined.
(** ** The deterministic parse and the corrective parse *)

Section Floor.

Variable toLowerCase : jsstring -> jsstring.
Variable newRegExp : jsstring -> option (jsstring -> bool).
Variable db : Table.
Variable distinctDistricts : list (jsstring * jsstring).
Variable distinctStates : list jsstring.
Variable prepareAll : jsstring -> option Table.
Variable gemini : nat -> reply.
Variable envGeminiKey : option jsstring.

Local Abbreviation resolvePlaceSmart' :=
  (resolvePlaceSmart newRegExp distinctDistricts distinctStates).
Local Abbreviation parseQuestion' :=
  (parseQuestion toLowerCase db gemini envGeminiKey).
Local Abbreviation apiAnswer' :=
  (apiAnswer toLowerCase newRegExp db distinctDistricts distinctStates
             prepareAll gemini envGeminiKey).
Local Abbreviation deterministic' := (deterministic toLowerCase db).

(** X20. When the text is not blank, the deterministic passes resolve the
    place, and the statement built from their query passes the guard and
    finds rows, the answer is that query with those rows and nothing else is
    executed: the corrective service has no part in it, whatever it would
    answer. *)
Theorem apiAnswer_deterministic_floor (text : jsstring) (place0 : Place)
        (row : Row) (more : Table) :
  let question := collapseWs text in
  let stmt := buildSQL db (deterministic' question place0) in
  forallb isSpace text = false ->
  resolvePlaceSmart' question = Some place0 ->
  level place0 <> LUnknown ->
  rejected stmt = false ->
  prepareAll stmt = Some (row :: more) ->
  apiAnswer' text
  = (Answer (deterministic' question place0) stmt (row :: more), [stmt]).
Proof.
  intros question stmt Hblank Hpl Hplace Hguard Hrows. subst stmt.
  assert (Hq : question <> []).
  { intros H. apply collapseWs_blank in H. congruence. }
  generalize (@parseQuestion_deterministic toLowerCase db gemini envGeminiKey
                question place0 (or_introl Hplace)).
  unfold apiAnswer. fold question.
  destruct question as [|c q]; [now elim Hq|].
  rewrite Hpl.
  destruct (parseQuestion' (c :: q) place0) as [[p2 rel] asked]. cbn [fst].
  intros ->. now rewrite Hguard, Hrows.
Qed.

(** X21. When the deterministic passes resolve no place and the corrective
    service answers, the intent, the place and the category of the query
    are those of the service, or its defaults DATA, unknown and none where
    the answer names none: what the question said of them is dropped.  Of
    the question only a relative window can remain, when the service names
    no first year. *)
Theorem corrective_parse_overrides (question : jsstring) (place0 : Place)
        (out : LlmJson) :
  level place0 = LUnknown ->
  gemini 0%nat = Json out ->
  let p := fst (fst (parseQuestion' question place0)) in
  let pl := match j_place out with Some pl => pl | None => unknownPlace end in
  let ys := match j_years out with Some ys => ys | None => noYears end in
  intent p = match nonEmpty (j_intent out) with
             | Some i => i
             | None => js "DATA"
             end
  /\ place p = pl
  /\ category p = nonEmpty (j_category out)
  /\ engine p = js "gemini"
  /\ years p
     = if truthy (y1 ys) then ys
       else match parseYearsRelative toLowerCase question
                    (latestYearForState db (state pl)) with
            | Some window => window
            | None => ys
            end.
Proof.
  intros Hplace Hout. cbv zeta. unfold parseQuestion. cbv zeta. cbn [fst].
  set (p0 := mkParsed _ _ _ _ (js "deterministic")).
  set (rel := parseYearsRelative toLowerCase question
                (latestYearForState db (state (place p0)))).
  assert (Hl : level (place (applyRelative p0 rel)) = LUnknown)
    by (rewrite place_applyRelative; exact Hplace).
  rewrite Hl, haveKey_true, Hout. cbn [geminiParse].
  rewrite merge_left. unfold merge, applyRelative.
  cbn [years place state intent category engine].
  destruct (truthy (y1 match j_years out with
                       | Some ys => ys
                       | None => noYears
                       end)); cbn [negb];
    [repeat split|].
  match goal with
  | |- context [match ?r with Some w => setYears _ w | None => _ end] =>
      destruct r
  end; repeat split.
Qed.

End Floor.

(** Gujarat on the sample table, with a store that has rows for the
    statement: the answer is the deterministic query, with a service that
    fails as with one that would name a district. *)
Lemma apiAnswer_deterministic_floor_witness :
  let p := mkParsed (js "DATA") noYears (statePlace (js "Gujarat")) None
                    (js "deterministic") in
  let store := fun _ : jsstring => Some sampleDb in
  let text := js "groundwater  in Gujarat" in
  apiAnswer lowerASCII syntaxError sampleDb sampleDistricts sampleStates
            store (fun _ => Fails) None text
  = (Answer p (buildSQL sampleDb p) sampleDb, [buildSQL sampleDb p])
  /\ apiAnswer lowerASCII syntaxError sampleDb sampleDistricts sampleStates
               store (fun _ => mehsanaReply) None text
     = (Answer p (buildSQL sampleDb p) sampleDb, [buildSQL sampleDb p]).
Proof.
  cbv zeta.
  split;
    [refine (@apiAnswer_deterministic_floor lowerASCII syntaxError sampleDb
               sampleDistricts sampleStates
               (fun _ => Some sampleDb) (fun _ => Fails) None
               (js "groundwater  in Gujarat") (statePlace (js "Gujarat"))
               (mkRow (js "Maharashtra") (js "Pune") 2020 (js "Safe"))
               _ eq_refl _ _ _ eq_refl)
    |refine (@apiAnswer_deterministic_floor lowerASCII syntaxError sampleDb
               sampleDistricts sampleStates
               (fun _ => Some sampleDb) (fun _ => mehsanaReply) None
               (js "groundwater  in Gujarat") (statePlace (js "Gujarat"))
               (mkRow (js "Maharashtra") (js "Pune") 2020 (js "Safe"))
               _ eq_refl _ _ _ eq_refl)];
    first [vm_compute; reflexivity | vm_compute; discriminate].
Defined.

(** The misspelt state of the example: the question asks for a list of
    critical districts, the service names the state only, and the query is
    a DATA query without category. *)
Lemma corrective_parse_overrides_witness :
  let question := js "list critical districts in Gujrat" in
  let service := fun _ : nat =>
    Json (mkLlmJson None (Some (statePlace (js "Gujarat"))) None None) in
  let p := fst (fst (parseQuestion lowerASCII sampleDb service None question
                                   unknownPlace)) in
  resolvePlaceSmart syntaxError sampleDistricts sampleStates question
  = Some unknownPlace
  /\ intentOf lowerASCII question = js "LIST"
  /\ extractCategory lowerASCII question = Some (js "Critical")
  /\ intent p = js "DATA"
  /\ place p = statePlace (js "Gujarat")
  /\ category p = None.
Proof.
  cbv zeta. split; [vm_compute; reflexivity|].
  split; [vm_compute; reflexivity|].
  split; [vm_compute; reflexivity|].
  destruct (@corrective_parse_overrides lowerASCII sampleDb
              (fun _ => Json (mkLlmJson None (Some (statePlace (js "Gujarat")))
                                        None None))
              None (js "list critical districts in Gujrat") unknownPlace
              (mkLlmJson None (Some (statePlace (js "Gujarat"))) None None))
    as [Hi [Hp [Hc _]]].
  - reflexivity.
  - reflexivity.
  - auto.
Defined.
